(** * The HWP gripper acquisition bridge (socs, agents/hwp_gripper/pru)

    A shallow embedding of the three C programs of the gripper readout:
    - [BeagleboneGripper.c]: the host loader and its acquisition loop,
    - [GripperEncoder.c]: the encoder producer running on PRU0,
    - [LimitSwitches.c]: the limit-switch producer running on PRU1.

    The shared PRU data RAM is a record of the eight objects the host maps
    at its fixed offsets; the two-slot packet arrays are lists indexed as the
    C code indexes them, and an index outside the array is an explicit
    failure ([None]).  [unsigned long] is the 32-bit word of the PRU and of
    the ARM host, and [clock_t] the signed 32-bit [long] of the host, both
    with their wrap-around written out. *)

From Stdlib Require Import ZArith QArith Lia.
From stdpp Require Import base numbers list strings.

Open Scope Z_scope.

(** ** Machine words *)

Definition ULONG_MAX1 : Z := 2 ^ 32.

(** Arithmetic on [unsigned long] wraps modulo 2^32. *)
Definition ulong (z : Z) : Z := z mod ULONG_MAX1.

(** [clock_t] is [long], 32 bits on the ARM host: a value outside
    -2^31 .. 2^31 - 1 wraps into that range. *)
Definition clock_t (z : Z) : Z := (z + 2 ^ 31) mod ULONG_MAX1 - 2 ^ 31.

(** [a[i]] for an array held as a list: outside the array there is nothing
    to read. *)
Definition array_get {A} (a : list A) (i : Z) : option A :=
  if 0 <=? i then a !! Z.to_nat i else None.

(** [a[i] = x]: defined only inside the array. *)
Definition array_set {A} (a : list A) (i : Z) (x : A) : option (list A) :=
  if (0 <=? i) && (i <? Z.of_nat (length a))
  then Some (<[Z.to_nat i := x]> a) else None.

(** ** Constants of BeagleboneGripper.c *)

Definition PORT : Z := 8040.
Definition ENCODER_COUNTER_SIZE : Z := 120.
Definition ENCODER_PACKETS_TO_SEND : Z := 1.
Definition LIMIT_PACKETS_TO_SEND : Z := 1.
Definition ERROR_PACKETS_TO_SEND : Z := 1.
Definition TIMEOUT_PACKETS_TO_SEND : Z := 1.
Definition READOUT_BYTES : Z := 4.
Definition ENCODER_TIMEOUT : Z := 10.
Definition LIMIT_TIMEOUT : Z := 10.
Definition ENCODER_TIMEOUT_FLAG : Z := 1.

(** Constants of the producers. *)
Definition ENCODER_HEADER : Z := 0xBAD0.
Definition LIMIT_HEADER : Z := 0xF00D.

(** ** Packet structures *)

Record EncoderInfo := mkEncoderInfo {
  enc_header : Z;
  enc_clock : list Z;
  enc_clock_overflow : list Z;
  enc_state : list Z
}.

Record LimitInfo := mkLimitInfo {
  lim_header : Z;
  lim_clock : Z;
  lim_clock_overflow : Z;
  lim_state : Z
}.

Record ErrorInfo := mkErrorInfo {
  err_header : Z;
  err_error_code : Z
}.

Record TimeoutInfo := mkTimeoutInfo {
  tmo_header : Z;
  tmo_type : Z
}.

(** What [memset(p, 0, sizeof *p)] leaves in a packet. *)
Definition zero_EncoderInfo : EncoderInfo :=
  mkEncoderInfo 0 (replicate (Z.to_nat ENCODER_COUNTER_SIZE) 0)
                  (replicate (Z.to_nat ENCODER_COUNTER_SIZE) 0)
                  (replicate (Z.to_nat ENCODER_COUNTER_SIZE) 0).
Definition zero_LimitInfo : LimitInfo := mkLimitInfo 0 0 0 0.
Definition zero_ErrorInfo : ErrorInfo := mkErrorInfo 0 0.
Definition zero_TimeoutInfo : TimeoutInfo := mkTimeoutInfo 0 0.

(** ** The memory image of a packet

    [sendto] transmits the bytes of the send array.  All members are
    [unsigned long], four bytes each, little-endian, without padding. *)

Definition le_bytes (w : Z) : list Z :=
  [ Z.land w 255;
    Z.land (Z.shiftr w 8) 255;
    Z.land (Z.shiftr w 16) 255;
    Z.land (Z.shiftr w 24) 255 ].

Definition words_bytes (ws : list Z) : list Z := concat (map le_bytes ws).

Definition EncoderInfo_words (e : EncoderInfo) : list Z :=
  enc_header e :: enc_clock e ++ enc_clock_overflow e ++ enc_state e.
Definition LimitInfo_words (l : LimitInfo) : list Z :=
  [lim_header l; lim_clock l; lim_clock_overflow l; lim_state l].
Definition ErrorInfo_words (e : ErrorInfo) : list Z :=
  [err_header e; err_error_code e].
Definition TimeoutInfo_words (t : TimeoutInfo) : list Z :=
  [tmo_header t; tmo_type t].

Definition EncoderInfo_bytes (e : EncoderInfo) : list Z := words_bytes (EncoderInfo_words e).
Definition LimitInfo_bytes (l : LimitInfo) : list Z := words_bytes (LimitInfo_words l).
Definition ErrorInfo_bytes (e : ErrorInfo) : list Z := words_bytes (ErrorInfo_words e).
Definition TimeoutInfo_bytes (t : TimeoutInfo) : list Z := words_bytes (TimeoutInfo_words t).

(** The bytes of a whole array of packets. *)
Definition array_bytes {A} (f : A -> list Z) (a : list A) : list Z := concat (map f a).

(** An encoder packet whose three arrays have their declared size. *)
Definition EncoderInfo_sized (e : EncoderInfo) : Prop :=
  length (enc_clock e) = Z.to_nat ENCODER_COUNTER_SIZE /\
  length (enc_clock_overflow e) = Z.to_nat ENCODER_COUNTER_SIZE /\
  length (enc_state e) = Z.to_nat ENCODER_COUNTER_SIZE.

(** ** The shared PRU data RAM *)

Record Shared := mkShared {
  on : Z;                              (* ON_OFFSET 0x0000 *)
  clock_overflow : Z;                  (* OVERFLOW_OFFSET 0x0008 *)
  encoder_ready : Z;                   (* ENCODER_READY_OFFSET 0x0010 *)
  encoder_packets : list EncoderInfo;  (* ENCODER_OFFSET 0x0018 *)
  limit_ready : Z;                     (* LIMIT_READY_OFFSET 0x1850 *)
  limit_packets : list LimitInfo;      (* LIMIT_OFFSET 0x1858 *)
  error_ready : Z;                     (* ERROR_READY_OFFSET 0x2000 *)
  error_packets : list ErrorInfo       (* ERROR_OFFSET 0x2008 *)
}.

Definition set_on (v : Z) (s : Shared) : Shared :=
  mkShared v (clock_overflow s) (encoder_ready s) (encoder_packets s)
           (limit_ready s) (limit_packets s) (error_ready s) (error_packets s).
Definition set_clock_overflow (v : Z) (s : Shared) : Shared :=
  mkShared (on s) v (encoder_ready s) (encoder_packets s)
           (limit_ready s) (limit_packets s) (error_ready s) (error_packets s).
Definition set_encoder_ready (v : Z) (s : Shared) : Shared :=
  mkShared (on s) (clock_overflow s) v (encoder_packets s)
           (limit_ready s) (limit_packets s) (error_ready s) (error_packets s).
Definition set_encoder_packets (v : list EncoderInfo) (s : Shared) : Shared :=
  mkShared (on s) (clock_overflow s) (encoder_ready s) v
           (limit_ready s) (limit_packets s) (error_ready s) (error_packets s).
Definition set_limit_ready (v : Z) (s : Shared) : Shared :=
  mkShared (on s) (clock_overflow s) (encoder_ready s) (encoder_packets s)
           v (limit_packets s) (error_ready s) (error_packets s).
Definition set_limit_packets (v : list LimitInfo) (s : Shared) : Shared :=
  mkShared (on s) (clock_overflow s) (encoder_ready s) (encoder_packets s)
           (limit_ready s) v (error_ready s) (error_packets s).
Definition set_error_ready (v : Z) (s : Shared) : Shared :=
  mkShared (on s) (clock_overflow s) (encoder_ready s) (encoder_packets s)
           (limit_ready s) (limit_packets s) v (error_packets s).
Definition set_error_packets (v : list ErrorInfo) (s : Shared) : Shared :=
  mkShared (on s) (clock_overflow s) (encoder_ready s) (encoder_packets s)
           (limit_ready s) (limit_packets s) (error_ready s) v.

(** The three data channels the host drains. *)
Inductive channel := Encoder | Limit | Error.

#[global] Instance channel_eq_dec : EqDecision channel.
Proof. solve_decision. Defined.

Definition ready (c : channel) (s : Shared) : Z :=
  match c with
  | Encoder => encoder_ready s
  | Limit => limit_ready s
  | Error => error_ready s
  end.

(** The layout gives every channel a pair of packet slots. *)
Definition two_slots (s : Shared) : Prop :=
  length (encoder_packets s) = 2%nat /\
  length (limit_packets s) = 2%nat /\
  length (error_packets s) = 2%nat.

(** ** The host's own variables

    [current_time] and [encoder_time] are of type [clock_t], a signed
    32-bit [long] on the host; [clock()] returns the processor time the
    program has used, wrapped into that type. *)

Record Host := mkHost {
  encoder_to_send : list EncoderInfo;   (* [ENCODER_PACKETS_TO_SEND] *)
  limit_to_send : list LimitInfo;       (* [LIMIT_PACKETS_TO_SEND] *)
  error_to_send : list ErrorInfo;       (* [ERROR_PACKETS_TO_SEND] *)
  timeout_packet : list TimeoutInfo;    (* [TIMEOUT_PACKETS_TO_SEND] *)
  offset : Z;
  encoder_index : Z;
  limit_index : Z;
  error_index : Z;
  current_time : Z;
  encoder_time : Z
}.

Definition set_encoder_to_send (v : list EncoderInfo) (h : Host) : Host :=
  mkHost v (limit_to_send h) (error_to_send h) (timeout_packet h) (offset h)
         (encoder_index h) (limit_index h) (error_index h) (current_time h) (encoder_time h).
Definition set_limit_to_send (v : list LimitInfo) (h : Host) : Host :=
  mkHost (encoder_to_send h) v (error_to_send h) (timeout_packet h) (offset h)
         (encoder_index h) (limit_index h) (error_index h) (current_time h) (encoder_time h).
Definition set_error_to_send (v : list ErrorInfo) (h : Host) : Host :=
  mkHost (encoder_to_send h) (limit_to_send h) v (timeout_packet h) (offset h)
         (encoder_index h) (limit_index h) (error_index h) (current_time h) (encoder_time h).
Definition set_timeout_packet (v : list TimeoutInfo) (h : Host) : Host :=
  mkHost (encoder_to_send h) (limit_to_send h) (error_to_send h) v (offset h)
         (encoder_index h) (limit_index h) (error_index h) (current_time h) (encoder_time h).
Definition set_offset (v : Z) (h : Host) : Host :=
  mkHost (encoder_to_send h) (limit_to_send h) (error_to_send h) (timeout_packet h) v
         (encoder_index h) (limit_index h) (error_index h) (current_time h) (encoder_time h).
Definition set_encoder_index (v : Z) (h : Host) : Host :=
  mkHost (encoder_to_send h) (limit_to_send h) (error_to_send h) (timeout_packet h) (offset h)
         v (limit_index h) (error_index h) (current_time h) (encoder_time h).
Definition set_limit_index (v : Z) (h : Host) : Host :=
  mkHost (encoder_to_send h) (limit_to_send h) (error_to_send h) (timeout_packet h) (offset h)
         (encoder_index h) v (error_index h) (current_time h) (encoder_time h).
Definition set_error_index (v : Z) (h : Host) : Host :=
  mkHost (encoder_to_send h) (limit_to_send h) (error_to_send h) (timeout_packet h) (offset h)
         (encoder_index h) (limit_index h) v (current_time h) (encoder_time h).
Definition set_current_time (v : Z) (h : Host) : Host :=
  mkHost (encoder_to_send h) (limit_to_send h) (error_to_send h) (timeout_packet h) (offset h)
         (encoder_index h) (limit_index h) (error_index h) v (encoder_time h).
Definition set_encoder_time (v : Z) (h : Host) : Host :=
  mkHost (encoder_to_send h) (limit_to_send h) (error_to_send h) (timeout_packet h) (offset h)
         (encoder_index h) (limit_index h) (error_index h) (current_time h) v.

Definition fill_index (c : channel) (h : Host) : Z :=
  match c with
  | Encoder => encoder_index h
  | Limit => limit_index h
  | Error => error_index h
  end.

(** ** What the host does to the outside world *)

(** The four calls of [sendto]: one per channel, one for the timeout. *)
Inductive sender := S_batch (c : channel) | S_timeout.

#[global] Instance sender_eq_dec : EqDecision sender.
Proof. solve_decision. Defined.

Inductive event :=
| System_pinconfig                      (* system("./pinconfig") *)
| Print_usage (argv0 : string)
| Print_limit_state (v : Z)             (* printf("%X\n", limit_packets[offset].state) *)
| Print_sending_limit (t : Z)
| Print_sending_error (t : Z)
| Print_sending_timeout (t : Z)
| Print_all_done
| Sendto (from : sender) (payload : list Z)   (* one UDP datagram, as bytes *)
| Pru_wait_event                        (* prussdrv_pru_wait_event(PRU_EVTOUT_1) *)
| Pru_disable (pru : Z)
| Pruss_exit.

(** ** Statements of the acquisition loop

    A statement takes the host variables and the shared RAM to their new
    values and lists what it emitted, or fails on an access outside an
    array. *)

Definition stmt : Type := Host -> Shared -> option (Host * Shared * list event).

Definition skip : stmt := fun h s => Some (h, s, []).

Definition seq (a b : stmt) : stmt := fun h s =>
  match a h s with
  | Some (h1, s1, e1) =>
      match b h1 s1 with
      | Some (h2, s2, e2) => Some (h2, s2, e1 ++ e2)
      | None => None
      end
  | None => None
  end.

Notation "a ;;; b" := (seq a b) (at level 90, right associativity).

Definition when (cond : Host -> Shared -> bool) (body : stmt) : stmt := fun h s =>
  if cond h s then body h s else skip h s.

Section Loop.

(** [CLOCKS_PER_SEC] comes from <time.h>. *)
Variable CLOCKS_PER_SEC : Z.

(** current_time = clock();  the value [clock()] returns is the caller's. *)
Definition read_clock (clk : Z) : stmt := fun h s =>
  Some (set_current_time clk h, s, []).

(** if ( *X_ready != 0) *)
Definition is_ready (c : channel) : Host -> Shared -> bool := fun _ s =>
  negb (ready c s =? 0).

(** offset = *X_ready - 1; *)
Definition take_offset (c : channel) : stmt := fun h s =>
  Some (set_offset (ulong (ready c s - 1)) h, s, []).

(** X_to_send[X_index] = X_packets[offset]; *)
Definition copy_packet (c : channel) : stmt := fun h s =>
  match c with
  | Encoder =>
      p ← array_get (encoder_packets s) (offset h);
      a ← array_set (encoder_to_send h) (encoder_index h) p;
      Some (set_encoder_to_send a h, s, [])
  | Limit =>
      p ← array_get (limit_packets s) (offset h);
      a ← array_set (limit_to_send h) (limit_index h) p;
      Some (set_limit_to_send a h, s, [])
  | Error =>
      p ← array_get (error_packets s) (offset h);
      a ← array_set (error_to_send h) (error_index h) p;
      Some (set_error_to_send a h, s, [])
  end.

(** printf("%X\n", limit_packets[offset].state); *)
Definition print_limit_state : stmt := fun h s =>
  p ← array_get (limit_packets s) (offset h);
  Some (h, s, [Print_limit_state (lim_state p)]).

(** ++X_index; *)
Definition bump_index (c : channel) : stmt := fun h s =>
  match c with
  | Encoder => Some (set_encoder_index (ulong (encoder_index h + 1)) h, s, [])
  | Limit => Some (set_limit_index (ulong (limit_index h + 1)) h, s, [])
  | Error => Some (set_error_index (ulong (error_index h + 1)) h, s, [])
  end.

(** *X_ready = 0; *)
Definition clear_ready (c : channel) : stmt := fun h s =>
  match c with
  | Encoder => Some (h, set_encoder_ready 0 s, [])
  | Limit => Some (h, set_limit_ready 0 s, [])
  | Error => Some (h, set_error_ready 0 s, [])
  end.

(** encoder_time = current_time; *)
Definition stamp_encoder_time : stmt := fun h s =>
  Some (set_encoder_time (current_time h) h, s, []).

(** if (X_index == X_PACKETS_TO_SEND) *)
Definition PACKETS_TO_SEND (c : channel) : Z :=
  match c with
  | Encoder => ENCODER_PACKETS_TO_SEND
  | Limit => LIMIT_PACKETS_TO_SEND
  | Error => ERROR_PACKETS_TO_SEND
  end.

Definition is_full (c : channel) : Host -> Shared -> bool := fun h _ =>
  fill_index c h =? PACKETS_TO_SEND c.

(** printf("%lu: sending ... packets\n", current_time);  the encoder
    dispatch prints nothing. *)
Definition announce (c : channel) : stmt := fun h s =>
  match c with
  | Encoder => Some (h, s, [])
  | Limit => Some (h, s, [Print_sending_limit (current_time h)])
  | Error => Some (h, s, [Print_sending_error (current_time h)])
  end.

(** The bytes of a channel's whole send array. *)
Definition batch_bytes (c : channel) (h : Host) : list Z :=
  match c with
  | Encoder => array_bytes EncoderInfo_bytes (encoder_to_send h)
  | Limit => array_bytes LimitInfo_bytes (limit_to_send h)
  | Error => array_bytes ErrorInfo_bytes (error_to_send h)
  end.

(** sendto(sockfd, X_to_send, sizeof(X_to_send), ...); *)
Definition sendto_batch (c : channel) : stmt := fun h s =>
  Some (h, s, [Sendto (S_batch c) (batch_bytes c h)]).

(** X_index = 0; *)
Definition reset_index (c : channel) : stmt := fun h s =>
  match c with
  | Encoder => Some (set_encoder_index 0 h, s, [])
  | Limit => Some (set_limit_index 0 h, s, [])
  | Error => Some (set_error_index 0 h, s, [])
  end.

(** ((double) (current_time - encoder_time))/CLOCKS_PER_SEC.  The
    difference is taken in [clock_t], where the compiled subtraction
    wraps.  The quotient is exact: both operands are integers, and a
    quotient of integers that differs from 10 differs from it by at least
    1/CLOCKS_PER_SEC, far more than the rounding of a double. *)
Definition elapsed_seconds (now since : Z) : Q :=
  (inject_Z (clock_t (now - since)) / inject_Z CLOCKS_PER_SEC)%Q.

(** elapsed > ENCODER_TIMEOUT *)
Definition overdue (now since : Z) : bool :=
  negb (Qle_bool (elapsed_seconds now since) (inject_Z ENCODER_TIMEOUT)).

(** if (((double) (current_time - encoder_time))/CLOCKS_PER_SEC > ENCODER_TIMEOUT) *)
Definition timeout_due : Host -> Shared -> bool := fun h _ =>
  overdue (current_time h) (encoder_time h).

Definition announce_timeout : stmt := fun h s =>
  Some (h, s, [Print_sending_timeout (current_time h)]).

(** timeout_packet->type = ENCODER_TIMEOUT_FLAG; *)
Definition set_timeout_type : stmt := fun h s =>
  t ← array_get (timeout_packet h) 0;
  a ← array_set (timeout_packet h) 0 (mkTimeoutInfo (tmo_header t) ENCODER_TIMEOUT_FLAG);
  Some (set_timeout_packet a h, s, []).

(** sendto(sockfd, &timeout_packet, sizeof( *timeout_packet), ...); *)
Definition sendto_timeout : stmt := fun h s =>
  t ← array_get (timeout_packet h) 0;
  Some (h, s, [Sendto S_timeout (TimeoutInfo_bytes t)]).

(** *** The blocks of the loop body *)

(** Lines 196-217: one drain block per channel. *)
Definition drain (c : channel) : stmt :=
  when (is_ready c)
    (take_offset c ;;; copy_packet c ;;;
     match c with
     | Encoder => bump_index c ;;; clear_ready c ;;; stamp_encoder_time
     | Limit => print_limit_state ;;; bump_index c ;;; clear_ready c
     | Error => bump_index c ;;; clear_ready c
     end).

(** Lines 219-237: one dispatch block per channel. *)
Definition dispatch (c : channel) : stmt :=
  when (is_full c) (announce c ;;; sendto_batch c ;;; reset_index c).

(** Lines 239-245. *)
Definition staleness : stmt :=
  when timeout_due
    (announce_timeout ;;; set_timeout_type ;;; sendto_timeout ;;; stamp_encoder_time).

(** Lines 194-245: one pass through the body of the [while]. *)
Definition loop_body (clk : Z) : stmt :=
  read_clock clk ;;;
  drain Encoder ;;; drain Limit ;;; drain Error ;;;
  dispatch Encoder ;;; dispatch Limit ;;; dispatch Error ;;;
  staleness.

(** How a run of the loop ends: it left the [while], it is still inside
    when the schedule runs out, or it went outside an array. *)
Inductive outcome :=
| Exited (h : Host) (s : Shared) (out : list event)
| Running (h : Host) (s : Shared) (out : list event)
| Fault.

(** The events [e] happened before those of [o]. *)
Definition emit (e : list event) (o : outcome) : outcome :=
  match o with
  | Exited h s out => Exited h s (e ++ out)
  | Running h s out => Running h s (e ++ out)
  | Fault => Fault
  end.

(** Lines 193-246.  Between two evaluations of the loop condition the
    producers (and whoever owns the run flag) act on the shared RAM; an
    entry of the schedule gives that action and the value [clock()]
    returns in the iteration that follows. *)
Fixpoint acquisition_loop (sched : list ((Shared -> Shared) * Z))
    (h : Host) (s : Shared) : outcome :=
  match sched with
  | [] => Running h s []
  | (env, clk) :: rest =>
      let s0 := env s in
      if on s0 =? 1 then Exited h s0 []
      else match loop_body clk h s0 with
           | Some (h1, s1, e) => emit e (acquisition_loop rest h1 s1)
           | None => Fault
           end
  end.

(** Lines 248-254, with the value the second read of [*on] returns. *)
Definition teardown (on_now : Z) : list event :=
  if on_now =? 1
  then [Pru_wait_event; Print_all_done; Pru_disable 1; Pru_disable 0; Pruss_exit]
  else [].

End Loop.

(** ** Start of [main] *)

(** Lines 109-115: the pin configuration script runs first; an argument
    count other than 5 prints the usage line and returns 1.  [None] is
    "execution continues at line 117". *)
Definition check_arguments (argc : Z) (argv0 : string) : list event * option Z :=
  if negb (argc =? 5)
  then ([System_pinconfig; Print_usage argv0], Some 1)
  else ([System_pinconfig], None).

(** Lines 135-144: the host clears the packets and the flags it owns. *)
Definition init_shared (s : Shared) : option Shared :=
  e0 ← array_set (encoder_packets s) 0 zero_EncoderInfo;
  e1 ← array_set e0 1 zero_EncoderInfo;
  l0 ← array_set (limit_packets s) 0 zero_LimitInfo;
  l1 ← array_set l0 1 zero_LimitInfo;
  r0 ← array_set (error_packets s) 0 zero_ErrorInfo;
  Some (mkShared 0 (clock_overflow s) 0 e1 0 l1 0 r0).

(** The host variables when the loop is entered (lines 186-190): statics
    are zero, the timeout header is set, the three fill counts are 0 and
    [current_time] holds a first reading of the clock. *)
Definition host_at_loop_entry (clk : Z) : Host :=
  mkHost [zero_EncoderInfo] [zero_LimitInfo] [zero_ErrorInfo]
         [mkTimeoutInfo 0x1234 0] 0 0 0 0 clk 0.

(** The send arrays have their declared sizes. *)
Definition host_sized (h : Host) : Prop :=
  length (encoder_to_send h) = 1%nat /\
  length (limit_to_send h) = 1%nat /\
  length (error_to_send h) = 1%nat /\
  length (timeout_packet h) = 1%nat.

(** ** The loop, one statement at a time

    The producers run while the host is inside an iteration.  To let them
    act between any two statements of the host, the loop is also given as a
    machine whose program counter names the statement to execute next. *)

Inductive pc :=
| P_while                       (* 193 *)
| P_time                        (* 194 *)
| P_test (c : channel)          (* 196, 204, 212 *)
| P_offset (c : channel)        (* 197, 205, 213 *)
| P_copy (c : channel)          (* 198, 206, 214 *)
| P_print                       (* 207 *)
| P_inc (c : channel)           (* 199, 208, 215 *)
| P_ack (c : channel)           (* 200, 209, 216 *)
| P_stamp                       (* 201 *)
| P_full (c : channel)          (* 219, 225, 232 *)
| P_announce (c : channel)      (* 226, 233 *)
| P_sendto (c : channel)        (* 220, 227, 234 *)
| P_clear (c : channel)         (* 222, 229, 236 *)
| P_tmo_test                    (* 239 *)
| P_tmo_announce                (* 240 *)
| P_tmo_type                    (* 241 *)
| P_tmo_sendto                  (* 242 *)
| P_tmo_stamp                   (* 244 *)
| P_done.                       (* 248 *)

Definition next_drain (c : channel) : pc :=
  match c with
  | Encoder => P_test Limit
  | Limit => P_test Error
  | Error => P_full Encoder
  end.

Definition next_dispatch (c : channel) : pc :=
  match c with
  | Encoder => P_full Limit
  | Limit => P_full Error
  | Error => P_tmo_test
  end.

Definition config : Type := pc * Host * Shared.

Definition goto (p : pc) (r : option (Host * Shared * list event))
  : option (config * list event) :=
  match r with
  | Some (h, s, e) => Some ((p, h, s), e)
  | None => None
  end.

Section Machine.

Variable CLOCKS_PER_SEC : Z.

(** One statement of the host; [clk] is what [clock()] returns now. *)
Definition host_step (clk : Z) (cf : config) : option (config * list event) :=
  let '(p, h, s) := cf in
  match p with
  | P_while => Some ((if on s =? 1 then P_done else P_time, h, s), [])
  | P_time => goto (P_test Encoder) (read_clock clk h s)
  | P_test c => Some ((if is_ready c h s then P_offset c else next_drain c, h, s), [])
  | P_offset c => goto (P_copy c) (take_offset c h s)
  | P_copy c => goto (match c with Limit => P_print | _ => P_inc c end) (copy_packet c h s)
  | P_print => goto (P_inc Limit) (print_limit_state h s)
  | P_inc c => goto (P_ack c) (bump_index c h s)
  | P_ack c => goto (match c with Encoder => P_stamp | _ => next_drain c end) (clear_ready c h s)
  | P_stamp => goto (P_test Limit) (stamp_encoder_time h s)
  | P_full c => Some ((if is_full c h s then P_announce c else next_dispatch c, h, s), [])
  | P_announce c => goto (P_sendto c) (announce c h s)
  | P_sendto c => goto (P_clear c) (sendto_batch c h s)
  | P_clear c => goto (next_dispatch c) (reset_index c h s)
  | P_tmo_test =>
      Some ((if timeout_due CLOCKS_PER_SEC h s then P_tmo_announce else P_while, h, s), [])
  | P_tmo_announce => goto P_tmo_type (announce_timeout h s)
  | P_tmo_type => goto P_tmo_sendto (set_timeout_type h s)
  | P_tmo_sendto => goto P_tmo_stamp (sendto_timeout h s)
  | P_tmo_stamp => goto P_while (stamp_encoder_time h s)
  | P_done => Some ((P_done, h, s), [])
  end.

(** [n] statements in a row with nobody else touching the shared RAM. *)
Fixpoint host_steps (n : nat) (clk : Z) (cf : config) : option (config * list event) :=
  match n with
  | O => Some (cf, [])
  | S n' =>
      match host_step clk cf with
      | Some (cf1, e1) =>
          match host_steps n' clk cf1 with
          | Some (cf2, e2) => Some (cf2, e1 ++ e2)
          | None => None
          end
      | None => None
      end
  end.

(** *** The host among the producers *)

Inductive label :=
| L_host (p : pc)               (* the host executed the statement at [p] *)
| L_publish (c : channel)       (* a producer raised the ready flag of [c] *)
| L_quiet.                      (* a producer wrote, but no ready flag *)

Definition same_layout (s s' : Shared) : Prop :=
  length (encoder_packets s') = length (encoder_packets s) /\
  length (limit_packets s') = length (limit_packets s) /\
  length (error_packets s') = length (error_packets s).

(** What the other side may do in one step: raise one ready flag to 1 or
    2, or write anything else; it never lowers a ready flag.  The passes of
    the encoder and of the limit producer are shown below to be such steps;
    the error channel has no producer among the sources and is held to the
    same hand-off. *)
Inductive env_step : label -> Shared -> Shared -> Prop :=
| Env_publish c s s' :
    1 <= ready c s' <= 2 ->
    (forall c', c' <> c -> ready c' s' = ready c' s) ->
    same_layout s s' ->
    env_step (L_publish c) s s'
| Env_quiet s s' :
    (forall c, ready c s' = ready c s) ->
    same_layout s s' ->
    env_step L_quiet s s'.

Inductive sys_step : config -> label -> config -> Prop :=
| Sys_host clk p h s cf' e :
    host_step clk (p, h, s) = Some (cf', e) ->
    sys_step (p, h, s) (L_host p) cf'
| Sys_env l p h s s' :
    env_step l s s' ->
    sys_step (p, h, s) l (p, h, s').

Inductive sys_run : config -> list label -> config -> Prop :=
| Run_nil cf : sys_run cf [] cf
| Run_snoc cf tr cf1 l cf2 :
    sys_run cf tr cf1 -> sys_step cf1 l cf2 -> sys_run cf (tr ++ [l]) cf2.

End Machine.

(** The loop is entered with the flags cleared and the fill counts 0. *)
Definition loop_entry (cf : config) : Prop :=
  let '(p, h, s) := cf in
  p = P_while /\ host_sized h /\ two_slots s /\
  (forall c, fill_index c h = 0) /\ (forall c, ready c s = 0).

(** *** Watching one channel

    A channel is idle, has a published packet pending, has had it copied,
    or has had it copied and counted.  The observer rejects a copy with
    nothing pending (a second drain of the same publication), a count that
    does not follow a copy and an acknowledgment that does not follow the
    count. *)

Inductive handoff := Idle | Pending | Copied | Counted.

Definition observe (c : channel) (m : handoff) (l : label) : option handoff :=
  match l with
  | L_publish c' =>
      if decide (c' = c)
      then Some (match m with Idle => Pending | _ => m end)
      else Some m
  | L_host (P_copy c') =>
      if decide (c' = c)
      then match m with Pending => Some Copied | _ => None end
      else Some m
  | L_host (P_inc c') =>
      if decide (c' = c)
      then match m with Copied => Some Counted | _ => None end
      else Some m
  | L_host (P_ack c') =>
      if decide (c' = c)
      then match m with Counted => Some Idle | _ => None end
      else Some m
  | _ => Some m
  end.

Fixpoint observe_all (c : channel) (m : handoff) (tr : list label) : option handoff :=
  match tr with
  | [] => Some m
  | l :: tr' =>
      match observe c m l with
      | Some m' => observe_all c m' tr'
      | None => None
      end
  end.

Definition is_copy (c : channel) (l : label) : bool :=
  match l with
  | L_host (P_copy c') => bool_decide (c' = c)
  | _ => false
  end.

Definition is_publish (c : channel) (l : label) : bool :=
  match l with
  | L_publish c' => bool_decide (c' = c)
  | _ => false
  end.

Fixpoint count (f : label -> bool) (tr : list label) : nat :=
  match tr with
  | [] => 0
  | l :: tr' => (if f l then 1 else 0) + count f tr'
  end.

Definition count_copies (c : channel) (tr : list label) : nat := count (is_copy c) tr.

Definition count_publishes (c : channel) (tr : list label) : nat := count (is_publish c) tr.

(** A packet of any of the three channels. *)
Inductive packet :=
| Pk_encoder (e : EncoderInfo)
| Pk_limit (l : LimitInfo)
| Pk_error (e : ErrorInfo).

(** X_packets[i] *)
Definition slot_packet (c : channel) (s : Shared) (i : Z) : option packet :=
  match c with
  | Encoder => Pk_encoder <$> array_get (encoder_packets s) i
  | Limit => Pk_limit <$> array_get (limit_packets s) i
  | Error => Pk_error <$> array_get (error_packets s) i
  end.

(** X_to_send[i] *)
Definition batch_packet (c : channel) (h : Host) (i : Z) : option packet :=
  match c with
  | Encoder => Pk_encoder <$> array_get (encoder_to_send h) i
  | Limit => Pk_limit <$> array_get (limit_to_send h) i
  | Error => Pk_error <$> array_get (error_to_send h) i
  end.

(** The shared RAM with the ready flag of [c] at 0. *)
Definition clear_flag (c : channel) (s : Shared) : Shared :=
  match c with
  | Encoder => set_encoder_ready 0 s
  | Limit => set_limit_ready 0 s
  | Error => set_error_ready 0 s
  end.

(** ** The IEP timer

    Both producers read the free-running 32-bit IEP counter and the
    overflow flag, bit 0 of the global status register.  The timer is
    hardware; it is described here as the comments of the producers have
    it: the counter adds 1 every cycle ("32-bit, 200MHz"), the flag goes up
    when the counter passes 2^32 ("Register to check for counter
    overflows") and writing 1 to the status register clears it ("Clears
    Overflow Flags"). *)

Record IEP := mkIEP {
  tmr_cnt : Z;          (* IEP_TMR_CNT *)
  tmr_sts : Z           (* IEP_TMR_GLB_STS *)
}.

(** The timer after [d] more cycles. *)
Definition iep_run (d : Z) (t : IEP) : IEP :=
  mkIEP (ulong (tmr_cnt t + d))
        (if ULONG_MAX1 <=? tmr_cnt t + d then Z.lor (tmr_sts t) 1 else tmr_sts t).

(** *IEP_TMR_GLB_STS = v;  the bits written as 1 are cleared. *)
Definition iep_write_sts (v : Z) (t : IEP) : IEP :=
  mkIEP (tmr_cnt t) (Z.land (tmr_sts t) (Z.lnot v)).

(** What a producer stores into the shared RAM, in program order. *)
Inductive field := F_header | F_clock | F_clock_overflow | F_state.

#[global] Instance field_eq_dec : EqDecision field.
Proof. solve_decision. Defined.

Inductive pwrite :=
| W_ready (c : channel) (v : Z)
| W_counter (v : Z)
| W_slot (c : channel) (slot : Z) (f : field) (idx : Z) (v : Z).

(** [a[i].member = ...] on an array of structures. *)
Definition update_slot {A} (a : list A) (i : Z) (f : A -> option A) : option (list A) :=
  x ← array_get a i;
  y ← f x;
  array_set a i y.

Module GripperEncoder.

Definition pru_mask : Z := 0x3F.   (* (1<<0) | ... | (1<<5) *)

(** The producer's own variables. *)
Record Pru := mkPru {
  packet : Z;
  index : Z
}.

Definition state : Type := Pru * Shared * IEP.

(** What one pass of the loop reads from outside: the cycles that elapse
    before each access to the timer, and the input register. *)
Record Input := mkInput {
  d_check : Z;        (* before line 82 *)
  d_clock : Z;        (* between line 82-85 and line 87 *)
  d_overflow : Z;     (* between line 87 and line 88 *)
  r31 : Z             (* __R31 at line 89 *)
}.

Definition DELAY_CYCLES : Z := 25000.

Definition set_header (p : Z) (v : Z) (s : Shared) : option Shared :=
  a ← update_slot (encoder_packets s) p
       (fun e => Some (mkEncoderInfo v (enc_clock e) (enc_clock_overflow e) (enc_state e)));
  Some (set_encoder_packets a s).

Definition set_clock (p i v : Z) (s : Shared) : option Shared :=
  a ← update_slot (encoder_packets s) p
       (fun e => c ← array_set (enc_clock e) i v;
                 Some (mkEncoderInfo (enc_header e) c (enc_clock_overflow e) (enc_state e)));
  Some (set_encoder_packets a s).

Definition set_clock_overflow_at (p i v : Z) (s : Shared) : option Shared :=
  a ← update_slot (encoder_packets s) p
       (fun e => c ← array_set (enc_clock_overflow e) i v;
                 Some (mkEncoderInfo (enc_header e) (enc_clock e) c (enc_state e)));
  Some (set_encoder_packets a s).

Definition set_state (p i v : Z) (s : Shared) : option Shared :=
  a ← update_slot (encoder_packets s) p
       (fun e => c ← array_set (enc_state e) i v;
                 Some (mkEncoderInfo (enc_header e) (enc_clock e) (enc_clock_overflow e) c));
  Some (set_encoder_packets a s).

(** Lines 66-77.  The stores to the configuration and compensation
    registers start the counter; only the store that clears the overflow
    flag acts on the timer state kept here. *)
Definition start (s : Shared) (t : IEP) : option (state * list pwrite) :=
  let s1 := set_encoder_ready 0 s in
  let s2 := set_clock_overflow 0 s1 in
  s3 ← set_header 0 ENCODER_HEADER s2;
  s4 ← set_header 1 ENCODER_HEADER s3;
  Some ((mkPru 0 0, s4, iep_write_sts 1 t),
        [W_ready Encoder 0; W_counter 0;
         W_slot Encoder 0 F_header 0 ENCODER_HEADER;
         W_slot Encoder 1 F_header 0 ENCODER_HEADER]).

(** Lines 82-85: account for a wrap of the timer. *)
Definition check_overflow (s : Shared) (t : IEP) : Shared * IEP * list pwrite :=
  if negb (Z.land (tmr_sts t) 1 =? 0)
  then let v := ulong (clock_overflow s + 1) in
       (set_clock_overflow v s, iep_write_sts 1 t, [W_counter v])
  else (s, t, []).

(** Lines 91-96: advance, and publish a full packet. *)
Definition advance (p : Pru) (s : Shared) : Pru * Shared * list pwrite :=
  let i := ulong (index p + 1) in
  if i =? ENCODER_COUNTER_SIZE
  then let r := ulong (packet p + 1) in
       (mkPru (Z.land (Z.lxor (packet p) 1) 1) 0, set_encoder_ready r s,
        [W_ready Encoder r])
  else (mkPru (packet p) i, s, []).

(** Lines 82-97: one pass of the sampling loop. *)
Definition iteration (inp : Input) (st : state) : option (state * list pwrite) :=
  let '(p, s, t) := st in
  let t1 := iep_run (d_check inp) t in
  let '(s1, t2, w1) := check_overflow s t1 in
  let t3 := iep_run (d_clock inp) t2 in
  let v_clock := tmr_cnt t3 in
  s2 ← set_clock (packet p) (index p) v_clock s1;
  let t4 := iep_run (d_overflow inp) t3 in
  let v_over := ulong (clock_overflow s2 + Z.land (tmr_sts t4) 1) in
  s3 ← set_clock_overflow_at (packet p) (index p) v_over s2;
  let v_state := Z.land (r31 inp) pru_mask in
  s4 ← set_state (packet p) (index p) v_state s3;
  let '(p', s5, w2) := advance p s4 in
  Some ((p', s5, iep_run DELAY_CYCLES t4),
        w1 ++ [W_slot Encoder (packet p) F_clock (index p) v_clock;
               W_slot Encoder (packet p) F_clock_overflow (index p) v_over;
               W_slot Encoder (packet p) F_state (index p) v_state] ++ w2).

(** Lines 81-98 while [*on] stays 0: one pass per input. *)
Fixpoint iterations (inps : list Input) (st : state) : option (state * list pwrite) :=
  match inps with
  | [] => Some (st, [])
  | inp :: rest =>
      match iteration inp st with
      | Some (st1, w1) =>
          match iterations rest st1 with
          | Some (st2, w2) => Some (st2, w1 ++ w2)
          | None => None
          end
      | None => None
      end
  end.

(** *** The producer, one statement at a time

    The host and the other producer run while this one is inside a pass.
    To let them act between any two of its statements the program is also
    given as a machine whose program counter names the statement to execute
    next. *)

Inductive line :=
| At_ready_0          (* 66 *)
| At_counter_0        (* 67 *)
| At_header_0         (* 69 *)
| At_header_1         (* 70 *)
| At_sts_1            (* 73 *)
| At_cfg              (* 75 *)
| At_compen           (* 77 *)
| At_while            (* 81 *)
| At_check            (* 82 *)
| At_count            (* 83 *)
| At_clear            (* 84 *)
| At_clock            (* 87 *)
| At_overflow         (* 88 *)
| At_state            (* 89 *)
| At_inc              (* 91 *)
| At_full             (* 92 *)
| At_reset            (* 93 *)
| At_publish          (* 94 *)
| At_flip             (* 95 *)
| At_delay            (* 97 *)
| At_r31              (* 100 *)
| At_halt.            (* 102 *)

#[global] Instance line_eq_dec : EqDecision line.
Proof. solve_decision. Defined.

Definition point : Type := line * state.

(** [packet] and [index] when the program is loaded. *)
Definition loaded : line * Pru := (At_ready_0, mkPru 0 0).

Definition jump (l : line) (p : Pru) (t : IEP) (w : list pwrite) (r : option Shared)
  : option (point * list pwrite) :=
  s ← r; Some ((l, (p, s, t)), w).

(** One statement; [r31_now] is what the input register holds.  The store
    of line 100 raises the event the host waits for; [__halt] stops the
    program for good. *)
Definition step (r31_now : Z) (cf : point) : option (point * list pwrite) :=
  let '(l, (p, s, t)) := cf in
  match l with
  | At_ready_0 =>
      Some ((At_counter_0, (p, set_encoder_ready 0 s, t)), [W_ready Encoder 0])
  | At_counter_0 =>
      Some ((At_header_0, (p, set_clock_overflow 0 s, t)), [W_counter 0])
  | At_header_0 =>
      jump At_header_1 p t [W_slot Encoder 0 F_header 0 ENCODER_HEADER]
           (set_header 0 ENCODER_HEADER s)
  | At_header_1 =>
      jump At_sts_1 p t [W_slot Encoder 1 F_header 0 ENCODER_HEADER]
           (set_header 1 ENCODER_HEADER s)
  | At_sts_1 => Some ((At_cfg, (p, s, iep_write_sts 1 t)), [])
  | At_cfg => Some ((At_compen, (p, s, t)), [])
  | At_compen => Some ((At_while, (p, s, t)), [])
  | At_while => Some ((if on s =? 0 then At_check else At_r31, (p, s, t)), [])
  | At_check =>
      Some ((if negb (Z.land (tmr_sts t) 1 =? 0) then At_count else At_clock, (p, s, t)), [])
  | At_count =>
      let v := ulong (clock_overflow s + 1) in
      Some ((At_clear, (p, set_clock_overflow v s, t)), [W_counter v])
  | At_clear => Some ((At_clock, (p, s, iep_write_sts 1 t)), [])
  | At_clock =>
      let v := tmr_cnt t in
      jump At_overflow p t [W_slot Encoder (packet p) F_clock (index p) v]
           (set_clock (packet p) (index p) v s)
  | At_overflow =>
      let v := ulong (clock_overflow s + Z.land (tmr_sts t) 1) in
      jump At_state p t [W_slot Encoder (packet p) F_clock_overflow (index p) v]
           (set_clock_overflow_at (packet p) (index p) v s)
  | At_state =>
      let v := Z.land r31_now pru_mask in
      jump At_inc p t [W_slot Encoder (packet p) F_state (index p) v]
           (set_state (packet p) (index p) v s)
  | At_inc => Some ((At_full, (mkPru (packet p) (ulong (index p + 1)), s, t)), [])
  | At_full =>
      Some ((if index p =? ENCODER_COUNTER_SIZE then At_reset else At_delay, (p, s, t)), [])
  | At_reset => Some ((At_publish, (mkPru (packet p) 0, s, t)), [])
  | At_publish =>
      let r := ulong (packet p + 1) in
      Some ((At_flip, (p, set_encoder_ready r s, t)), [W_ready Encoder r])
  | At_flip =>
      Some ((At_delay, (mkPru (Z.land (Z.lxor (packet p) 1) 1) (index p), s, t)), [])
  | At_delay => Some ((At_while, (p, s, iep_run DELAY_CYCLES t)), [])
  | At_r31 => Some ((At_halt, (p, s, t)), [])
  | At_halt => Some ((At_halt, (p, s, t)), [])
  end.

(** Statements in a row, with nobody else touching the shared RAM and the
    timer standing still, until the program counter is [target]. *)
Fixpoint run_to (n : nat) (target : line) (r31_now : Z) (cf : point)
  : option (point * list pwrite) :=
  if decide (fst cf = target) then Some (cf, [])
  else match n with
       | O => None
       | S n' =>
           '(cf1, w1) ← step r31_now cf;
           '(cf2, w2) ← run_to n' target r31_now cf1;
           Some (cf2, w1 ++ w2)
       end.

(** [d] cycles go by. *)
Definition tick (d : Z) (cf : point) : point :=
  let '(l, (p, s, t)) := cf in (l, (p, s, iep_run d t)).

(** The statements of one pass, from the loop test round to the loop test,
    with the timer advancing where [iteration] has it advance. *)
Definition pass (inp : Input) (cf : point) : option (point * list pwrite) :=
  '(cf1, w1) ← step (r31 inp) cf;
  '(cf2, w2) ← run_to 3 At_clock (r31 inp) (tick (d_check inp) cf1);
  '(cf3, w3) ← step (r31 inp) (tick (d_clock inp) cf2);
  '(cf4, w4) ← step (r31 inp) (tick (d_overflow inp) cf3);
  '(cf5, w5) ← run_to 8 At_while (r31 inp) cf4;
  Some (cf5, w1 ++ w2 ++ w3 ++ w4 ++ w5).

End GripperEncoder.

Module LimitSwitches.

Definition pru_mask : Z := 0x3F00.   (* (1<<8) | ... | (1<<13) *)

Definition DELAY_CYCLES : Z := 12000000.

(** The producer's own variable. *)
Record Pru := mkPru {
  packet : Z
}.

Definition state : Type := Pru * Shared * IEP.

Record Input := mkInput {
  r31_test : Z;       (* __R31 at line 70 *)
  d_clock : Z;        (* cycles before line 71 *)
  d_overflow : Z;     (* cycles between line 71 and line 72 *)
  r31_state : Z       (* __R31 at line 73 *)
}.

(** ~__R31 & pru_mask *)
Definition active (r : Z) : Z := Z.land (Z.lnot r) pru_mask.

Definition set_header (p : Z) (v : Z) (s : Shared) : option Shared :=
  a ← update_slot (limit_packets s) p
       (fun l => Some (mkLimitInfo v (lim_clock l) (lim_clock_overflow l) (lim_state l)));
  Some (set_limit_packets a s).

Definition set_clock (p v : Z) (s : Shared) : option Shared :=
  a ← update_slot (limit_packets s) p
       (fun l => Some (mkLimitInfo (lim_header l) v (lim_clock_overflow l) (lim_state l)));
  Some (set_limit_packets a s).

Definition set_clock_overflow_at (p v : Z) (s : Shared) : option Shared :=
  a ← update_slot (limit_packets s) p
       (fun l => Some (mkLimitInfo (lim_header l) (lim_clock l) v (lim_state l)));
  Some (set_limit_packets a s).

Definition set_state (p v : Z) (s : Shared) : option Shared :=
  a ← update_slot (limit_packets s) p
       (fun l => Some (mkLimitInfo (lim_header l) (lim_clock l) (lim_clock_overflow l) v));
  Some (set_limit_packets a s).

(** Lines 57-67. *)
Definition start (s : Shared) (t : IEP) : option (state * list pwrite) :=
  let s1 := set_limit_ready 0 s in
  s2 ← set_header 0 LIMIT_HEADER s1;
  s3 ← set_header 1 LIMIT_HEADER s2;
  Some ((mkPru 0, s3, iep_write_sts 1 t),
        [W_ready Limit 0;
         W_slot Limit 0 F_header 0 LIMIT_HEADER;
         W_slot Limit 1 F_header 0 LIMIT_HEADER]).

(** Lines 70-78: one pass of the polling loop. *)
Definition iteration (inp : Input) (st : state) : option (state * list pwrite) :=
  let '(p, s, t) := st in
  if negb (active (r31_test inp) =? 0)
  then
    let t1 := iep_run (d_clock inp) t in
    let v_clock := tmr_cnt t1 in
    s1 ← set_clock (packet p) v_clock s;
    let t2 := iep_run (d_overflow inp) t1 in
    let v_over := ulong (clock_overflow s1 + Z.land (tmr_sts t2) 1) in
    s2 ← set_clock_overflow_at (packet p) v_over s1;
    let v_state := active (r31_state inp) in
    s3 ← set_state (packet p) v_state s2;
    let r := ulong (packet p + 1) in
    Some ((mkPru (Z.land (Z.lxor (packet p) 1) 1), set_limit_ready r s3,
           iep_run DELAY_CYCLES t2),
          [W_slot Limit (packet p) F_clock 0 v_clock;
           W_slot Limit (packet p) F_clock_overflow 0 v_over;
           W_slot Limit (packet p) F_state 0 v_state;
           W_ready Limit r])
  else Some (st, []).

Fixpoint iterations (inps : list Input) (st : state) : option (state * list pwrite) :=
  match inps with
  | [] => Some (st, [])
  | inp :: rest =>
      match iteration inp st with
      | Some (st1, w1) =>
          match iterations rest st1 with
          | Some (st2, w2) => Some (st2, w1 ++ w2)
          | None => None
          end
      | None => None
      end
  end.

(** *** The producer, one statement at a time *)

Inductive line :=
| At_ready_0          (* 57 *)
| At_header_0         (* 59 *)
| At_header_1         (* 60 *)
| At_sts_1            (* 63 *)
| At_cfg              (* 65 *)
| At_compen           (* 67 *)
| At_while            (* 69 *)
| At_test             (* 70 *)
| At_clock            (* 71 *)
| At_overflow         (* 72 *)
| At_state            (* 73 *)
| At_publish          (* 75 *)
| At_flip             (* 76 *)
| At_delay            (* 77 *)
| At_r31              (* 82 *)
| At_halt.            (* 84 *)

#[global] Instance line_eq_dec : EqDecision line.
Proof. solve_decision. Defined.

Definition point : Type := line * state.

(** [packet] when the program is loaded. *)
Definition loaded : line * Pru := (At_ready_0, mkPru 0).

Definition jump (l : line) (p : Pru) (t : IEP) (w : list pwrite) (r : option Shared)
  : option (point * list pwrite) :=
  s ← r; Some ((l, (p, s, t)), w).

(** One statement; [r31_now] is what the input register holds. *)
Definition step (r31_now : Z) (cf : point) : option (point * list pwrite) :=
  let '(l, (p, s, t)) := cf in
  match l with
  | At_ready_0 => Some ((At_header_0, (p, set_limit_ready 0 s, t)), [W_ready Limit 0])
  | At_header_0 =>
      jump At_header_1 p t [W_slot Limit 0 F_header 0 LIMIT_HEADER]
           (set_header 0 LIMIT_HEADER s)
  | At_header_1 =>
      jump At_sts_1 p t [W_slot Limit 1 F_header 0 LIMIT_HEADER]
           (set_header 1 LIMIT_HEADER s)
  | At_sts_1 => Some ((At_cfg, (p, s, iep_write_sts 1 t)), [])
  | At_cfg => Some ((At_compen, (p, s, t)), [])
  | At_compen => Some ((At_while, (p, s, t)), [])
  | At_while => Some ((if on s =? 0 then At_test else At_r31, (p, s, t)), [])
  | At_test =>
      Some ((if negb (active r31_now =? 0) then At_clock else At_while, (p, s, t)), [])
  | At_clock =>
      let v := tmr_cnt t in
      jump At_overflow p t [W_slot Limit (packet p) F_clock 0 v] (set_clock (packet p) v s)
  | At_overflow =>
      let v := ulong (clock_overflow s + Z.land (tmr_sts t) 1) in
      jump At_state p t [W_slot Limit (packet p) F_clock_overflow 0 v]
           (set_clock_overflow_at (packet p) v s)
  | At_state =>
      let v := active r31_now in
      jump At_publish p t [W_slot Limit (packet p) F_state 0 v] (set_state (packet p) v s)
  | At_publish =>
      let r := ulong (packet p + 1) in
      Some ((At_flip, (p, set_limit_ready r s, t)), [W_ready Limit r])
  | At_flip => Some ((At_delay, (mkPru (Z.land (Z.lxor (packet p) 1) 1), s, t)), [])
  | At_delay => Some ((At_while, (p, s, iep_run DELAY_CYCLES t)), [])
  | At_r31 => Some ((At_halt, (p, s, t)), [])
  | At_halt => Some ((At_halt, (p, s, t)), [])
  end.

(** [d] cycles go by. *)
Definition tick (d : Z) (cf : point) : point :=
  let '(l, (p, s, t)) := cf in (l, (p, s, iep_run d t)).

(** The statements of one pass, with the timer advancing where [iteration]
    has it advance and the input register read as [iteration] reads it. *)
Definition pass (inp : Input) (cf : point) : option (point * list pwrite) :=
  '(cf1, w1) ← step (r31_test inp) cf;
  '(cf2, w2) ← step (r31_test inp) cf1;
  if decide (fst cf2 = At_while) then Some (cf2, w1 ++ w2)
  else
    '(cf3, w3) ← step (r31_state inp) (tick (d_clock inp) cf2);
    '(cf4, w4) ← step (r31_state inp) (tick (d_overflow inp) cf3);
    '(cf5, w5) ← step (r31_state inp) cf4;
    '(cf6, w6) ← step (r31_state inp) cf5;
    '(cf7, w7) ← step (r31_state inp) cf6;
    '(cf8, w8) ← step (r31_state inp) cf7;
    Some (cf8, w1 ++ w2 ++ w3 ++ w4 ++ w5 ++ w6 ++ w7 ++ w8).

End LimitSwitches.

(** The values a producer wrote to the ready flag of [c], oldest first. *)
Fixpoint ready_writes (c : channel) (w : list pwrite) : list Z :=
  match w with
  | [] => []
  | W_ready c' v :: w' =>
      if decide (c' = c) then v :: ready_writes c w' else ready_writes c w'
  | _ :: w' => ready_writes c w'
  end.

(** 1, 2, 1, 2, ... : slot 0, slot 1, slot 0, ... starting with slot [p]. *)
Fixpoint alternating (p : Z) (n : nat) : list Z :=
  match n with
  | O => []
  | S n' => (p + 1) :: alternating (1 - p) n'
  end.

(** ** The claims, as the specification words them *)

(** "zero-initializes all fields of the Shared Telemetry Region: the
    run/stop flag, the overflow counter, both ready indices and the error
    ready index, and both buffer slots of every channel's double buffer" *)
Definition all_fields_zeroed (s : Shared) : Prop :=
  on s = 0 /\ clock_overflow s = 0 /\
  encoder_ready s = 0 /\ limit_ready s = 0 /\ error_ready s = 0 /\
  encoder_packets s = [zero_EncoderInfo; zero_EncoderInfo] /\
  limit_packets s = [zero_LimitInfo; zero_LimitInfo] /\
  error_packets s = [zero_ErrorInfo; zero_ErrorInfo].

(** "program name, primary producer image, optional secondary data file,
    secondary producer image, optional secondary data file": the program
    name, the two images, and none, one or both of the data files. *)
Definition arity_in_positional_set (argc : Z) : Prop :=
  argc = 3 \/ argc = 4 \/ argc = 5.

(** A shared RAM that holds leftovers of an earlier run. *)
Definition leftover_shared : Shared :=
  mkShared 1 7 2
    [mkEncoderInfo ENCODER_HEADER [1] [2] [3]; mkEncoderInfo ENCODER_HEADER [4] [5] [6]]
    1 [mkLimitInfo LIMIT_HEADER 10 0 256; mkLimitInfo LIMIT_HEADER 20 0 512]
    2 [mkErrorInfo 0xE12A 1; mkErrorInfo 0xE12A 2].

(** The payloads one call site handed to [sendto], oldest first. *)
Fixpoint sent (k : sender) (out : list event) : list (list Z) :=
  match out with
  | [] => []
  | Sendto k' b :: out' => if decide (k' = k) then b :: sent k out' else sent k out'
  | _ :: out' => sent k out'
  end.

(** The times printed with the timeout packets, oldest first. *)
Fixpoint timeout_times (out : list event) : list Z :=
  match out with
  | [] => []
  | Print_sending_timeout t :: out' => t :: timeout_times out'
  | _ :: out' => timeout_times out'
  end.


(** The state between two iterations: the send arrays and the slot pairs
    are in place, no batch is partly filled, and every ready flag holds 0,
    1 or 2. *)
Definition loop_head (h : Host) (s : Shared) : Prop :=
  host_sized h /\ two_slots s /\
  (forall c, fill_index c h = 0) /\ (forall c, 0 <= ready c s <= 2).

(** The environment keeps the layout and the range of the ready flags. *)
Definition env_ok (env : Shared -> Shared) : Prop :=
  forall s, two_slots s -> (forall c, 0 <= ready c s <= 2) ->
            two_slots (env s) /\ (forall c, 0 <= ready c (env s) <= 2).

(** An iteration that reads [clk] from the clock sends the timeout packet:
    it drains no encoder packet and the staleness clock is overdue. *)
Definition stale (CLOCKS_PER_SEC clk : Z) (h : Host) (s : Shared) : bool :=
  (encoder_ready s =? 0) && overdue CLOCKS_PER_SEC clk (encoder_time h).

(** The packet a channel's ready flag points the host to. *)
Definition ready_bytes (c : channel) (s : Shared) : option (list Z) :=
  match c with
  | Encoder => EncoderInfo_bytes <$> array_get (encoder_packets s) (ready c s - 1)
  | Limit => LimitInfo_bytes <$> array_get (limit_packets s) (ready c s - 1)
  | Error => ErrorInfo_bytes <$> array_get (error_packets s) (ready c s - 1)
  end.

(** The number of channels an iteration that starts in [s] drains. *)
Definition drained (c : channel) (s : Shared) : bool := negb (ready c s =? 0).

(** The bytes of the timeout packet the host would send from [h]. *)
Definition timeout_bytes (h : Host) : list (list Z) :=
  match timeout_packet h with
  | t :: _ => [TimeoutInfo_bytes (mkTimeoutInfo (tmo_header t) ENCODER_TIMEOUT_FLAG)]
  | [] => []
  end.


Definition envs_ok (sched : list ((Shared -> Shared) * Z)) : Prop :=
  Forall (fun x => env_ok (fst x)) sched.


(** The host 0.000648 s of processor time before its clock wraps, the
    staleness clock just set. *)
Definition host_before_wrap : Host :=
  set_encoder_time 2147483000 (host_at_loop_entry 2147483000).

(** The host variables, the shared RAM and the output a run ended with. *)
Definition ended_with (o : outcome) (h : Host) (s : Shared) (out : list event) : Prop :=
  o = Exited h s out \/ o = Running h s out.

(** A state between two iterations with slot 1 of the encoder published. *)
Definition sample_packet (v : Z) : EncoderInfo :=
  mkEncoderInfo ENCODER_HEADER (replicate 120 v) (replicate 120 0) (replicate 120 (v + 1)).

Definition sample_shared : Shared :=
  mkShared 0 0 2 [sample_packet 5; sample_packet 9]
           0 [zero_LimitInfo; zero_LimitInfo] 0 [zero_ErrorInfo; zero_ErrorInfo].

(** A shared RAM in which no producer has published anything. *)
Definition idle_shared : Shared :=
  mkShared 0 0 0 [sample_packet 5; sample_packet 9]
           0 [zero_LimitInfo; zero_LimitInfo] 0 [zero_ErrorInfo; zero_ErrorInfo].

(** The producers publish an encoder packet in slot 0. *)
Definition publish_encoder_0 (s : Shared) : Shared := set_encoder_ready 1 s.

(** The run flag is raised. *)
Definition raise_on (s : Shared) : Shared := set_on 1 s.

(** The encoder publishes slot 0 and the host goes from the loop test to
    the copy, and from there through the count and the reset. *)
Definition trace_to_copy : list label :=
  [L_publish Encoder; L_host P_while; L_host P_time; L_host (P_test Encoder);
   L_host (P_offset Encoder)].

Definition trace_of_drain : list label :=
  trace_to_copy ++ [L_host (P_copy Encoder); L_host (P_inc Encoder); L_host (P_ack Encoder)].

Definition host_at_copy : Host := set_offset 0 (host_at_loop_entry 0).

Definition host_after_drain : Host :=
  set_encoder_index 1 (set_encoder_to_send [sample_packet 5] host_at_copy).

(** "under the precondition that each ready_index only ever holds a value
    in {0, 1, 2}": whatever the others store, and whenever, every ready
    flag holds 0, 1 or 2 and the arrays stay in place. *)
Definition in_range_step (s s' : Shared) : Prop :=
  same_layout s s' /\ forall c, 0 <= ready c s' <= 2.

Inductive range_run (CLOCKS_PER_SEC : Z) : config -> config -> Prop :=
| Range_nil cf : range_run CLOCKS_PER_SEC cf cf
| Range_host cf0 clk p h s cf' e :
    range_run CLOCKS_PER_SEC cf0 (p, h, s) ->
    host_step CLOCKS_PER_SEC clk (p, h, s) = Some (cf', e) ->
    range_run CLOCKS_PER_SEC cf0 cf'
| Range_env cf0 p h s s' :
    range_run CLOCKS_PER_SEC cf0 (p, h, s) ->
    in_range_step s s' ->
    range_run CLOCKS_PER_SEC cf0 (p, h, s').

(** "every shared-buffer access performed by the Acquisition Loop is
    within bounds": the next statement of the host executes. *)
Definition in_bounds_given_range (CLOCKS_PER_SEC : Z) : Prop :=
  forall cf0 cf,
    loop_entry cf0 -> range_run CLOCKS_PER_SEC cf0 cf ->
    forall clk, exists cf' e, host_step CLOCKS_PER_SEC clk cf = Some (cf', e).

(** The host with the offset it takes from a flag that reads 0. *)
Definition host_off_the_end : Host := set_offset (ULONG_MAX1 - 1) (host_at_loop_entry 0).

(** From [s] to [s'] nothing changed in the shared RAM except that ready
    flags may have been set to 0. *)
Definition only_flags_cleared (s s' : Shared) : Prop :=
  on s' = on s /\
  clock_overflow s' = clock_overflow s /\
  encoder_packets s' = encoder_packets s /\
  limit_packets s' = limit_packets s /\
  error_packets s' = error_packets s /\
  (forall c, ready c s' = ready c s \/ ready c s' = 0).

(** A statement that writes nothing else to the shared RAM. *)
Definition clears_only_flags (c : stmt) : Prop :=
  forall h s h' s' e, c h s = Some (h', s', e) -> only_flags_cleared s s'.

(** A statement that leaves the shared RAM alone. *)
Definition keeps_shared (c : stmt) : Prop :=
  forall h s h' s' e, c h s = Some (h', s', e) -> s' = s.

(** *** Where the host is in the hand-off of a channel *)

(** The statements after the copy of [c] and up to its acknowledgment. *)
Definition after_copy (c : channel) (p : pc) : bool :=
  match p with
  | P_print => bool_decide (c = Limit)
  | P_inc c' | P_ack c' => bool_decide (c' = c)
  | _ => false
  end.

(** The statements of the drain block of [c] behind its test. *)
Definition in_drain (c : channel) (p : pc) : bool :=
  match p with
  | P_offset c' | P_copy c' => bool_decide (c' = c)
  | _ => after_copy c p
  end.

(** The observer's state agrees with the ready flag and the program
    counter. *)
Definition handoff_inv (c : channel) (m : handoff) (p : pc) (s : Shared) : Prop :=
  match m with
  | Idle => ready c s = 0 /\ in_drain c p = false
  | Pending => ready c s <> 0 /\ after_copy c p = false
  | Copied => p = P_inc c \/ (c = Limit /\ p = P_print)
  | Counted => p = P_ack c
  end.

(** *** Staying inside the arrays *)

(** The position of a statement in the loop body. *)
Definition rank (p : pc) : nat :=
  match p with
  | P_while => 0
  | P_time => 1
  | P_test Encoder => 2
  | P_offset Encoder => 3
  | P_copy Encoder => 4
  | P_inc Encoder => 5
  | P_ack Encoder => 6
  | P_stamp => 7
  | P_test Limit => 8
  | P_offset Limit => 9
  | P_copy Limit => 10
  | P_print => 11
  | P_inc Limit => 12
  | P_ack Limit => 13
  | P_test Error => 14
  | P_offset Error => 15
  | P_copy Error => 16
  | P_inc Error => 17
  | P_ack Error => 18
  | P_full Encoder => 19
  | P_announce Encoder => 20
  | P_sendto Encoder => 21
  | P_clear Encoder => 22
  | P_full Limit => 23
  | P_announce Limit => 24
  | P_sendto Limit => 25
  | P_clear Limit => 26
  | P_full Error => 27
  | P_announce Error => 28
  | P_sendto Error => 29
  | P_clear Error => 30
  | P_tmo_test => 31
  | P_tmo_announce => 32
  | P_tmo_type => 33
  | P_tmo_sendto => 34
  | P_tmo_stamp => 35
  | P_done => 36
  end%nat.

(** The fill count of [c] is 0, or it is 1 and the host is between the
    increment and the reset of that count. *)
Definition batch_ok (c : channel) (p : pc) (i : Z) : Prop :=
  i = 0 \/ (i = 1 /\ (rank (P_inc c) < rank p <= rank (P_clear c))%nat).

(** What the next statement needs of [offset] and of the ready flag. *)
Definition access_ok (p : pc) (h : Host) (s : Shared) : Prop :=
  match p with
  | P_offset c => ready c s <> 0
  | P_copy _ | P_print => 0 <= offset h <= 1
  | _ => True
  end.

Definition safe_inv (cf : config) : Prop :=
  let '(p, h, s) := cf in
  host_sized h /\ two_slots s /\
  (forall c, 0 <= ready c s <= 2) /\
  (forall c, batch_ok c p (fill_index c h)) /\
  access_ok p h s.

(** The number of statements of the iteration that starts from [h], [s]. *)
Definition steps_of_iteration (CLOCKS_PER_SEC clk : Z) (h : Host) (s : Shared) : nat :=
  let n (b : bool) (idle busy : nat) : nat := if b then idle else busy in
  let idle (c : channel) : bool := ready c s =? 0 in
  (1 + n (idle Encoder) 1 6 + n (idle Limit) 1 6 + n (idle Error) 1 5
     + n (idle Encoder) 1 4 + n (idle Limit) 1 4 + n (idle Error) 1 4
     + n (stale CLOCKS_PER_SEC clk h s) 5 1)%nat.

(** ** Reading a producer's stores *)

(** The (index, value) pairs a producer stored in member [f] of slot
    [slot] of channel [c], oldest first. *)
Fixpoint written (c : channel) (slot : Z) (f : field) (w : list pwrite) : list (Z * Z) :=
  match w with
  | [] => []
  | W_slot c' slot' f' i v :: w' =>
      if decide (c' = c /\ slot' = slot /\ f' = f)
      then (i, v) :: written c slot f w'
      else written c slot f w'
  | _ :: w' => written c slot f w'
  end.

(** The values stored in the overflow counter, oldest first. *)
Fixpoint counter_writes (w : list pwrite) : list Z :=
  match w with
  | [] => []
  | W_counter v :: w' => v :: counter_writes w'
  | _ :: w' => counter_writes w'
  end.

(** The encoder producer is inside its arrays: [packet] is 0 or 1,
    [index] is below 120, and both slots have their 120 entries. *)
Definition encoder_ok (st : GripperEncoder.state) : Prop :=
  let '(p, s, t) := st in
  0 <= GripperEncoder.packet p <= 1 /\
  0 <= GripperEncoder.index p < ENCODER_COUNTER_SIZE /\
  two_slots s /\
  Forall EncoderInfo_sized (encoder_packets s).

(** The limit producer is inside its array. *)
Definition limit_ok (st : LimitSwitches.state) : Prop :=
  let '(p, s, t) := st in
  0 <= LimitSwitches.packet p <= 1 /\ two_slots s.

(** The timer registers hold 32-bit values. *)
Definition iep_ok (t : IEP) : Prop :=
  0 <= tmr_cnt t < ULONG_MAX1.

(** The number of passes of the limit loop that see a switch closed. *)
Fixpoint active_passes (inps : list LimitSwitches.Input) : nat :=
  match inps with
  | [] => 0
  | inp :: rest =>
      (if LimitSwitches.active (LimitSwitches.r31_test inp) =? 0 then 0 else 1)
      + active_passes rest
  end.

(** An encoder packet with sample [i] stored. *)
Definition sample_into (e : EncoderInfo) (i vc vo vs : Z) : EncoderInfo :=
  mkEncoderInfo (enc_header e)
    (<[Z.to_nat i := vc]> (enc_clock e))
    (<[Z.to_nat i := vo]> (enc_clock_overflow e))
    (<[Z.to_nat i := vs]> (enc_state e)).

(** The array of an encoder packet a member names. *)
Definition member (f : field) (e : EncoderInfo) : list Z :=
  match f with
  | F_header => [enc_header e]
  | F_clock => enc_clock e
  | F_clock_overflow => enc_clock_overflow e
  | F_state => enc_state e
  end.

(** The pass of the encoder loop that starts from [p] completes a packet. *)
Definition completing (p : GripperEncoder.Pru) : bool :=
  GripperEncoder.index p + 1 =? ENCODER_COUNTER_SIZE.

(** Every slot of the channel carries the header of its packet kind. *)
Definition encoder_headers (s : Shared) : Prop :=
  forall j e, array_get (encoder_packets s) j = Some e -> enc_header e = ENCODER_HEADER.

Definition limit_headers (s : Shared) : Prop :=
  forall j l, array_get (limit_packets s) j = Some l -> lim_header l = LIMIT_HEADER.

(** One pass of the limit loop with the switch on pin 8 closed. *)
Definition switch_closed : LimitSwitches.Input :=
  LimitSwitches.mkInput 0x3E00 5 5 0x3E00.

(** The timer at rest, its overflow flag clear. *)
Definition iep_reset : IEP := mkIEP 0 0.

(** "Each producer increments the shared overflow_counter itself whenever
    it observes the hardware free-running clock wrap": a pass that reads
    the overflow flag as 1 leaves the counter one higher. *)
Definition limit_counts_wrap (inp : LimitSwitches.Input) (st : LimitSwitches.state) : Prop :=
  forall st' w,
    LimitSwitches.iteration inp st = Some (st', w) ->
    LimitSwitches.active (LimitSwitches.r31_test inp) <> 0 ->
    Z.land (tmr_sts (snd st)) 1 = 1 ->
    clock_overflow (snd (fst st')) = ulong (clock_overflow (snd (fst st)) + 1).

(** The timer with the overflow flag up after a wrap. *)
Definition iep_wrapped : IEP := mkIEP 100 1.

(** The timer ten cycles before it wraps. *)
Definition iep_near_wrap : IEP := mkIEP (ULONG_MAX1 - 10) 0.

(** A pass of the encoder loop that takes one cycle between its accesses
    to the timer. *)
Definition quick_pass : GripperEncoder.Input := GripperEncoder.mkInput 1 1 1 0x15.

(** A publication the host has not copied yet. *)
Definition waiting (m : handoff) : nat :=
  match m with Pending => 1 | _ => 0 end.

(** ** The whole of [main] of the host

    The calls into the PRU driver and the socket library are seen through
    what they return; the program only tests those values. *)

Record Calls := mkCalls {
  prussdrv_open : Z;                  (* line 118 *)
  prussdrv_load_datafile : Z -> Z;    (* lines 148 and 161, by PRU number *)
  prussdrv_exec_program : Z -> Z;     (* lines 154 and 167, by PRU number *)
  socket : Z;                         (* line 172 *)
  tos_read : Z;                       (* what getsockopt stores, line 181 *)
  clock_at_entry : Z                  (* clock(), line 190 *)
}.

(** What [main] does to the outside world before the loop, besides the
    events of the loop itself. *)
Inductive action :=
| A_event (e : event)
| A_prussdrv_init
| A_prussdrv_open
| A_pruintc_init
| A_map_prumem                                (* init_prumem() *)
| A_printf (line : string)
| A_load_datafile (pru : Z) (file : string)
| A_exec_program (pru : Z) (file : string)
| A_error_loading (file : string)             (* fprintf(stderr, "Error loading %s\n", file) *)
| A_socket
| A_perror (msg : string)
| A_setsockopt_tos (v : Z)
| A_getsockopt_tos
| A_printf_tos (v : Z)
| A_printf_precedence (v : Z)
| A_printf_tos_field (v : Z).

#[global] Instance action_inhabited : Inhabited action := populate A_socket.

(** How the program ends: by [return] from [main], by [exit(status)] or
    by [exit(EXIT_FAILURE)]. *)
Inductive ending :=
| E_return (status : Z)
| E_exit (status : Z)
| E_exit_failure.

(** A stretch of [main]: it did something and goes on with a value, it did
    something and ended the program, or it read outside [argv] or outside
    an array. *)
Definition part (A : Type) : Type := option (list action * (ending + A)).

Definition go_on {A} (x : A) : part A := Some ([], inr x).

Definition act (a : list action) : part unit := Some (a, inr tt).

Definition stop {A} (e : ending) : part A := Some ([], inl e).

Definition and_then {A B} (m : part A) (k : A -> part B) : part B :=
  match m with
  | None => None
  | Some (a, inl e) => Some (a, inl e)
  | Some (a, inr x) =>
      match k x with
      | None => None
      | Some (b, r) => Some (a ++ b, r)
      end
  end.

#[global] Instance part_bind : MBind part := fun A B k m => and_then m k.

(** argv[i] *)
Definition argv_at (argv : list string) (i : Z) : part string :=
  match array_get argv i with
  | Some a => go_on a
  | None => None
  end.

(** int tos_write = 0b10100100; *)
Definition tos_write : Z := 164.

(** Lines 148-151 and 161-164: load the data file argv[file] into a PRU;
    on failure the message names argv[named]. *)
Definition load_datafile (k : Calls) (argv : list string) (pru file named : Z)
  : part unit :=
  f ← argv_at argv file;
  act [A_load_datafile pru f];;
  if prussdrv_load_datafile k pru <? 0
  then n ← argv_at argv named; act [A_error_loading n];; stop (E_exit (-1))
  else go_on tt.

(** Lines 154-157 and 167-170: start the image argv[file] on a PRU. *)
Definition exec_program (k : Calls) (argv : list string) (pru file named : Z)
  : part unit :=
  f ← argv_at argv file;
  act [A_exec_program pru f];;
  if prussdrv_exec_program k pru <? 0
  then n ← argv_at argv named; act [A_error_loading n];; stop (E_exit (-1))
  else go_on tt.

(** Lines 109-192.  [argc] is the length of [argv].  The set-up of
    [servaddr] touches nothing the program tests and is left out.  The
    producers run from lines 154 and 167 on: [producers] is what they have
    stored in the shared RAM when the host reaches the loop; the host
    itself does not touch the shared RAM between lines 144 and 193. *)
Definition startup (argv : list string) (k : Calls) (producers : Shared -> Shared)
    (s : Shared) : part (Host * Shared) :=
  let argc := Z.of_nat (length argv) in
  a0 ← argv_at argv 0;
  act (map A_event (fst (check_arguments argc a0)));;
  match snd (check_arguments argc a0) with
  | Some status => stop (E_return status)
  | None => go_on tt
  end;;
  act [A_prussdrv_init; A_prussdrv_open];;
  (if prussdrv_open k =? -1
   then act [A_printf "prussdrv_open() failed"];; stop (E_return 1)
   else go_on tt);;
  act [A_pruintc_init];;
  act (replicate 8 A_map_prumem);;
  s1 ← (match init_shared s with Some s1 => go_on s1 | None => None end);
  act [A_printf "Initializing PRU0"];;
  (if argc >? 2 then load_datafile k argv 0 2 2 else go_on tt);;
  exec_program k argv 0 1 1;;
  act [A_printf "Initializing PRU1"];;
  (if argc =? 5 then load_datafile k argv 1 4 2 else go_on tt);;
  exec_program k argv 1 3 1;;
  act [A_socket];;
  (if socket k <? 0
   then act [A_perror "socket creation failed"];; stop E_exit_failure
   else go_on tt);;
  act [A_setsockopt_tos tos_write; A_getsockopt_tos;
       A_printf_tos (tos_read k);
       A_printf_precedence (Z.land (Z.shiftr (tos_read k) 5) 0x7);
       A_printf_tos_field (Z.land (Z.shiftr (tos_read k) 1) 0xF)];;
  act [A_printf "Initializing DAQ"];;
  go_on (host_at_loop_entry (clock_at_entry k), producers s1).

(** How a run of [main] stands when the schedule of the loop is used up. *)
Inductive run_result :=
| Ended (acts : list action) (e : ending)
| Unfinished (acts : list action)
| Undefined.

(** Lines 108-257.  [last] is what the others do to the shared RAM between
    the loop test that ends the loop and the test of line 248. *)
Definition main (CLOCKS_PER_SEC : Z) (argv : list string) (k : Calls)
    (producers : Shared -> Shared) (s : Shared)
    (sched : list ((Shared -> Shared) * Z)) (last : Shared -> Shared) : run_result :=
  match startup argv k producers s with
  | None => Undefined
  | Some (a, inl e) => Ended a e
  | Some (a, inr (h, s1)) =>
      match acquisition_loop CLOCKS_PER_SEC sched h s1 with
      | Exited h' s' out =>
          Ended (a ++ map A_event out ++ map A_event (teardown (on (last s'))))
                (E_return 0)
      | Running _ _ out => Unfinished (a ++ map A_event out)
      | Fault => Undefined
      end
  end.

(** ** Where the objects of the shared RAM lie *)

(** The offsets the host adds to the mapped base (lines 36-43). *)
Definition ON_OFFSET : Z := 0x0000.
Definition OVERFLOW_OFFSET : Z := 0x0008.
Definition ENCODER_READY_OFFSET : Z := 0x0010.
Definition ENCODER_OFFSET : Z := 0x0018.
Definition LIMIT_READY_OFFSET : Z := 0x1850.
Definition LIMIT_OFFSET : Z := 0x1858.
Definition ERROR_READY_OFFSET : Z := 0x2000.
Definition ERROR_OFFSET : Z := 0x2008.

(** The addresses the producers use (GripperEncoder.c lines 5-13,
    LimitSwitches.c lines 6-12). *)
Definition ON_ADDRESS : Z := 0x00010000.
Definition OVERFLOW_ADDRESS : Z := 0x00010008.
Definition ENCODER_READY_ADDRESS : Z := 0x00010010.
Definition ENCODER_ADDRESS : Z := 0x00010018.
Definition LIMIT_READY_ADDRESS : Z := 0x00011850.
Definition LIMIT_ADDRESS : Z := 0x00011858.

Inductive object :=
| O_on | O_clock_overflow
| O_encoder_ready | O_encoder_packets
| O_limit_ready | O_limit_packets
| O_error_ready | O_error_packets.

#[global] Instance object_eq_dec : EqDecision object.
Proof. solve_decision. Defined.

Definition OFFSET (o : object) : Z :=
  match o with
  | O_on => ON_OFFSET
  | O_clock_overflow => OVERFLOW_OFFSET
  | O_encoder_ready => ENCODER_READY_OFFSET
  | O_encoder_packets => ENCODER_OFFSET
  | O_limit_ready => LIMIT_READY_OFFSET
  | O_limit_packets => LIMIT_OFFSET
  | O_error_ready => ERROR_READY_OFFSET
  | O_error_packets => ERROR_OFFSET
  end.

(** The address a producer has for an object; the error channel is in none
    of the two producers. *)
Definition ADDRESS (o : object) : option Z :=
  match o with
  | O_on => Some ON_ADDRESS
  | O_clock_overflow => Some OVERFLOW_ADDRESS
  | O_encoder_ready => Some ENCODER_READY_ADDRESS
  | O_encoder_packets => Some ENCODER_ADDRESS
  | O_limit_ready => Some LIMIT_READY_ADDRESS
  | O_limit_packets => Some LIMIT_ADDRESS
  | O_error_ready | O_error_packets => None
  end.

(** sizeof(int32_t), and sizeof(unsigned long) on the PRU and on the ARM
    host. *)
Definition SIZEOF_INT32 : Z := 4.
Definition SIZEOF_ULONG : Z := 4.

(** init_prumem() + (X_OFFSET / READOUT_BYTES), as a byte address: the sum
    is taken on a pointer to [int32_t] and advances four bytes per unit.
    [p] is the address [prussdrv_map_prumem] stored. *)
Definition host_pointer (p : Z) (o : object) : Z :=
  p + SIZEOF_INT32 * (Z.quot (OFFSET o) READOUT_BYTES).

Definition sizeof_EncoderInfo : Z := SIZEOF_ULONG * (1 + 3 * ENCODER_COUNTER_SIZE).
Definition sizeof_LimitInfo : Z := SIZEOF_ULONG * 4.
Definition sizeof_ErrorInfo : Z := SIZEOF_ULONG * 2.

(** The bytes an object takes: a word, or a pair of packet slots. *)
Definition extent (o : object) : Z :=
  match o with
  | O_encoder_packets => 2 * sizeof_EncoderInfo
  | O_limit_packets => 2 * sizeof_LimitInfo
  | O_error_packets => 2 * sizeof_ErrorInfo
  | _ => SIZEOF_ULONG
  end.

(** The byte at [a] belongs to object [o]. *)
Definition inside (p : Z) (o : object) (a : Z) : Prop :=
  host_pointer p o <= a < host_pointer p o + extent o.

(** *** The shared RAM as bytes *)

Definition memory : Type := Z -> Z.

(** memset(a, v, n) *)
Definition memset (a v n : Z) (m : memory) : memory := fun x =>
  if (a <=? x) && (x <? a + n) then v else m x.

(** *(unsigned long * )a = v, little-endian *)
Definition store_ulong (a v : Z) (m : memory) : memory := fun x =>
  if (a <=? x) && (x <? a + SIZEOF_ULONG)
  then Z.land (Z.shiftr v (8 * (x - a))) 255
  else m x.

(** *(unsigned long * )a *)
Definition load_ulong (a : Z) (m : memory) : Z :=
  m a + 2 ^ 8 * m (a + 1) + 2 ^ 16 * m (a + 2) + 2 ^ 24 * m (a + 3).

(** The [n] words from address [a] on. *)
Definition load_ulongs (a n : Z) (m : memory) : list Z :=
  map (fun i => load_ulong (a + SIZEOF_ULONG * i) m) (seqZ 0 n).

Definition load_EncoderInfo (a : Z) (m : memory) : EncoderInfo :=
  let n := ENCODER_COUNTER_SIZE in
  mkEncoderInfo (load_ulong a m)
    (load_ulongs (a + SIZEOF_ULONG) n m)
    (load_ulongs (a + SIZEOF_ULONG * (1 + ENCODER_COUNTER_SIZE)) n m)
    (load_ulongs (a + SIZEOF_ULONG * (1 + 2 * ENCODER_COUNTER_SIZE)) n m).

Definition load_LimitInfo (a : Z) (m : memory) : LimitInfo :=
  mkLimitInfo (load_ulong a m) (load_ulong (a + 4) m)
              (load_ulong (a + 8) m) (load_ulong (a + 12) m).

Definition load_ErrorInfo (a : Z) (m : memory) : ErrorInfo :=
  mkErrorInfo (load_ulong a m) (load_ulong (a + 4) m).

(** What the eight pointers of the host show of the memory. *)
Definition shared_of (p : Z) (m : memory) : Shared :=
  let ptr := host_pointer p in
  mkShared (load_ulong (ptr O_on) m)
           (load_ulong (ptr O_clock_overflow) m)
           (load_ulong (ptr O_encoder_ready) m)
           [load_EncoderInfo (ptr O_encoder_packets) m;
            load_EncoderInfo (ptr O_encoder_packets + sizeof_EncoderInfo) m]
           (load_ulong (ptr O_limit_ready) m)
           [load_LimitInfo (ptr O_limit_packets) m;
            load_LimitInfo (ptr O_limit_packets + sizeof_LimitInfo) m]
           (load_ulong (ptr O_error_ready) m)
           [load_ErrorInfo (ptr O_error_packets) m;
            load_ErrorInfo (ptr O_error_packets + sizeof_ErrorInfo) m].

(** Lines 135-144 on the bytes. *)
Definition init_memory (p : Z) (m : memory) : memory :=
  let ptr := host_pointer p in
  let m1 := memset (ptr O_encoder_packets) 0 sizeof_EncoderInfo m in
  let m2 := memset (ptr O_encoder_packets + 1 * sizeof_EncoderInfo) 0 sizeof_EncoderInfo m1 in
  let m3 := memset (ptr O_limit_packets) 0 sizeof_LimitInfo m2 in
  let m4 := memset (ptr O_limit_packets + 1 * sizeof_LimitInfo) 0 sizeof_LimitInfo m3 in
  let m5 := memset (ptr O_error_packets) 0 sizeof_ErrorInfo m4 in
  let m6 := store_ulong (ptr O_encoder_ready) 0 m5 in
  let m7 := store_ulong (ptr O_limit_ready) 0 m6 in
  let m8 := store_ulong (ptr O_error_ready) 0 m7 in
  store_ulong (ptr O_on) 0 m8.

(** ** The three programs together *)

Record world := mkWorld {
  w_host : pc * Host;
  w_shared : Shared;
  w_iep : IEP;
  w_encoder : GripperEncoder.line * GripperEncoder.Pru;
  w_limit : LimitSwitches.line * LimitSwitches.Pru
}.

(** One step of the whole: a statement of the host, a statement of a
    producer, or cycles of the timer going by.  Nobody else writes to the
    shared RAM. *)
Inductive world_step (CLOCKS_PER_SEC : Z) : world -> list event -> world -> Prop :=
| Step_host clk p h s t e l p' h' s' out :
    host_step CLOCKS_PER_SEC clk (p, h, s) = Some ((p', h', s'), out) ->
    world_step CLOCKS_PER_SEC (mkWorld (p, h) s t e l) out (mkWorld (p', h') s' t e l)
| Step_encoder r31 ph s t le pe l le' pe' s' t' w :
    GripperEncoder.step r31 (le, (pe, s, t)) = Some ((le', (pe', s', t')), w) ->
    world_step CLOCKS_PER_SEC (mkWorld ph s t (le, pe) l) [] (mkWorld ph s' t' (le', pe') l)
| Step_limit r31 ph s t e ll pl ll' pl' s' t' w :
    LimitSwitches.step r31 (ll, (pl, s, t)) = Some ((ll', (pl', s', t')), w) ->
    world_step CLOCKS_PER_SEC (mkWorld ph s t e (ll, pl)) [] (mkWorld ph s' t' e (ll', pl'))
| Step_cycles d ph s t e l :
    0 <= d ->
    world_step CLOCKS_PER_SEC (mkWorld ph s t e l) [] (mkWorld ph s (iep_run d t) e l).

Inductive world_run (CLOCKS_PER_SEC : Z) : world -> list event -> world -> Prop :=
| World_nil w : world_run CLOCKS_PER_SEC w [] w
| World_snoc w out w1 e w2 :
    world_run CLOCKS_PER_SEC w out w1 -> world_step CLOCKS_PER_SEC w1 e w2 ->
    world_run CLOCKS_PER_SEC w (out ++ e) w2.

(** The host has cleared the shared RAM (lines 135-144), loaded both
    producers and stands at its loop; the producers stand at their first
    statement. *)
Definition world_at_start (clk : Z) (s : Shared) (t : IEP) : option world :=
  s1 ← init_shared s;
  Some (mkWorld (P_while, host_at_loop_entry clk) s1 t
                GripperEncoder.loaded LimitSwitches.loaded).

Definition calls_succeed (k : Calls) : Prop :=
  prussdrv_open k <> -1 /\
  0 <= prussdrv_load_datafile k 0 /\ 0 <= prussdrv_exec_program k 0 /\
  0 <= prussdrv_load_datafile k 1 /\ 0 <= prussdrv_exec_program k 1 /\
  0 <= socket k.

(** The actions of a start-up that goes through, in program order. *)
Definition startup_actions (a1 a2 a3 a4 : string) (k : Calls) : list action :=
  [A_event System_pinconfig; A_prussdrv_init; A_prussdrv_open; A_pruintc_init]
  ++ replicate 8 A_map_prumem
  ++ [A_printf "Initializing PRU0"; A_load_datafile 0 a2; A_exec_program 0 a1;
      A_printf "Initializing PRU1"; A_load_datafile 1 a4; A_exec_program 1 a3;
      A_socket;
      A_setsockopt_tos tos_write; A_getsockopt_tos;
      A_printf_tos (tos_read k);
      A_printf_precedence (Z.land (Z.shiftr (tos_read k) 5) 0x7);
      A_printf_tos_field (Z.land (Z.shiftr (tos_read k) 1) 0xF);
      A_printf "Initializing DAQ"].

Definition sample_argv : list string :=
  ["loader"; "Encoder.bin"; "Encoder.dat"; "Limit.bin"; "Limit.dat"].

(** What the producers have stored when they have both gone through their
    start (GripperEncoder.c lines 66-77, LimitSwitches.c lines 57-67). *)
Definition producers_started (s : Shared) : Shared :=
  match GripperEncoder.start s iep_reset with
  | Some ((_, s1, t1), _) =>
      match LimitSwitches.start s1 t1 with
      | Some ((_, s2, _), _) => s2
      | None => s1
      end
  | None => s
  end.

(** Every call succeeds. *)
Definition calls_fine : Calls := mkCalls 0 (fun _ => 0) (fun _ => 0) 3 164 0.

(** The data file of PRU1 cannot be loaded. *)
Definition calls_limit_data_missing : Calls :=
  mkCalls 0 (fun pru => if pru =? 1 then -1 else 0) (fun _ => 0) 3 164 0.

(** What the loop emits: its prints and its datagrams. *)
Definition loop_event (e : event) : Prop :=
  match e with
  | Print_limit_state _ | Print_sending_limit _ | Print_sending_error _
  | Print_sending_timeout _ | Sendto _ _ => True
  | _ => False
  end.

Definition emits_loop_events (c : stmt) : Prop :=
  forall h s h' s' e, c h s = Some (h', s', e) -> Forall loop_event e.

(** The PRUs were left as they were: no call of [prussdrv_pru_disable], no
    [prussdrv_exit]. *)
Definition prus_untouched (acts : list action) : Prop :=
  (forall pru, ~ In (A_event (Pru_disable pru)) acts) /\
  ~ In (A_event Pruss_exit) acts.

(** *** The initialisation, byte by byte *)

(** The bytes lines 135-144 write. *)
Definition cleared (p : Z) (a : Z) : Prop :=
  inside p O_on a \/ inside p O_encoder_ready a \/ inside p O_limit_ready a \/
  inside p O_error_ready a \/ inside p O_encoder_packets a \/ inside p O_limit_packets a \/
  host_pointer p O_error_packets <= a < host_pointer p O_error_packets + sizeof_ErrorInfo.




(** The eight bytes of the timeout datagram: header 0x1234, type 1. *)
Definition timeout_datagram : list Z := [0x34; 0x12; 0; 0; 1; 0; 0; 0].

(** ** The time a sample stands for *)

(** The cycle count a pair (clock_overflow, clock) stands for. *)
Definition stamp (o c : Z) : Z := o * ULONG_MAX1 + c.

(** The cycle count the overflow counter, the overflow flag and the timer
    stand for together. *)
Definition iep_time (s : Shared) (t : IEP) : Z :=
  stamp (clock_overflow s + Z.land (tmr_sts t) 1) (tmr_cnt t).

(** The cycles one pass of the encoder loop takes. *)
Definition pass_cycles (inp : GripperEncoder.Input) : Z :=
  GripperEncoder.d_check inp + GripperEncoder.d_clock inp
  + GripperEncoder.d_overflow inp + GripperEncoder.DELAY_CYCLES.

(** A pass that takes at most 2^31 cycles. *)
Definition short_pass (inp : GripperEncoder.Input) : Prop :=
  0 <= GripperEncoder.d_check inp /\ 0 <= GripperEncoder.d_clock inp /\
  0 <= GripperEncoder.d_overflow inp /\ pass_cycles inp <= 2 ^ 31.

(** Between two passes: a wrap the counter has not taken in yet is less
    than 2^31 cycles old. *)
Definition timer_counted (s : Shared) (t : IEP) : Prop :=
  iep_ok t /\ 0 <= clock_overflow s /\
  (Z.land (tmr_sts t) 1 = 1 -> tmr_cnt t < 2 ^ 31).

(** The clock words and the overflow words the encoder stored, oldest
    first. *)
Fixpoint clock_words (w : list pwrite) : list Z :=
  match w with
  | [] => []
  | W_slot Encoder _ F_clock _ v :: w' => v :: clock_words w'
  | _ :: w' => clock_words w'
  end.

Fixpoint overflow_words (w : list pwrite) : list Z :=
  match w with
  | [] => []
  | W_slot Encoder _ F_clock_overflow _ v :: w' => v :: overflow_words w'
  | _ :: w' => overflow_words w'
  end.

Definition stamps (w : list pwrite) : list Z :=
  zip_with stamp (overflow_words w) (clock_words w).

(** For every pass, the cycle count when the clock is read (line 87) and
    the cycles from there to the read of the overflow flag (line 88). *)
Fixpoint readings (T : Z) (inps : list GripperEncoder.Input) : list (Z * Z) :=
  match inps with
  | [] => []
  | inp :: rest =>
      (T + GripperEncoder.d_check inp + GripperEncoder.d_clock inp,
       GripperEncoder.d_overflow inp)
      :: readings (T + pass_cycles inp) rest
  end.

(** What is recorded for a reading: the cycle count itself, or 2^32 more
    when the timer wraps between the two reads. *)
Definition recorded (r : Z * Z) : Z :=
  fst r + (if ULONG_MAX1 <=? fst r mod ULONG_MAX1 + snd r then ULONG_MAX1 else 0).

Definition flag (t : IEP) : Z := Z.land (tmr_sts t) 1.

(** The cycles a run of passes takes. *)
Fixpoint run_cycles (inps : list GripperEncoder.Input) : Z :=
  match inps with
  | [] => 0
  | inp :: rest => pass_cycles inp + run_cycles rest
  end.

(** The timer two cycles before it wraps. *)
Definition iep_at_the_brink : IEP := mkIEP (ULONG_MAX1 - 2) 0.

(** A pass in which five cycles go by between the read of the clock and
    the read of the overflow flag. *)
Definition slow_read : GripperEncoder.Input := GripperEncoder.mkInput 1 0 5 0x15.

(** ** What the three programs keep between them *)

(** The headers the encoder has stored when it stands at a statement:
    none yet, that of slot 0, or both. *)
Definition encoder_stored_headers (l : GripperEncoder.line) (ep : list EncoderInfo) : Prop :=
  match l with
  | GripperEncoder.At_ready_0 | GripperEncoder.At_counter_0
  | GripperEncoder.At_header_0 => True
  | GripperEncoder.At_header_1 =>
      forall e, array_get ep 0 = Some e -> enc_header e = ENCODER_HEADER
  | _ => forall j e, array_get ep j = Some e -> enc_header e = ENCODER_HEADER
  end.

Definition limit_stored_headers (l : LimitSwitches.line) (lp : list LimitInfo) : Prop :=
  match l with
  | LimitSwitches.At_ready_0 | LimitSwitches.At_header_0 => True
  | LimitSwitches.At_header_1 =>
      forall e, array_get lp 0 = Some e -> lim_header e = LIMIT_HEADER
  | _ => forall j e, array_get lp j = Some e -> lim_header e = LIMIT_HEADER
  end.

(** The encoder is inside its arrays and inside its loop: [packet] is 0 or
    1 and [index] is what the statement to come expects. *)
Definition encoder_line_ok (l : GripperEncoder.line) (p : GripperEncoder.Pru) : Prop :=
  0 <= GripperEncoder.packet p <= 1 /\
  match l with
  | GripperEncoder.At_full => 1 <= GripperEncoder.index p <= ENCODER_COUNTER_SIZE
  | GripperEncoder.At_reset => GripperEncoder.index p = ENCODER_COUNTER_SIZE
  | GripperEncoder.At_publish | GripperEncoder.At_flip => GripperEncoder.index p = 0
  | GripperEncoder.At_r31 | GripperEncoder.At_halt => False
  | _ => 0 <= GripperEncoder.index p < ENCODER_COUNTER_SIZE
  end.

Definition limit_line_ok (l : LimitSwitches.line) (p : LimitSwitches.Pru) : Prop :=
  0 <= LimitSwitches.packet p <= 1 /\
  match l with
  | LimitSwitches.At_r31 | LimitSwitches.At_halt => False
  | _ => True
  end.

(** The statements of the dispatch block of [c] behind its test. *)
Definition in_dispatch (c : channel) (p : pc) : bool :=
  match p with
  | P_announce c' | P_sendto c' | P_clear c' => bool_decide (c' = c)
  | _ => false
  end.

(** The host's copy of an encoder packet, or of a limit packet, is whole
    and carries the header of its kind. *)
Definition encoder_batch_ok (h : Host) : Prop :=
  exists e, encoder_to_send h = [e] /\
            enc_header e = ENCODER_HEADER /\ EncoderInfo_sized e.

Definition limit_batch_ok (h : Host) : Prop :=
  exists l, limit_to_send h = [l] /\ lim_header l = LIMIT_HEADER.

Definition world_inv (w : world) : Prop :=
  let '(p, h) := w_host w in
  let s := w_shared w in
  let '(le, pe) := w_encoder w in
  let '(ll, pl) := w_limit w in
  safe_inv (p, h, s) /\
  on s = 0 /\
  p <> P_done /\
  Forall EncoderInfo_sized (encoder_packets s) /\
  encoder_line_ok le pe /\
  limit_line_ok ll pl /\
  (le = GripperEncoder.At_ready_0 -> encoder_ready s = 0) /\
  (ll = LimitSwitches.At_ready_0 -> limit_ready s = 0) /\
  encoder_stored_headers le (encoder_packets s) /\
  limit_stored_headers ll (limit_packets s) /\
  (encoder_ready s <> 0 \/ in_drain Encoder p = true -> encoder_headers s) /\
  (limit_ready s <> 0 \/ in_drain Limit p = true -> limit_headers s) /\
  (fill_index Encoder h = 1 \/ p = P_inc Encoder -> encoder_batch_ok h) /\
  (fill_index Limit h = 1 \/ p = P_print \/ p = P_inc Limit -> limit_batch_ok h) /\
  (forall c, in_dispatch c p = true -> fill_index c h = 1) /\
  error_ready s = 0 /\ fill_index Error h = 0 /\
  in_drain Error p = false /\ in_dispatch Error p = false /\
  map tmo_header (timeout_packet h) = [0x1234] /\
  (p = P_tmo_sendto -> map tmo_type (timeout_packet h) = [ENCODER_TIMEOUT_FLAG]).

(** What a datagram of the closed system looks like. *)
Definition datagram_ok (e : event) : Prop :=
  match e with
  | Sendto (S_batch Encoder) b => length b = 1444%nat /\ take 4 b = le_bytes ENCODER_HEADER
  | Sendto (S_batch Limit) b => length b = 16%nat /\ take 4 b = le_bytes LIMIT_HEADER
  | Sendto (S_batch Error) _ => False
  | Sendto S_timeout b => b = [0x34; 0x12; 0; 0; 1; 0; 0; 0]
  | _ => True
  end.

(** The three programs after the host's initialisation of a RAM that held
    leftovers, and two steps later: the encoder has cleared its ready flag
    and the host has tested the run flag. *)
Definition world_0 : world :=
  mkWorld (P_while, host_at_loop_entry 0)
    (mkShared 0 7 0 [zero_EncoderInfo; zero_EncoderInfo]
              0 [zero_LimitInfo; zero_LimitInfo]
              0 [zero_ErrorInfo; mkErrorInfo 0xE12A 2])
    iep_reset GripperEncoder.loaded LimitSwitches.loaded.

Definition world_2 : world :=
  mkWorld (P_time, host_at_loop_entry 0)
    (mkShared 0 7 0 [zero_EncoderInfo; zero_EncoderInfo]
              0 [zero_LimitInfo; zero_LimitInfo]
              0 [zero_ErrorInfo; mkErrorInfo 0xE12A 2])
    iep_reset (GripperEncoder.At_counter_0, GripperEncoder.mkPru 0 0) LimitSwitches.loaded.

(** The run flag is set to 2. *)
Definition set_on_2 (s : Shared) : Shared := set_on 2 s.

(** A step of the whole, named by who takes it: the host with the value
    [clock()] returns, a producer with what its input register holds, or
    cycles of the timer. *)
Inductive move :=
| M_host (clk : Z)
| M_encoder (r31 : Z)
| M_limit (r31 : Z)
| M_cycles (d : Z).

Definition world_move (CLOCKS_PER_SEC : Z) (m : move) (w : world)
  : option (world * list event) :=
  match m with
  | M_host clk =>
      match host_step CLOCKS_PER_SEC clk (w_host w, w_shared w) with
      | Some (ph, s', out) =>
          Some (mkWorld ph s' (w_iep w) (w_encoder w) (w_limit w), out)
      | None => None
      end
  | M_encoder r31 =>
      match GripperEncoder.step r31
              (fst (w_encoder w), (snd (w_encoder w), w_shared w, w_iep w)) with
      | Some (le, (pe, s', t'), _) =>
          Some (mkWorld (w_host w) s' t' (le, pe) (w_limit w), [])
      | None => None
      end
  | M_limit r31 =>
      match LimitSwitches.step r31
              (fst (w_limit w), (snd (w_limit w), w_shared w, w_iep w)) with
      | Some (ll, (pl, s', t'), _) =>
          Some (mkWorld (w_host w) s' t' (w_encoder w) (ll, pl), [])
      | None => None
      end
  | M_cycles d =>
      if 0 <=? d
      then Some (mkWorld (w_host w) (w_shared w) (iep_run d (w_iep w))
                         (w_encoder w) (w_limit w), [])
      else None
  end.

Fixpoint world_moves (CLOCKS_PER_SEC : Z) (ms : list move) (w : world)
  : option (world * list event) :=
  match ms with
  | [] => Some (w, [])
  | m :: ms' =>
      match world_move CLOCKS_PER_SEC m w with
      | Some (w1, e1) =>
          match world_moves CLOCKS_PER_SEC ms' w1 with
          | Some (w2, e2) => Some (w2, e1 ++ e2)
          | None => None
          end
      | None => None
      end
  end.

(** The encoder goes through its start and 120 passes and publishes slot
    0; the limit producer goes through its start and one pass with a
    switch closed and publishes slot 0. *)
Definition producers_publish : list move :=
  replicate 970 (M_encoder 0x15) ++ replicate 14 (M_limit 0x3E00).

(** Then the host goes once round its loop. *)
Definition host_goes_round : list move := replicate 25 (M_host 50).

(** Or the host goes as far as the copy of the encoder packet, while the
    encoder is about to store the first clock word of its next packet and
    the limit producer the clock word of a second one. *)
Definition all_about_to_index : list move :=
  replicate 4 (M_host 50) ++ replicate 2 (M_encoder 0x15) ++ [M_cycles 12000000]
  ++ replicate 2 (M_limit 0x3E00).

Definition world_sent : world * list event :=
  Eval vm_compute in
    default (world_0, []) (world_moves 1000000 (producers_publish ++ host_goes_round) world_0).

Definition world_indexing : world * list event :=
  Eval vm_compute in
    default (world_0, []) (world_moves 1000000 (producers_publish ++ all_about_to_index) world_0).

(** * Properties *)

(** ** Arrays *)

Lemma array_get_Some {A} (a : list A) (i : Z) (x : A) :
  array_get a i = Some x <-> 0 <= i /\ a !! Z.to_nat i = Some x.
Proof.
  unfold array_get. destruct (Z.leb_spec 0 i); split; intros Hx.
  - auto.
  - apply Hx.
  - discriminate.
  - lia.
Qed.

Lemma array_get_in_range {A} (a : list A) (i : Z) :
  0 <= i < Z.of_nat (length a) -> exists x, array_get a i = Some x.
Proof.
  intros Hi. unfold array_get. destruct (Z.leb_spec 0 i); [|lia].
  destruct (lookup_lt_is_Some_2 a (Z.to_nat i)) as [x Hx]; [lia|]. eauto.
Qed.

Lemma array_get_out_of_range {A} (a : list A) (i : Z) :
  Z.of_nat (length a) <= i -> array_get a i = None.
Proof.
  intros Hi. unfold array_get. destruct (Z.leb_spec 0 i); [|done].
  apply lookup_ge_None_2. lia.
Qed.

Lemma array_set_Some {A} (a b : list A) (i : Z) (x : A) :
  array_set a i x = Some b ->
  0 <= i < Z.of_nat (length a) /\ b = <[Z.to_nat i := x]> a.
Proof.
  unfold array_set.
  destruct (Z.leb_spec 0 i), (Z.ltb_spec i (Z.of_nat (length a)));
    simpl; intros Hb; try discriminate.
  inversion Hb. auto.
Qed.

Lemma array_set_in_range {A} (a : list A) (i : Z) (x : A) :
  0 <= i < Z.of_nat (length a) -> array_set a i x = Some (<[Z.to_nat i := x]> a).
Proof.
  intros Hi. unfold array_set.
  destruct (Z.leb_spec 0 i), (Z.ltb_spec i (Z.of_nat (length a))); simpl; try lia. done.
Qed.

Lemma array_set_length {A} (a b : list A) (i : Z) (x : A) :
  array_set a i x = Some b -> length b = length a.
Proof. intros H. apply array_set_Some in H as [_ ->]. apply length_insert. Qed.

Lemma array_get_set_same {A} (a b : list A) (i : Z) (x : A) :
  array_set a i x = Some b -> array_get b i = Some x.
Proof.
  intros H. apply array_set_Some in H as [Hi ->].
  apply array_get_Some. split; [lia|]. apply list_lookup_insert_eq. lia.
Qed.

(** ** Start-up *)

(** C8, the statement that holds: the only accepted argument count is 5.
    Every other count, the counts that leave out a data file included,
    prints the usage line after the pin configuration and returns 1. *)
Theorem check_arguments_only_five (argc : Z) (argv0 : string) :
  (argc <> 5 /\
   check_arguments argc argv0 = ([System_pinconfig; Print_usage argv0], Some 1)) \/
  (argc = 5 /\ check_arguments argc argv0 = ([System_pinconfig], None)).
Proof.
  unfold check_arguments. destruct (Z.eqb_spec argc 5); simpl; auto.
Qed.

(** C8 as worded fails: [loader Encoder.bin Limit.bin] names both images
    and leaves out both optional data files, and is turned away. *)
Lemma check_arguments_rejects_three :
  arity_in_positional_set 3 /\
  check_arguments 3 "loader" = ([System_pinconfig; Print_usage "loader"], Some 1).
Proof. split; [left; reflexivity | reflexivity]. Qed.

Example check_arguments_five :
  check_arguments 5 "loader" = ([System_pinconfig], None).
Proof. reflexivity. Qed.

Example check_arguments_four :
  snd (check_arguments 4 "loader") = Some 1.
Proof. reflexivity. Qed.
(** C7, the statement that holds: before the producers are started the
    host clears the run flag, the three ready flags, both slots of the
    encoder and of the limit buffer and slot 0 of the error buffer.  It
    does not write the overflow counter; the encoder producer clears that
    counter when it starts. *)
Theorem init_shared_clears_host_fields (s : Shared) (t : IEP) :
  two_slots s ->
  exists s' st w,
    init_shared s = Some s' /\
    on s' = 0 /\
    encoder_ready s' = 0 /\ limit_ready s' = 0 /\ error_ready s' = 0 /\
    encoder_packets s' = [zero_EncoderInfo; zero_EncoderInfo] /\
    limit_packets s' = [zero_LimitInfo; zero_LimitInfo] /\
    array_get (error_packets s') 0 = Some zero_ErrorInfo /\
    clock_overflow s' = clock_overflow s /\
    GripperEncoder.start s' t = Some (st, w) /\
    clock_overflow (snd (fst st)) = 0.
Proof.
  intros (He & Hl & Hr). destruct s as [o co er ep lr lp rr rp]. simpl in *.
  destruct ep as [|ea [|eb [|]]]; try discriminate.
  destruct lp as [|la [|lb [|]]]; try discriminate.
  destruct rp as [|ra [|rb [|]]]; try discriminate.
  do 3 eexists. repeat split.
Qed.

Lemma init_shared_clears_host_fields_witness :
  exists s' st w,
    init_shared leftover_shared = Some s' /\
    on s' = 0 /\
    encoder_ready s' = 0 /\ limit_ready s' = 0 /\ error_ready s' = 0 /\
    encoder_packets s' = [zero_EncoderInfo; zero_EncoderInfo] /\
    limit_packets s' = [zero_LimitInfo; zero_LimitInfo] /\
    array_get (error_packets s') 0 = Some zero_ErrorInfo /\
    clock_overflow s' = clock_overflow leftover_shared /\
    GripperEncoder.start s' (mkIEP 0 1) = Some (st, w) /\
    clock_overflow (snd (fst st)) = 0.
Proof.
  apply (init_shared_clears_host_fields leftover_shared (mkIEP 0 1)).
  repeat split.
Defined.

(** C7 as worded fails: the overflow counter keeps the value it had. *)
Lemma init_shared_keeps_overflow_counter :
  exists s', init_shared leftover_shared = Some s' /\
             clock_overflow s' = 7 /\ ~ all_fields_zeroed s'.
Proof.
  eexists. split; [reflexivity|]. split; [reflexivity|].
  intros (_ & H & _). discriminate H.
Qed.

Example init_shared_error_slot_1 :
  exists s', init_shared leftover_shared = Some s' /\
             array_get (error_packets s') 1 = Some (mkErrorInfo 0xE12A 2).
Proof. eexists. split; reflexivity. Qed.

(** ** One iteration of the acquisition loop *)

Lemma clock_t_range (z : Z) : - 2 ^ 31 <= clock_t z < 2 ^ 31.
Proof.
  unfold clock_t, ULONG_MAX1.
  pose proof (Z.mod_pos_bound (z + 2 ^ 31) (2 ^ 32)). lia.
Qed.






Lemma overdue_same (CPS t : Z) : overdue CPS t t = false.
Proof.
  unfold overdue, elapsed_seconds. rewrite Z.sub_diag.
  change (clock_t 0) with 0.
  apply negb_false_iff, Qle_bool_iff.
  unfold Qdiv. rewrite Qmult_0_l. discriminate.
Qed.


Ltac shape_lists :=
  repeat match goal with
  | H : length ?l = 1%nat |- _ =>
      is_var l; destruct l as [|? [|? ?]]; try discriminate H; clear H
  | H : length ?l = 2%nat |- _ =>
      is_var l; destruct l as [|? [|? [|? ?]]]; try discriminate H; clear H
  end.

(** Split a state between two iterations into its 27 combinations of
    ready flags, with every array in its concrete shape. *)
Ltac head_cases h s Hh :=
  let Hs := fresh in let Ht := fresh in let Hi := fresh in let Hr := fresh in
  destruct Hh as (Hs & Ht & Hi & Hr);
  destruct h as [ets lts rts tp off ei li ri ct et];
  destruct s as [o co er ep lr lp rr rp];
  destruct Hs as (? & ? & ? & ?); destruct Ht as (? & ? & ?);
  pose proof (Hi Encoder); pose proof (Hi Limit); pose proof (Hi Error);
  pose proof (Hr Encoder); pose proof (Hr Limit); pose proof (Hr Error);
  clear Hi Hr; simpl in *; subst ei li ri; shape_lists;
  assert (er = 0 \/ er = 1 \/ er = 2) as [-> | [-> | ->]] by lia;
  assert (lr = 0 \/ lr = 1 \/ lr = 2) as [-> | [-> | ->]] by lia;
  assert (rr = 0 \/ rr = 1 \/ rr = 2) as [-> | [-> | ->]] by lia.

Ltac run_body Ho :=
  cbv -[overdue batch_bytes TimeoutInfo_bytes EncoderInfo_bytes LimitInfo_bytes
        ErrorInfo_bytes];
  rewrite ?overdue_same, ?Ho; reflexivity.

Lemma loop_body_spec (CPS clk : Z) (h : Host) (s : Shared) :
  loop_head h s ->
  exists h' s' out,
    loop_body CPS clk h s = Some (h', s', out) /\
    loop_head h' s' /\
    s' = mkShared (on s) (clock_overflow s) 0 (encoder_packets s)
                  0 (limit_packets s) 0 (error_packets s) /\
    (forall c, sent (S_batch c) out =
               if ready c s =? 0 then [] else option_list (ready_bytes c s)) /\
    (forall c, ready c s <> 0 -> is_Some (ready_bytes c s)) /\
    current_time h' = clk /\
    encoder_time h' =
      (if stale CPS clk h s || drained Encoder s then clk else encoder_time h) /\
    timeout_times out = (if stale CPS clk h s then [clk] else []) /\
    sent S_timeout out = (if stale CPS clk h s then timeout_bytes h else []) /\
    map tmo_header (timeout_packet h') = map tmo_header (timeout_packet h).
Proof.
  intros Hh. head_cases h s Hh;
    destruct (overdue CPS clk et) eqn:Ho;
    (eexists _, _, _; split; [run_body Ho|]);
    (split; [unfold loop_head, host_sized, two_slots; simpl;
             repeat (match goal with |- _ /\ _ => split end);
             try reflexivity; intros []; simpl; lia|]);
    (split; [reflexivity|]);
    (split; [intros []; simpl; rewrite ?decide_True, ?decide_False by congruence;
             unfold batch_bytes, array_bytes; simpl; rewrite ?app_nil_r; reflexivity|]);
    (split; [intros [] Hne; simpl in Hne |- *;
             try (exfalso; apply Hne; reflexivity); eexists; reflexivity|]);
    unfold stale, drained, timeout_bytes; simpl; rewrite ?Ho; simpl; repeat split.
Qed.

Lemma words_bytes_length (ws : list Z) :
  length (words_bytes ws) = (4 * length ws)%nat.
Proof.
  unfold words_bytes. induction ws as [|w ws IH]; simpl; [reflexivity|].
  rewrite IH. lia.
Qed.

Lemma EncoderInfo_bytes_length (e : EncoderInfo) :
  EncoderInfo_sized e -> length (EncoderInfo_bytes e) = 1444%nat.
Proof.
  intros (Hc & Ho & Hs). unfold EncoderInfo_bytes, EncoderInfo_words.
  rewrite words_bytes_length. simpl. rewrite !length_app, Hc, Ho, Hs. reflexivity.
Qed.

(** ** Dispatch *)

Lemma dispatch_full (c : channel) (h : Host) (s : Shared) :
  fill_index c h = PACKETS_TO_SEND c ->
  exists h' out,
    dispatch c h s = Some (h', s, out) /\
    sent (S_batch c) out = [batch_bytes c h] /\
    (forall k, k <> S_batch c -> sent k out = []) /\
    fill_index c h' = 0.
Proof.
  intros Hf. unfold dispatch, when, is_full. rewrite Hf, Z.eqb_refl.
  destruct c; eexists _, _; (split; [reflexivity|]); simpl;
    (split; [reflexivity|]); (split; [|reflexivity]);
    intros k Hk; (case_decide; [congruence|reflexivity]).
Qed.

Lemma dispatch_not_full (c : channel) (h : Host) (s : Shared) :
  fill_index c h <> PACKETS_TO_SEND c -> dispatch c h s = Some (h, s, []).
Proof.
  intros Hf. unfold dispatch, when, is_full.
  destruct (Z.eqb_spec (fill_index c h) (PACKETS_TO_SEND c)); [contradiction|reflexivity].
Qed.

(** C3: a send batch that holds as many packets as its batch size, 1, goes
    out as one datagram and its fill count returns to 0; and in an
    iteration that finds the encoder flag raised the encoder datagram is,
    byte for byte, the encoder packet that the flag pointed to in the
    shared RAM, 1444 bytes for a packet of 120 samples. *)
Theorem encoder_datagram_is_snapshot
    (CPS clk : Z) (h : Host) (s : Shared) (pkt : EncoderInfo) :
  loop_head h s ->
  encoder_ready s <> 0 ->
  array_get (encoder_packets s) (encoder_ready s - 1) = Some pkt ->
  (exists h' s' out,
     loop_body CPS clk h s = Some (h', s', out) /\
     sent (S_batch Encoder) out = [EncoderInfo_bytes pkt] /\
     encoder_index h' = 0 /\
     (EncoderInfo_sized pkt -> length (EncoderInfo_bytes pkt) = 1444%nat)) /\
  (forall c h1 s1,
     fill_index c h1 = PACKETS_TO_SEND c ->
     exists h2 out1,
       dispatch c h1 s1 = Some (h2, s1, out1) /\
       sent (S_batch c) out1 = [batch_bytes c h1] /\
       (forall k, k <> S_batch c -> sent k out1 = []) /\
       fill_index c h2 = 0).
Proof.
  intros Hh Hne Hp. split; [|intros c h1 s1; apply dispatch_full].
  destruct (loop_body_spec CPS clk h s Hh)
    as (h' & s' & out & Hb & Hh' & _ & Hsent & _).
  exists h', s', out. split; [exact Hb|].
  split; [|split].
  - rewrite (Hsent Encoder). simpl.
    destruct (Z.eqb_spec (encoder_ready s) 0); [contradiction|].
    rewrite Hp. reflexivity.
  - destruct Hh' as (_ & _ & Hi & _). apply (Hi Encoder).
  - apply EncoderInfo_bytes_length.
Qed.

Lemma loop_head_sample (clk : Z) : loop_head (host_at_loop_entry clk) sample_shared.
Proof.
  unfold loop_head, host_sized, two_slots. simpl.
  repeat (match goal with |- _ /\ _ => split end); try reflexivity;
    intros []; simpl; lia.
Qed.

Lemma encoder_datagram_is_snapshot_witness :
  (exists h' s' out,
     loop_body 1000000 50 (host_at_loop_entry 0) sample_shared = Some (h', s', out) /\
     sent (S_batch Encoder) out = [EncoderInfo_bytes (sample_packet 9)] /\
     encoder_index h' = 0 /\
     (EncoderInfo_sized (sample_packet 9) ->
      length (EncoderInfo_bytes (sample_packet 9)) = 1444%nat)) /\
  (forall c h1 s1,
     fill_index c h1 = PACKETS_TO_SEND c ->
     exists h2 out1,
       dispatch c h1 s1 = Some (h2, s1, out1) /\
       sent (S_batch c) out1 = [batch_bytes c h1] /\
       (forall k, k <> S_batch c -> sent k out1 = []) /\
       fill_index c h2 = 0).
Proof.
  apply (encoder_datagram_is_snapshot 1000000 50 (host_at_loop_entry 0)
           sample_shared (sample_packet 9)).
  - apply loop_head_sample.
  - simpl. lia.
  - reflexivity.
Defined.

(** ** Runs of the loop *)


Lemma sent_app (k : sender) (a b : list event) :
  sent k (a ++ b) = sent k a ++ sent k b.
Proof.
  induction a as [|x a IH]; simpl; [reflexivity|].
  destruct x; simpl; rewrite ?IH; try reflexivity.
  case_decide; simpl; rewrite ?IH; reflexivity.
Qed.


Lemma ended_with_emit (e : list event) (o : outcome) (h : Host) (s : Shared)
    (out : list event) :
  ended_with (emit e o) h s out ->
  exists out', out = e ++ out' /\ ended_with o h s out'.
Proof.
  unfold ended_with. destruct o as [h1 s1 o1|h1 s1 o1|]; simpl;
    intros [H|H]; inversion H; subst; eauto.
Qed.

Lemma env_ok_head (env : Shared -> Shared) (h : Host) (s : Shared) :
  env_ok env -> loop_head h s -> loop_head h (env s).
Proof.
  intros He (Hs & Ht & Hi & Hr). destruct (He s Ht Hr) as [Ht' Hr'].
  repeat split; try apply Hs; try apply Ht'; try apply Hi; apply Hr'.
Qed.

(** The loop never leaves its arrays, and between iterations no batch is
    partly filled. *)
Lemma acquisition_loop_safe (CPS : Z) (sched : list ((Shared -> Shared) * Z)) :
  forall h s, loop_head h s -> envs_ok sched ->
  acquisition_loop CPS sched h s <> Fault /\
  forall h' s' out, ended_with (acquisition_loop CPS sched h s) h' s' out ->
                    loop_head h' s'.
Proof.
  induction sched as [|[env clk] rest IH]; intros h s Hh Hok; simpl.
  - split; [discriminate|]. intros h' s' out [H|H]; inversion H; subst. exact Hh.
  - inversion Hok as [|x l Henv Hrest]; subst. simpl in Henv.
    pose proof (env_ok_head env h s Henv Hh) as Hh0.
    destruct (on (env s) =? 1).
    + split; [discriminate|]. intros h' s' out [H|H]; inversion H; subst. exact Hh0.
    + destruct (loop_body_spec CPS clk h (env s) Hh0)
        as (h1 & s1 & e & Hb & Hh1 & _).
      rewrite Hb. destruct (IH h1 s1 Hh1 Hrest) as [Hnf Hend].
      split.
      * destruct (acquisition_loop CPS rest h1 s1); simpl; congruence.
      * intros h' s' out He. apply ended_with_emit in He as (out' & _ & He).
        eapply Hend; exact He.
Qed.


(** ** Staleness *)


Lemma loop_head_idle (clk : Z) : loop_head (host_at_loop_entry clk) idle_shared.
Proof.
  unfold loop_head, host_sized, two_slots. simpl.
  repeat (match goal with |- _ /\ _ => split end); try reflexivity;
    intros []; simpl; lia.
Qed.



Example timeout_packet_on_the_wire :
  exists h' s',
    loop_body 1000000 10000001 (host_at_loop_entry 0) idle_shared =
    Some (h', s', [Print_sending_timeout 10000001;
                   Sendto S_timeout [0x34; 0x12; 0; 0; 1; 0; 0; 0]]).
Proof. eexists _, _. vm_compute. reflexivity. Qed.

Example no_timeout_at_threshold :
  exists h' s',
    loop_body 1000000 10000000 (host_at_loop_entry 0) idle_shared = Some (h', s', []).
Proof. eexists _, _. vm_compute. reflexivity. Qed.

(** The clock wraps between two readings, 11 seconds apart: the timeout
    packet is sent. *)
Example timeout_across_the_wrap :
  exists h' s',
    loop_body 1000000 (-2136484296) host_before_wrap idle_shared =
    Some (h', s', [Print_sending_timeout (-2136484296);
                   Sendto S_timeout [0x34; 0x12; 0; 0; 1; 0; 0; 0]]).
Proof. eexists _, _. vm_compute. reflexivity. Qed.

(** The difference is the one [clock_t] holds: a reading 2^31 ticks or
    more after the staleness clock gives a negative difference. *)
Example difference_half_way_round :
  clock_t (clock_t (2 ^ 31 + 5) - 0) = - 2 ^ 31 + 5 /\
  exists h' s',
    loop_body 1000000 (clock_t (2 ^ 31 + 5)) (host_at_loop_entry 0) idle_shared
    = Some (h', s', []).
Proof. split; [reflexivity|]. eexists _, _. vm_compute. reflexivity. Qed.

(** ** Leaving the loop *)

Lemma exited_on (CPS : Z) (sched : list ((Shared -> Shared) * Z)) :
  forall h s h' s' out,
    acquisition_loop CPS sched h s = Exited h' s' out -> on s' = 1.
Proof.
  induction sched as [|[env clk] rest IH]; intros h s h' s' out; simpl.
  - discriminate.
  - destruct (Z.eqb_spec (on (env s)) 1) as [Hon|Hon].
    + intros H. inversion H; subst. exact Hon.
    + destruct (loop_body CPS clk h (env s)) as [[[h1 s1] e]|]; [|discriminate].
      destruct (acquisition_loop CPS rest h1 s1) eqn:Hr; simpl; try discriminate.
      intros H. inversion H; subst. eapply IH. exact Hr.
Qed.

(** C6: the loop is left only on reading 1 from the run flag, and is left
    as soon as 1 is read; the code after the loop then waits for the
    completion event of the producers before it disables them and shuts
    the driver down.  When the loop is left every fill count is 0: an
    iteration sends, before it ends, every packet it drained. *)
Theorem loop_exits_on_run_flag
    (CPS : Z) (sched : list ((Shared -> Shared) * Z)) (h : Host) (s : Shared) :
  loop_head h s ->
  envs_ok sched ->
  acquisition_loop CPS sched h s <> Fault /\
  (forall h' s' out,
     acquisition_loop CPS sched h s = Exited h' s' out ->
     on s' = 1 /\
     (forall c, fill_index c h' = 0) /\
     teardown (on s') =
       [Pru_wait_event; Print_all_done; Pru_disable 1; Pru_disable 0; Pruss_exit]) /\
  (forall env clk rest,
     on (env s) = 1 ->
     acquisition_loop CPS ((env, clk) :: rest) h s = Exited h (env s) []) /\
  (forall clk,
     exists h1 s1 out1,
       loop_body CPS clk h s = Some (h1, s1, out1) /\
       (forall c, fill_index c h1 = 0) /\
       (forall c, sent (S_batch c) out1 =
                  if ready c s =? 0 then [] else option_list (ready_bytes c s)) /\
       (forall c, ready c s <> 0 -> is_Some (ready_bytes c s))).
Proof.
  intros Hh Hok.
  destruct (acquisition_loop_safe CPS sched h s Hh Hok) as [Hnf Hend].
  split; [exact Hnf|]. split; [|split].
  - intros h' s' out He. pose proof (exited_on _ _ _ _ _ _ _ He) as Hon.
    split; [exact Hon|]. split.
    + destruct (Hend h' s' out) as (_ & _ & Hi & _); [left; exact He|exact Hi].
    + rewrite Hon. reflexivity.
  - intros env clk rest Hon. simpl. rewrite Hon. reflexivity.
  - intros clk.
    destruct (loop_body_spec CPS clk h s Hh)
      as (h1 & s1 & out1 & Hb & (_ & _ & Hi & _) & _ & Hsent & Hsome & _).
    exists h1, s1, out1. auto.
Qed.

Lemma loop_exits_on_run_flag_witness :
  acquisition_loop 1000000 [(publish_encoder_0, 10); (raise_on, 20)]
    (host_at_loop_entry 0) idle_shared <> Fault /\
  (forall h' s' out,
     acquisition_loop 1000000 [(publish_encoder_0, 10); (raise_on, 20)]
       (host_at_loop_entry 0) idle_shared = Exited h' s' out ->
     on s' = 1 /\
     (forall c, fill_index c h' = 0) /\
     teardown (on s') =
       [Pru_wait_event; Print_all_done; Pru_disable 1; Pru_disable 0; Pruss_exit]) /\
  (forall env clk rest,
     on (env idle_shared) = 1 ->
     acquisition_loop 1000000 ((env, clk) :: rest) (host_at_loop_entry 0) idle_shared =
     Exited (host_at_loop_entry 0) (env idle_shared) []) /\
  (forall clk,
     exists h1 s1 out1,
       loop_body 1000000 clk (host_at_loop_entry 0) idle_shared = Some (h1, s1, out1) /\
       (forall c, fill_index c h1 = 0) /\
       (forall c, sent (S_batch c) out1 =
                  if ready c idle_shared =? 0 then []
                  else option_list (ready_bytes c idle_shared)) /\
       (forall c, ready c idle_shared <> 0 -> is_Some (ready_bytes c idle_shared))).
Proof.
  apply (loop_exits_on_run_flag 1000000 [(publish_encoder_0, 10); (raise_on, 20)]
           (host_at_loop_entry 0) idle_shared).
  - apply loop_head_idle.
  - unfold envs_ok; (constructor; [|constructor; [|constructor]]);
      simpl; intros s (He & Hl & Hr) Hrdy;
      (split; [repeat split; assumption|]);
      intros c; pose proof (Hrdy c); destruct c; simpl in *; lia.
Defined.

Example loop_run_exits :
  exists h',
    acquisition_loop 1000000 [(publish_encoder_0, 10); (raise_on, 20)]
      (host_at_loop_entry 0) idle_shared =
    Exited h' (raise_on (set_encoder_ready 0 (publish_encoder_0 idle_shared)))
           [Sendto (S_batch Encoder) (EncoderInfo_bytes (sample_packet 5))].
Proof. eexists. vm_compute. reflexivity. Qed.

(** ** What the host writes to the shared RAM *)

Lemma only_flags_cleared_refl (s : Shared) : only_flags_cleared s s.
Proof. unfold only_flags_cleared. auto 10. Qed.

Lemma only_flags_cleared_trans (s1 s2 s3 : Shared) :
  only_flags_cleared s1 s2 -> only_flags_cleared s2 s3 -> only_flags_cleared s1 s3.
Proof.
  intros (Ha & Hb & Hc & Hd & He & Hf) (Ha' & Hb' & Hc' & Hd' & He' & Hf').
  unfold only_flags_cleared.
  repeat (match goal with |- _ /\ _ => split end); try congruence.
  intros c. destruct (Hf c) as [H|H], (Hf' c) as [H'|H']; auto.
  - left. congruence.
  - right. congruence.
Qed.

Lemma clears_only_flags_same (c : stmt) :
  keeps_shared c -> clears_only_flags c.
Proof. intros H h s h' s' e Hc. rewrite (H _ _ _ _ _ Hc). apply only_flags_cleared_refl. Qed.

Lemma clears_only_flags_seq (a b : stmt) :
  clears_only_flags a -> clears_only_flags b -> clears_only_flags (a ;;; b).
Proof.
  intros Ha Hb h s h' s' e. unfold seq.
  destruct (a h s) as [[[h1 s1] e1]|] eqn:Ea; [|discriminate].
  destruct (b h1 s1) as [[[h2 s2] e2]|] eqn:Eb; [|discriminate].
  intros H. inversion H; subst.
  eapply only_flags_cleared_trans; [eapply Ha|eapply Hb]; eassumption.
Qed.

Lemma clears_only_flags_when (cond : Host -> Shared -> bool) (a : stmt) :
  clears_only_flags a -> clears_only_flags (when cond a).
Proof.
  intros Ha h s h' s' e. unfold when, skip. destruct (cond h s).
  - apply Ha.
  - intros H. inversion H; subst. apply only_flags_cleared_refl.
Qed.

Ltac same_shared :=
  intros h s h' s' e;
  repeat match goal with
         | |- context [array_get ?a ?i] => destruct (array_get a i); simpl
         | |- context [array_set ?a ?i ?x] => destruct (array_set a i x); simpl
         end;
  intros H; inversion H; reflexivity.

Lemma keeps_read_clock (clk : Z) : keeps_shared (read_clock clk).
Proof. unfold read_clock. same_shared. Qed.

Lemma keeps_take_offset (c : channel) : keeps_shared (take_offset c).
Proof. unfold take_offset. same_shared. Qed.

Lemma keeps_copy_packet (c : channel) : keeps_shared (copy_packet c).
Proof. destruct c; unfold copy_packet; same_shared. Qed.

Lemma keeps_print_limit_state : keeps_shared print_limit_state.
Proof. unfold print_limit_state. same_shared. Qed.

Lemma keeps_bump_index (c : channel) : keeps_shared (bump_index c).
Proof. destruct c; unfold bump_index; same_shared. Qed.

Lemma keeps_stamp_encoder_time : keeps_shared stamp_encoder_time.
Proof. unfold stamp_encoder_time. same_shared. Qed.

Lemma keeps_announce (c : channel) : keeps_shared (announce c).
Proof. destruct c; unfold announce; same_shared. Qed.

Lemma keeps_sendto_batch (c : channel) : keeps_shared (sendto_batch c).
Proof. unfold sendto_batch. same_shared. Qed.

Lemma keeps_reset_index (c : channel) : keeps_shared (reset_index c).
Proof. destruct c; unfold reset_index; same_shared. Qed.

Lemma keeps_announce_timeout : keeps_shared announce_timeout.
Proof. unfold announce_timeout. same_shared. Qed.

Lemma keeps_set_timeout_type : keeps_shared set_timeout_type.
Proof. unfold set_timeout_type. same_shared. Qed.

Lemma keeps_sendto_timeout : keeps_shared sendto_timeout.
Proof. unfold sendto_timeout. same_shared. Qed.

Lemma clears_clear_ready (c : channel) : clears_only_flags (clear_ready c).
Proof.
  intros h s h' s' e H.
  destruct c; inversion H; subst; unfold only_flags_cleared; simpl;
    repeat (match goal with |- _ /\ _ => split end); try reflexivity;
    intros []; simpl; auto.
Qed.

Create HintDb frame.
#[local] Hint Resolve keeps_read_clock keeps_take_offset keeps_copy_packet
  keeps_print_limit_state keeps_bump_index keeps_stamp_encoder_time keeps_announce
  keeps_sendto_batch keeps_reset_index keeps_announce_timeout keeps_set_timeout_type
  keeps_sendto_timeout : frame.
#[local] Hint Resolve clears_only_flags_same clears_only_flags_seq
  clears_only_flags_when clears_clear_ready : frame.

Lemma clears_drain (c : channel) : clears_only_flags (drain c).
Proof. destruct c; unfold drain; auto 10 with frame. Qed.

Lemma clears_dispatch (c : channel) : clears_only_flags (dispatch c).
Proof. unfold dispatch; auto 10 with frame. Qed.

Lemma clears_staleness (CPS : Z) : clears_only_flags (staleness CPS).
Proof. unfold staleness; auto 10 with frame. Qed.

Lemma clears_loop_body (CPS clk : Z) : clears_only_flags (loop_body CPS clk).
Proof.
  unfold loop_body.
  repeat apply clears_only_flags_seq;
    auto using clears_drain, clears_dispatch, clears_staleness with frame.
Qed.

Lemma goto_Some (p : pc) (r : option (Host * Shared * list event))
    (cf : config) (e : list event) :
  goto p r = Some (cf, e) ->
  exists h s, r = Some (h, s, e) /\ cf = (p, h, s).
Proof.
  destruct r as [[[h s] e']|]; simpl; intros H; inversion H; subst; eauto.
Qed.

Lemma clears_host_step (CPS clk : Z) (p : pc) (h : Host) (s : Shared)
    (cf' : config) (e : list event) :
  host_step CPS clk (p, h, s) = Some (cf', e) ->
  only_flags_cleared s (snd cf').
Proof.
  destruct p; simpl; intros H;
    try (inversion H; subst; apply only_flags_cleared_refl);
    apply goto_Some in H as (h1 & s1 & Hr & ->); simpl;
    match type of Hr with
    | ?c _ _ = _ => assert (Hc : clears_only_flags c) by auto with frame
    end;
    exact (Hc _ _ _ _ _ Hr).
Qed.

(** C9: inside the loop the host writes to the shared RAM only to set a
    ready flag to 0.  Every statement, and so every iteration, leaves the
    run flag, the overflow counter and the packets of the three channels as
    they were; an iteration that starts between iterations ends with the
    three flags at 0. *)
Theorem host_clears_only_ready_flags (CPS clk : Z) (h : Host) (s : Shared) :
  loop_head h s ->
  (exists h' s' out,
     loop_body CPS clk h s = Some (h', s', out) /\
     only_flags_cleared s s' /\
     (forall c, ready c s' = 0)) /\
  (forall h1 s1 h2 s2 e,
     loop_body CPS clk h1 s1 = Some (h2, s2, e) -> only_flags_cleared s1 s2) /\
  (forall p h1 s1 cf' e,
     host_step CPS clk (p, h1, s1) = Some (cf', e) -> only_flags_cleared s1 (snd cf')).
Proof.
  intros Hh. split; [|split].
  - destruct (loop_body_spec CPS clk h s Hh) as (h' & s' & out & Hb & _ & Hs' & _).
    exists h', s', out. split; [exact Hb|]. split.
    + eapply clears_loop_body. exact Hb.
    + rewrite Hs'. intros []; reflexivity.
  - apply clears_loop_body.
  - intros p h1 s1 cf' e. apply clears_host_step.
Qed.

Lemma host_clears_only_ready_flags_witness :
  (exists h' s' out,
     loop_body 1000000 50 (host_at_loop_entry 0) sample_shared = Some (h', s', out) /\
     only_flags_cleared sample_shared s' /\
     (forall c, ready c s' = 0)) /\
  (forall h1 s1 h2 s2 e,
     loop_body 1000000 50 h1 s1 = Some (h2, s2, e) -> only_flags_cleared s1 s2) /\
  (forall p h1 s1 cf' e,
     host_step 1000000 50 (p, h1, s1) = Some (cf', e) -> only_flags_cleared s1 (snd cf')).
Proof.
  apply (host_clears_only_ready_flags 1000000 50 (host_at_loop_entry 0) sample_shared).
  apply loop_head_sample.
Defined.

(** ** The host among the producers *)

(** The facts a successful statement gives: the statements that only
    touch the host's variables return the shared RAM they were given. *)
Ltac host_inv Hs :=
  let h1 := fresh "h1" in let s1 := fresh "s1" in
  let Hr := fresh "Hr" in let Heq := fresh "Heq" in
  first
    [ apply goto_Some in Hs as (h1 & s1 & Hr & Heq);
      inversion Heq; subst; clear Heq;
      match type of Hr with
      | clear_ready ?c _ _ = _ => idtac
      | ?c _ _ = _ =>
          let Hk := fresh in
          assert (Hk : keeps_shared c) by auto with frame;
          pose proof (Hk _ _ _ _ _ Hr); subst
      end
    | inversion Hs; subst; clear Hs ].

Lemma after_copy_in_drain (c : channel) (p : pc) :
  in_drain c p = false -> after_copy c p = false.
Proof. destruct p; simpl; auto. Qed.

Lemma env_step_ready (l : label) (s s' : Shared) (c : channel) :
  env_step l s s' ->
  (l = L_publish c /\ 1 <= ready c s' <= 2) \/
  (l <> L_publish c /\ ready c s' = ready c s).
Proof.
  intros [c0 s0 s1 Hr Hother _|s0 s1 Hsame _].
  - destruct (decide (c0 = c)) as [->|Hne]; [left; auto|].
    right. split; [congruence|]. apply Hother. congruence.
  - right. split; [discriminate|]. apply Hsame.
Qed.

Lemma observe_env (c : channel) (m : handoff) (p : pc) (l : label) (s s' : Shared) :
  handoff_inv c m p s -> env_step l s s' ->
  exists m', observe c m l = Some m' /\ handoff_inv c m' p s'.
Proof.
  intros Hinv Henv. destruct (env_step_ready l s s' c Henv) as [[-> Hr]|[Hl Hr]].
  - simpl. rewrite decide_True by reflexivity. eexists. split; [reflexivity|].
    destruct m; simpl in *; try exact Hinv.
    + destruct Hinv as [_ Hd]. split; [lia|]. apply after_copy_in_drain. exact Hd.
    + destruct Hinv as [_ Ha]. split; [lia|exact Ha].
  - exists m. split.
    + inversion Henv; subst; simpl; [|reflexivity].
      rewrite decide_False by congruence. reflexivity.
    + destruct m; simpl in *; rewrite ?Hr; exact Hinv.
Qed.

Lemma observe_host (CPS clk : Z) (c : channel) (m : handoff)
    (p : pc) (h : Host) (s : Shared) (p' : pc) (h' : Host) (s' : Shared)
    (e : list event) :
  handoff_inv c m p s ->
  host_step CPS clk (p, h, s) = Some ((p', h', s'), e) ->
  exists m', observe c m (L_host p) = Some m' /\ handoff_inv c m' p' s'.
Proof.
  intros Hinv Hs.
  destruct p as [| |c0|c0|c0| |c0|c0| |c0|c0|c0|c0| | | | | |]; simpl in Hs;
    host_inv Hs;
    try (destruct c0; inversion Hr; subst; clear Hr);
    try match goal with
        | |- context [is_ready ?c0 ?h ?s] =>
            unfold is_ready; destruct (Z.eqb_spec (ready c0 s) 0); simpl
        end;
    repeat match goal with
           | |- context [if ?b then _ else _] => destruct b
           end;
    destruct m, c; try destruct c0; simpl in Hinv |- *;
    try solve [exfalso; intuition (discriminate || congruence)];
    (eexists; split; [reflexivity|]); simpl;
    intuition (discriminate || congruence || auto).
Qed.

Lemma observe_all_snoc (c : channel) (tr : list label) :
  forall m l,
    observe_all c m (tr ++ [l]) =
    match observe_all c m tr with
    | Some m' => observe c m' l
    | None => None
    end.
Proof.
  induction tr as [|x tr IH]; intros m l; simpl.
  - destruct (observe c m l); reflexivity.
  - destruct (observe c m x); [apply IH|reflexivity].
Qed.

(** In every run the observer of a channel accepts, and its state agrees
    with the configuration reached. *)
Lemma handoff_run (CPS : Z) (c : channel) (cf0 : config) (tr : list label) (cf : config) :
  sys_run CPS cf0 tr cf ->
  handoff_inv c Idle (fst (fst cf0)) (snd cf0) ->
  exists m, observe_all c Idle tr = Some m /\ handoff_inv c m (fst (fst cf)) (snd cf).
Proof.
  intros Hrun H0. induction Hrun as [cf|cf tr cf1 l cf2 Hrun IH Hstep].
  - exists Idle. split; [reflexivity|exact H0].
  - destruct (IH H0) as (m & Hobs & Hinv). rewrite observe_all_snoc, Hobs.
    inversion Hstep as [clk p h s cf' e Hs|l0 p h s s' Henv]; subst;
      simpl in Hinv |- *.
    + destruct cf2 as [[p' h'] s']. eapply observe_host; eassumption.
    + eapply observe_env; eassumption.
Qed.

Lemma observe_counts (c : channel) (tr : list label) :
  forall m m',
    observe_all c m tr = Some m' ->
    (count_copies c tr + waiting m' <= count_publishes c tr + waiting m)%nat.
Proof.
  unfold count_copies, count_publishes.
  induction tr as [|l tr IH]; intros m m'; simpl.
  - intros H. inversion H. lia.
  - destruct (observe c m l) as [m1|] eqn:Ho; [|discriminate].
    intros H. specialize (IH m1 m' H).
    assert (Hl : ((if is_copy c l then 1 else 0) + waiting m1
                  <= (if is_publish c l then 1 else 0) + waiting m)%nat).
    { destruct l as [p|c0|].
      - destruct p as [| |c0|c0|c0| |c0|c0| |c0|c0|c0|c0| | | | | |];
          try (inversion Ho; subst; simpl; lia);
          destruct c, c0, m; inversion Ho; subst; simpl; lia.
      - destruct c, c0, m; inversion Ho; subst; simpl; lia.
      - inversion Ho; subst. simpl. lia. }
    lia.
Qed.

Lemma loop_entry_idle (c : channel) (cf : config) :
  loop_entry cf -> handoff_inv c Idle (fst (fst cf)) (snd cf).
Proof.
  destruct cf as [[p h] s]. intros (-> & _ & _ & _ & Hr). simpl. auto.
Qed.

(** One drain block. *)
Lemma drain_ready (c : channel) (h : Host) (s : Shared) :
  ready c s <> 0 -> 0 <= ready c s <= 2 ->
  two_slots s -> host_sized h -> fill_index c h = 0 ->
  exists h' e,
    drain c h s = Some (h', clear_flag c s, e) /\
    is_Some (slot_packet c s (ready c s - 1)) /\
    batch_packet c h' (fill_index c h) = slot_packet c s (ready c s - 1) /\
    fill_index c h' = fill_index c h + 1 /\
    ready c (clear_flag c s) = 0.
Proof.
  intros Hne Hr (He & Hl & Hx) (Hes & Hls & Hxs & _) Hi.
  destruct h as [ets lts rts tp off ei li ri ct et].
  destruct s as [o co er ep lr lp rr rp].
  destruct c; simpl in *; subst; shape_lists;
    match goal with
    | H : 0 <= ?r <= 2 |- _ => assert (r = 1 \/ r = 2) as [-> | ->] by lia
    end;
    eexists _, _; (split; [reflexivity|]); simpl; eauto.
Qed.

Lemma drain_idle (c : channel) (h : Host) (s : Shared) :
  ready c s = 0 -> drain c h s = Some (h, s, []).
Proof. intros Hr. unfold drain, when, is_ready. rewrite Hr. reflexivity. Qed.

(** The observer is not satisfied by everything: it rejects a second copy
    of one publication and an acknowledgment before the count. *)
Example observer_rejects_second_copy :
  observe_all Encoder Idle
    [L_publish Encoder; L_host (P_copy Encoder); L_host (P_inc Encoder);
     L_host (P_copy Encoder)] = None.
Proof. reflexivity. Qed.

Example observer_rejects_early_acknowledgment :
  observe_all Limit Idle
    [L_publish Limit; L_host (P_copy Limit); L_host (P_ack Limit)] = None.
Proof. reflexivity. Qed.

Example observer_accepts_drain :
  observe_all Limit Idle
    [L_publish Limit; L_host (P_test Limit); L_host (P_offset Limit);
     L_host (P_copy Limit); L_host P_print; L_publish Limit; L_host (P_inc Limit);
     L_host (P_ack Limit)] = Some Idle.
Proof. reflexivity. Qed.

(** ** Staying inside the arrays *)

Lemma loop_entry_safe (cf : config) : loop_entry cf -> safe_inv cf.
Proof.
  destruct cf as [[p h] s]. intros (-> & Hh & Hs & Hi & Hr).
  unfold safe_inv. split; [exact Hh|]. split; [exact Hs|]. split; [|split].
  - intros c. rewrite Hr. lia.
  - intros c. left. apply Hi.
  - exact I.
Qed.

Lemma safe_env (p : pc) (h : Host) (s s' : Shared) (l : label) :
  safe_inv (p, h, s) -> env_step l s s' -> safe_inv (p, h, s').
Proof.
  intros (Hh & (He & Hl & Hx) & Hr & Hb & Ha) Henv.
  assert (Hlay : same_layout s s') by (inversion Henv; assumption).
  destruct Hlay as (He' & Hl' & Hx').
  assert (Hrdy : forall c, 0 <= ready c s' <= 2 /\ (ready c s <> 0 -> ready c s' <> 0)).
  { intros c. destruct (env_step_ready l s s' c Henv) as [[_ H]|[_ H]].
    - split; lia.
    - rewrite H. split; [apply Hr|auto]. }
  unfold safe_inv. split; [exact Hh|]. split; [|split; [|split]].
  - unfold two_slots. repeat split; congruence.
  - intros c. apply Hrdy.
  - exact Hb.
  - destruct p; simpl in *; auto. apply Hrdy. exact Ha.
Qed.

Ltac unfold_statements H :=
  unfold goto, read_clock, take_offset, copy_packet, print_limit_state, bump_index,
    clear_ready, stamp_encoder_time, announce, sendto_batch, reset_index,
    announce_timeout, set_timeout_type, sendto_timeout, is_ready, is_full, timeout_due,
    array_get, array_set in H;
  simpl in H.

Ltac split_small v :=
  first [ assert (v = 0) by lia; subst v
        | assert (v = 0 \/ v = 1) as [-> | ->] by lia ].

Lemma safe_host (CPS clk : Z) (p : pc) (h : Host) (s : Shared)
    (cf' : config) (e : list event) :
  safe_inv (p, h, s) ->
  host_step CPS clk (p, h, s) = Some (cf', e) ->
  safe_inv cf'.
Proof.
  intros (Hh & Ht & Hr & Hb & Ha) Hs.
  pose proof (Hb Encoder) as Hb1. pose proof (Hb Limit) as Hb2.
  pose proof (Hb Error) as Hb3. pose proof (Hr Encoder) as Hr1.
  pose proof (Hr Limit) as Hr2. pose proof (Hr Error) as Hr3. clear Hb Hr.
  destruct h as [ets lts rts tp off ei li ri ct et].
  destruct s as [o co er ep lr lp rr rp].
  destruct Hh as (? & ? & ? & ?). destruct Ht as (? & ? & ?).
  unfold batch_ok in *. simpl in *. shape_lists.
  destruct p as [| |c0|c0|c0| |c0|c0| |c0|c0|c0|c0| | | | | |];
    try destruct c0; simpl in *;
    split_small ei; split_small li; split_small ri;
    try match type of Ha with
        | ?r <> 0 => assert (r = 1 \/ r = 2) as [-> | ->] by lia
        | 0 <= ?r <= 1 => assert (r = 0 \/ r = 1) as [-> | ->] by lia
        end;
    unfold_statements Hs;
    repeat match type of Hs with
           | context [if ?b then _ else _] => destruct b eqn:?
           end;
    inversion Hs; subst; clear Hs;
    change (ulong (0 + 1)) with 1 in *;
    change (ulong (1 - 1)) with 0 in *;
    change (ulong (2 - 1)) with 1 in *;
    unfold safe_inv, host_sized, two_slots, batch_ok, access_ok; simpl;
    repeat (match goal with |- _ /\ _ => split end);
    try reflexivity; try lia; try exact I;
    try (intros []; simpl; lia).
Qed.

Lemma safe_progress (CPS clk : Z) (cf : config) :
  safe_inv cf -> exists cf' e, host_step CPS clk cf = Some (cf', e).
Proof.
  destruct cf as [[p h] s]. intros (Hh & Ht & Hr & Hb & Ha).
  pose proof (Hb Encoder) as Hb1. pose proof (Hb Limit) as Hb2.
  pose proof (Hb Error) as Hb3. clear Hb Hr.
  destruct h as [ets lts rts tp off ei li ri ct et].
  destruct s as [o co er ep lr lp rr rp].
  destruct Hh as (? & ? & ? & ?). destruct Ht as (? & ? & ?).
  unfold batch_ok in *. simpl in *. shape_lists.
  destruct p as [| |c0|c0|c0| |c0|c0| |c0|c0|c0|c0| | | | | |];
    try destruct c0; simpl in *;
    try (split_small ei; split_small li; split_small ri;
         match type of Ha with
         | 0 <= ?r <= 1 => assert (r = 0 \/ r = 1) as [-> | ->] by lia
         end);
    eexists _, _; reflexivity.
Qed.

(** Every configuration a run reaches keeps the host inside its arrays. *)
Lemma safe_run (CPS : Z) (cf0 : config) (tr : list label) (cf : config) :
  loop_entry cf0 -> sys_run CPS cf0 tr cf -> safe_inv cf.
Proof.
  intros H0 Hrun. induction Hrun as [cf|cf tr cf1 l cf2 Hrun IH Hstep].
  - apply loop_entry_safe. exact H0.
  - specialize (IH H0).
    inversion Hstep as [clk p h s cf' e Hs|l0 p h s s' Henv]; subst.
    + eapply safe_host; eassumption.
    + eapply safe_env; eassumption.
Qed.

(** With a ready flag above 2 the copy reads outside the pair of slots:
    nothing stands between the flag and the index. *)
Lemma copy_outside_slots (c : channel) (h : Host) (s : Shared) :
  two_slots s -> 2 < ready c s < ULONG_MAX1 ->
  exists h1,
    take_offset c h s = Some (h1, s, []) /\
    offset h1 = ready c s - 1 /\
    copy_packet c h1 s = None.
Proof.
  intros (He & Hl & Hx) Hr. eexists. split; [reflexivity|]. simpl.
  assert (Hu : ulong (ready c s - 1) = ready c s - 1).
  { unfold ulong. apply Z.mod_small. lia. }
  split; [exact Hu|].
  destruct c; unfold copy_packet; simpl in *; rewrite Hu;
    rewrite array_get_out_of_range; try reflexivity; lia.
Qed.

(** ** The drain block, statement by statement *)

Lemma sys_run_cons (CPS : Z) (cf cf1 cf2 : config) (l : label) (tr : list label) :
  sys_step CPS cf l cf1 -> sys_run CPS cf1 tr cf2 -> sys_run CPS cf (l :: tr) cf2.
Proof.
  intros Hs Hr. induction Hr as [cf1|cf1 tr cf2 l' cf3 Hr IH Hs'].
  - apply (Run_snoc CPS cf [] cf l cf1); [apply Run_nil|exact Hs].
  - change (l :: tr ++ [l']) with ((l :: tr) ++ [l']).
    eapply Run_snoc; [apply IH; exact Hs|exact Hs'].
Qed.

Ltac host_runs :=
  eapply sys_run_cons; [eapply (Sys_host _ 0); reflexivity|].

Lemma loop_entry_idle_start : loop_entry (P_while, host_at_loop_entry 0, idle_shared).
Proof.
  unfold loop_entry, host_sized, two_slots. simpl.
  repeat (match goal with |- _ /\ _ => split end); try reflexivity;
    intros []; reflexivity.
Qed.

Lemma run_to_copy :
  sys_run 1000000 (P_while, host_at_loop_entry 0, idle_shared) trace_to_copy
    (P_copy Encoder, host_at_copy, publish_encoder_0 idle_shared).
Proof.
  unfold trace_to_copy.
  eapply sys_run_cons.
  { apply (Sys_env _ _ _ _ _ (publish_encoder_0 idle_shared)). apply Env_publish.
    - simpl. lia.
    - intros [] Hne; try reflexivity. contradiction.
    - repeat split. }
  do 4 host_runs. apply Run_nil.
Defined.

Lemma run_of_drain :
  sys_run 1000000 (P_while, host_at_loop_entry 0, idle_shared) trace_of_drain
    (P_stamp, host_after_drain, idle_shared).
Proof.
  unfold trace_of_drain, trace_to_copy. cbn [app].
  eapply sys_run_cons.
  { apply (Sys_env _ _ _ _ _ (publish_encoder_0 idle_shared)). apply Env_publish.
    - simpl. lia.
    - intros [] Hne; try reflexivity. contradiction.
    - repeat split. }
  do 7 host_runs. apply Run_nil.
Defined.

(** The statements of the drain block of [c], from a configuration in
    which the host is inside its arrays: offset, copy, count, reset. *)
Lemma drain_statements (CPS clk : Z) (c : channel) (cf : config) :
  safe_inv cf ->
  (fst (fst cf) = P_offset c ->
   exists h',
     host_step CPS clk cf = Some ((P_copy c, h', snd cf), []) /\
     offset h' = ready c (snd cf) - 1 /\ 0 <= offset h' <= 1) /\
  (fst (fst cf) = P_copy c ->
   exists h',
     host_step CPS clk cf
       = Some ((match c with Limit => P_print | _ => P_inc c end, h', snd cf), []) /\
     fill_index c (snd (fst cf)) = 0 /\
     is_Some (slot_packet c (snd cf) (offset (snd (fst cf)))) /\
     batch_packet c h' 0 = slot_packet c (snd cf) (offset (snd (fst cf))) /\
     fill_index c h' = 0) /\
  (fst (fst cf) = P_inc c ->
   exists h',
     host_step CPS clk cf = Some ((P_ack c, h', snd cf), []) /\
     fill_index c h' = 1 /\
     batch_packet c h' 0 = batch_packet c (snd (fst cf)) 0) /\
  (fst (fst cf) = P_ack c ->
   host_step CPS clk cf
     = Some ((match c with Encoder => P_stamp | _ => next_drain c end,
              snd (fst cf), clear_flag c (snd cf)), []) /\
   ready c (clear_flag c (snd cf)) = 0).
Proof.
  destruct cf as [[p h] s]. intros (Hh & Ht & Hr & Hb & Ha).
  pose proof (Hb c) as Hbc. pose proof (Hr c) as Hrc. clear Hb Hr.
  destruct h as [ets lts rts tp off ei li ri ct et].
  destruct s as [o co er ep lr lp rr rp].
  destruct Hh as (? & ? & ? & ?). destruct Ht as (? & ? & ?).
  unfold batch_ok in *. cbn [fst snd]. simpl in *. shape_lists.
  (split; [|split; [|split]]); intros ->; destruct c; simpl in *;
    try match type of Ha with
        | ?r <> 0 => assert (r = 1 \/ r = 2) as [-> | ->] by lia
        | 0 <= ?r <= 1 => assert (r = 0 \/ r = 1) as [-> | ->] by lia
        end;
    try match type of Hbc with
        | ?i = 0 \/ _ => assert (i = 0) by lia; subst i
        end;
    repeat eexists; simpl; try reflexivity; try lia;
    change (ulong (1 - 1)) with 0; change (ulong (2 - 1)) with 1; lia.
Qed.

(** C1: for each of the three channels, a drain block that finds the ready
    flag at r, not 0, copies the whole packet of slot r - 1 to the free
    position of the send batch, adds 1 to the fill count and then sets the
    flag to 0; with the flag at 0 it does nothing.  Whatever the producers
    publish and whenever they do it, the host acknowledges only after the
    copy and the count, and it copies only when a publication is pending
    since the last acknowledgment: no publication is drained twice, and
    there are never more copies than publications.  In every configuration
    such a run reaches, the statement of the drain block the host stands at
    executes and does its part: the offset is the flag less 1 and is 0 or
    1, the copy puts the packet of that slot at position 0 of the batch,
    the count makes the fill count 1, the reset puts 0 in the flag and
    touches nothing else. *)
Theorem drain_copies_then_acknowledges
    (CPS : Z) (c : channel) (cf0 : config) (tr : list label) (cf : config) :
  loop_entry cf0 ->
  sys_run CPS cf0 tr cf ->
  (exists m, observe_all c Idle tr = Some m /\
             handoff_inv c m (fst (fst cf)) (snd cf)) /\
  (count_copies c tr <= count_publishes c tr)%nat /\
  (forall h s,
     ready c s <> 0 -> 0 <= ready c s <= 2 ->
     two_slots s -> host_sized h -> fill_index c h = 0 ->
     exists h' e,
       drain c h s = Some (h', clear_flag c s, e) /\
       is_Some (slot_packet c s (ready c s - 1)) /\
       batch_packet c h' (fill_index c h) = slot_packet c s (ready c s - 1) /\
       fill_index c h' = fill_index c h + 1 /\
       ready c (clear_flag c s) = 0) /\
  (forall h s, ready c s = 0 -> drain c h s = Some (h, s, [])) /\
  (forall clk,
     (fst (fst cf) = P_offset c ->
      exists h',
        host_step CPS clk cf = Some ((P_copy c, h', snd cf), []) /\
        offset h' = ready c (snd cf) - 1 /\ 0 <= offset h' <= 1) /\
     (fst (fst cf) = P_copy c ->
      exists h',
        host_step CPS clk cf
          = Some ((match c with Limit => P_print | _ => P_inc c end, h', snd cf), []) /\
        fill_index c (snd (fst cf)) = 0 /\
        is_Some (slot_packet c (snd cf) (offset (snd (fst cf)))) /\
        batch_packet c h' 0 = slot_packet c (snd cf) (offset (snd (fst cf))) /\
        fill_index c h' = 0) /\
     (fst (fst cf) = P_inc c ->
      exists h',
        host_step CPS clk cf = Some ((P_ack c, h', snd cf), []) /\
        fill_index c h' = 1 /\
        batch_packet c h' 0 = batch_packet c (snd (fst cf)) 0) /\
     (fst (fst cf) = P_ack c ->
      host_step CPS clk cf
        = Some ((match c with Encoder => P_stamp | _ => next_drain c end,
                 snd (fst cf), clear_flag c (snd cf)), []) /\
      ready c (clear_flag c (snd cf)) = 0)).
Proof.
  intros H0 Hrun.
  destruct (handoff_run CPS c cf0 tr cf Hrun (loop_entry_idle c cf0 H0))
    as (m & Hobs & Hinv).
  split; [exists m; auto|]. split; [|split; [|split]].
  - pose proof (observe_counts c tr Idle m Hobs) as Hc. simpl in Hc. lia.
  - intros h s. apply drain_ready.
  - intros h s. apply drain_idle.
  - intros clk. apply drain_statements. eapply safe_run; eassumption.
Qed.

Lemma drain_copies_then_acknowledges_witness :
  (observe_all Encoder Idle trace_of_drain = Some Idle /\
   count_copies Encoder trace_of_drain = 1%nat /\
   count_publishes Encoder trace_of_drain = 1%nat /\
   ready Encoder idle_shared = 0) /\
  (exists h',
     host_step 1000000 0 (P_copy Encoder, host_at_copy, publish_encoder_0 idle_shared)
       = Some ((P_inc Encoder, h', publish_encoder_0 idle_shared), []) /\
     batch_packet Encoder h' 0 = Some (Pk_encoder (sample_packet 5)) /\
     batch_packet Encoder host_at_copy 0 = Some (Pk_encoder zero_EncoderInfo)) /\
  (exists h' e,
     drain Encoder (host_at_loop_entry 0) sample_shared
       = Some (h', clear_flag Encoder sample_shared, e) /\
     batch_packet Encoder h' 0 = Some (Pk_encoder (sample_packet 9)) /\
     fill_index Encoder h' = 1 /\
     ready Encoder (clear_flag Encoder sample_shared) = 0) /\
  drain Encoder (host_at_loop_entry 0) idle_shared
    = Some (host_at_loop_entry 0, idle_shared, []).
Proof.
  destruct (drain_copies_then_acknowledges 1000000 Encoder
              (P_while, host_at_loop_entry 0, idle_shared) trace_of_drain
              (P_stamp, host_after_drain, idle_shared)
              loop_entry_idle_start run_of_drain)
    as ((m & Hobs & Hinv) & Hcount & Hdrain & Hidle & _).
  destruct (drain_copies_then_acknowledges 1000000 Encoder
              (P_while, host_at_loop_entry 0, idle_shared) trace_to_copy
              (P_copy Encoder, host_at_copy, publish_encoder_0 idle_shared)
              loop_entry_idle_start run_to_copy)
    as (_ & _ & _ & _ & Hstep).
  split; [|split; [|split]].
  - assert (Hm : m = Idle) by (vm_compute in Hobs; congruence).
    subst m. destruct Hinv as [Hr _]. repeat split; try exact Hobs; try reflexivity.
  - destruct (Hstep 0) as (_ & Hcopy & _).
    destruct (Hcopy eq_refl) as (h' & Hs & _ & _ & Hb & _).
    cbn [fst snd] in Hs, Hb. exists h'. split; [exact Hs|]. split; [exact Hb|reflexivity].
  - destruct (Hdrain (host_at_loop_entry 0) sample_shared)
      as (h' & e & Hd & _ & Hb & Hf & Hr).
    + discriminate.
    + simpl. lia.
    + repeat split.
    + repeat split.
    + reflexivity.
    + exists h', e. split; [exact Hd|]. split; [exact Hb|]. split; [exact Hf|exact Hr].
  - apply Hidle. reflexivity.
Defined.

(** ** The encoder producer *)

Lemma ulong_small (z : Z) : 0 <= z < ULONG_MAX1 -> ulong z = z.
Proof. intros H. unfold ulong. apply Z.mod_small. exact H. Qed.

Lemma ulong_wrap (z : Z) :
  ULONG_MAX1 <= z < 2 * ULONG_MAX1 -> ulong z = z - ULONG_MAX1.
Proof.
  intros H. unfold ulong.
  replace z with ((z - ULONG_MAX1) + 1 * ULONG_MAX1) at 1 by ring.
  rewrite Z.mod_add by (unfold ULONG_MAX1; lia).
  apply Z.mod_small. lia.
Qed.

Lemma ulong_range (z : Z) : 0 <= ulong z < ULONG_MAX1.
Proof. unfold ulong. apply Z.mod_pos_bound. unfold ULONG_MAX1. lia. Qed.

Lemma flip_packet (q : Z) : 0 <= q <= 1 -> Z.land (Z.lxor q 1) 1 = 1 - q.
Proof. intros H. assert (q = 0 \/ q = 1) as [-> | ->] by lia; reflexivity. Qed.

Lemma array_get_insert_same {A} (a : list A) (i : Z) (x y : A) :
  array_get a i = Some x -> array_get (<[Z.to_nat i := y]> a) i = Some y.
Proof.
  intros H. apply array_get_Some in H as [Hi Hl]. apply array_get_Some.
  split; [exact Hi|]. apply list_lookup_insert_eq. eapply lookup_lt_Some. exact Hl.
Qed.

Lemma update_slot_Some {A} (a : list A) (i : Z) (f : A -> option A) (x y : A) :
  array_get a i = Some x -> f x = Some y ->
  update_slot a i f = Some (<[Z.to_nat i := y]> a).
Proof.
  intros Hg Hf. unfold update_slot. rewrite Hg. simpl. rewrite Hf. simpl.
  apply array_get_Some in Hg as [Hi Hl]. apply array_set_in_range.
  apply lookup_lt_Some in Hl. lia.
Qed.

Lemma check_overflow_frame (s : Shared) (t : IEP) :
  let r := GripperEncoder.check_overflow s t in
  encoder_packets (fst (fst r)) = encoder_packets s /\
  limit_packets (fst (fst r)) = limit_packets s /\
  error_packets (fst (fst r)) = error_packets s /\
  on (fst (fst r)) = on s /\
  (forall c, ready c (fst (fst r)) = ready c s) /\
  ready_writes Encoder (snd r) = [] /\
  (forall c q f, written c q f (snd r) = []).
Proof.
  unfold GripperEncoder.check_overflow.
  destruct (negb _); simpl; repeat split; intros []; reflexivity.
Qed.

(** One pass of the sampling loop, in closed form. *)
Lemma encoder_iteration_shape (inp : GripperEncoder.Input)
    (p : GripperEncoder.Pru) (s : Shared) (t : IEP) :
  encoder_ok (p, s, t) ->
  let q := GripperEncoder.packet p in
  let i := GripperEncoder.index p in
  let r := GripperEncoder.check_overflow s (iep_run (GripperEncoder.d_check inp) t) in
  let s1 := fst (fst r) in
  let t3 := iep_run (GripperEncoder.d_clock inp) (snd (fst r)) in
  let t4 := iep_run (GripperEncoder.d_overflow inp) t3 in
  let vc := tmr_cnt t3 in
  let vo := ulong (clock_overflow s1 + Z.land (tmr_sts t4) 1) in
  let vs := Z.land (GripperEncoder.r31 inp) GripperEncoder.pru_mask in
  exists e,
    array_get (encoder_packets s) q = Some e /\
    EncoderInfo_sized e /\
    let s4 := set_encoder_packets
                (<[Z.to_nat q := sample_into e i vc vo vs]> (encoder_packets s)) s1 in
    let a := GripperEncoder.advance p s4 in
    GripperEncoder.iteration inp (p, s, t) =
    Some ((fst (fst a), snd (fst a), iep_run GripperEncoder.DELAY_CYCLES t4),
          snd r ++ [W_slot Encoder q F_clock i vc;
                    W_slot Encoder q F_clock_overflow i vo;
                    W_slot Encoder q F_state i vs]
                ++ snd a).
Proof.
  intros (Hq & Hi & (He & _ & _) & Hsz). cbv zeta.
  assert (Hex : exists e, array_get (encoder_packets s) (GripperEncoder.packet p) = Some e).
  { apply array_get_in_range. rewrite He. lia. }
  destruct Hex as [e Hge]. exists e. split; [exact Hge|].
  assert (Hse : EncoderInfo_sized e).
  { apply array_get_Some in Hge as [_ Hl]. eapply Forall_lookup_1; eassumption. }
  split; [exact Hse|]. destruct Hse as (Hc & Ho & Hs).
  unfold ENCODER_COUNTER_SIZE in *.
  unfold GripperEncoder.iteration.
  pose proof (check_overflow_frame s (iep_run (GripperEncoder.d_check inp) t)) as Hco.
  cbv zeta in Hco.
  destruct (GripperEncoder.check_overflow s (iep_run (GripperEncoder.d_check inp) t))
    as [[s1 t2] w1]. destruct Hco as (Hp1 & _). simpl fst in *. simpl snd in *.
  set (q := GripperEncoder.packet p). set (i := GripperEncoder.index p).
  set (vc := tmr_cnt (iep_run (GripperEncoder.d_clock inp) t2)).
  unfold GripperEncoder.set_clock.
  rewrite (update_slot_Some _ q _ e
             (mkEncoderInfo (enc_header e) (<[Z.to_nat i := vc]> (enc_clock e))
                            (enc_clock_overflow e) (enc_state e)));
    [|rewrite Hp1; exact Hge|rewrite array_set_in_range by lia; reflexivity].
  cbn [mbind option_bind]. rewrite Hp1.
  set (vo := ulong (_ + _)).
  unfold GripperEncoder.set_clock_overflow_at. cbn [encoder_packets set_encoder_packets].
  rewrite (update_slot_Some _ q _ _
             (mkEncoderInfo (enc_header e) (<[Z.to_nat i := vc]> (enc_clock e))
                            (<[Z.to_nat i := vo]> (enc_clock_overflow e)) (enc_state e))
             (array_get_insert_same _ _ _ _ Hge));
    [|cbn [enc_clock_overflow enc_header enc_clock enc_state];
      rewrite array_set_in_range by lia; reflexivity].
  cbn [mbind option_bind]. rewrite list_insert_insert_eq.
  set (vs := Z.land _ _).
  unfold GripperEncoder.set_state. cbn [encoder_packets set_encoder_packets].
  rewrite (update_slot_Some _ q _ _ (sample_into e i vc vo vs)
             (array_get_insert_same _ _ _ _ Hge));
    [|cbn [enc_clock_overflow enc_header enc_clock enc_state];
      rewrite array_set_in_range by lia; reflexivity].
  cbn [mbind option_bind]. rewrite list_insert_insert_eq.
  match goal with
  | |- context [GripperEncoder.advance p ?x] =>
      change x with (set_encoder_packets
                       (<[Z.to_nat q := sample_into e i vc vo vs]> (encoder_packets s)) s1)
  end.
  destruct (GripperEncoder.advance p _) as [[p' s5] w2]. reflexivity.
Qed.

Lemma sample_into_sized (e : EncoderInfo) (i vc vo vs : Z) :
  EncoderInfo_sized e -> EncoderInfo_sized (sample_into e i vc vo vs).
Proof.
  intros (Hc & Ho & Hs). unfold EncoderInfo_sized, sample_into. simpl.
  rewrite !length_insert. auto.
Qed.

Lemma advance_spec (p : GripperEncoder.Pru) (s : Shared) :
  0 <= GripperEncoder.packet p <= 1 ->
  0 <= GripperEncoder.index p < ENCODER_COUNTER_SIZE ->
  GripperEncoder.advance p s =
  if completing p
  then (GripperEncoder.mkPru (1 - GripperEncoder.packet p) 0,
        set_encoder_ready (GripperEncoder.packet p + 1) s,
        [W_ready Encoder (GripperEncoder.packet p + 1)])
  else (GripperEncoder.mkPru (GripperEncoder.packet p) (GripperEncoder.index p + 1),
        s, []).
Proof.
  intros Hq Hi. unfold GripperEncoder.advance, completing, ENCODER_COUNTER_SIZE in *.
  rewrite (ulong_small (GripperEncoder.index p + 1)) by (unfold ULONG_MAX1; lia).
  destruct (_ =? 120); [|reflexivity].
  rewrite flip_packet by exact Hq.
  rewrite ulong_small by (unfold ULONG_MAX1; lia). reflexivity.
Qed.

(** One pass of the sampling loop stays inside the arrays, flips [packet]
    exactly when it completes a packet, and is for the host a step of its
    environment. *)
Lemma encoder_iteration_ok (inp : GripperEncoder.Input) (st : GripperEncoder.state) :
  encoder_ok st ->
  exists st' w,
    GripperEncoder.iteration inp st = Some (st', w) /\
    encoder_ok st' /\
    let p := fst (fst st) in
    let p' := fst (fst st') in
    GripperEncoder.packet p' =
      (if completing p then 1 - GripperEncoder.packet p else GripperEncoder.packet p) /\
    GripperEncoder.index p' =
      (if completing p then 0 else GripperEncoder.index p + 1) /\
    ready_writes Encoder w =
      (if completing p then [GripperEncoder.packet p + 1] else []) /\
    env_step (if completing p then L_publish Encoder else L_quiet)
             (snd (fst st)) (snd (fst st')).
Proof.
  destruct st as [[p s] t]. intros Hok.
  destruct (encoder_iteration_shape inp p s t Hok) as (e & Hge & Hse & Hit).
  cbv zeta in Hit. destruct Hok as (Hq & Hi & (He & Hl & Hx) & Hsz).
  pose proof (check_overflow_frame s (iep_run (GripperEncoder.d_check inp) t)) as Hco.
  cbv zeta in Hco.
  destruct (GripperEncoder.check_overflow s (iep_run (GripperEncoder.d_check inp) t))
    as [[s1 t2] w1]. simpl fst in *. simpl snd in *.
  destruct Hco as (Hp1 & Hl1 & Hx1 & Hon1 & Hr1 & Hw1 & Hwr1).
  rewrite advance_spec in Hit by assumption.
  eexists _, _. split; [exact Hit|]. cbn [fst snd].
  assert (Hrw : forall a b, ready_writes Encoder (a ++ b) =
                            ready_writes Encoder a ++ ready_writes Encoder b).
  { intros a b. induction a as [|x a IH]; simpl; [reflexivity|].
    destruct x; simpl; rewrite ?IH; try reflexivity.
    case_decide; simpl; rewrite ?IH; reflexivity. }
  destruct (completing p) eqn:Hcomp; cbn [fst snd].
  - split; [|split; [|split; [|split]]]; try reflexivity.
    + unfold encoder_ok. cbn. unfold two_slots. cbn.
      rewrite length_insert. unfold ENCODER_COUNTER_SIZE.
      repeat (match goal with |- _ /\ _ => split end); try lia; try congruence.
      apply Forall_insert; [exact Hsz|]. apply sample_into_sized. exact Hse.
    + rewrite Hrw, Hw1. reflexivity.
    + apply Env_publish.
      * cbn. lia.
      * intros c' Hc'. destruct c'; cbn; try contradiction;
          [apply (Hr1 Limit)|apply (Hr1 Error)].
      * unfold same_layout. cbn. rewrite length_insert. repeat split; congruence.
  - split; [|split; [|split; [|split]]]; try reflexivity.
    + unfold encoder_ok. cbn. unfold two_slots. cbn.
      rewrite length_insert. unfold completing, ENCODER_COUNTER_SIZE in *.
      repeat (match goal with |- _ /\ _ => split end); try lia; try congruence.
      apply Forall_insert; [exact Hsz|]. apply sample_into_sized. exact Hse.
    + rewrite Hrw, Hw1. reflexivity.
    + apply Env_quiet.
      * intros c'. destruct c'; cbn;
          [apply (Hr1 Encoder)|apply (Hr1 Limit)|apply (Hr1 Error)].
      * unfold same_layout. cbn. rewrite length_insert. repeat split; congruence.
Qed.

Lemma ready_writes_app (c : channel) (a b : list pwrite) :
  ready_writes c (a ++ b) = ready_writes c a ++ ready_writes c b.
Proof.
  induction a as [|x a IH]; simpl; [reflexivity|].
  destruct x; simpl; rewrite ?IH; try reflexivity.
  case_decide; simpl; rewrite ?IH; reflexivity.
Qed.

Lemma written_app (c : channel) (q : Z) (f : field) (a b : list pwrite) :
  written c q f (a ++ b) = written c q f a ++ written c q f b.
Proof.
  induction a as [|x a IH]; simpl; [reflexivity|].
  destruct x; simpl; rewrite ?IH; try reflexivity.
  case_decide; simpl; rewrite ?IH; reflexivity.
Qed.

Lemma alternating_range (q : Z) (n : nat) :
  0 <= q <= 1 -> Forall (fun v => 1 <= v <= 2) (alternating q n).
Proof.
  revert q. induction n as [|n IH]; intros q Hq; simpl; constructor.
  - lia.
  - apply IH. lia.
Qed.

(** The ready flag of the encoder is written once per 120 passes, with
    1, 2, 1, 2, ... *)
Lemma encoder_ready_alternates (inps : list GripperEncoder.Input) :
  forall st,
    encoder_ok st ->
    exists st' w,
      GripperEncoder.iterations inps st = Some (st', w) /\
      encoder_ok st' /\
      ready_writes Encoder w =
        alternating (GripperEncoder.packet (fst (fst st)))
          (Z.to_nat ((GripperEncoder.index (fst (fst st)) + Z.of_nat (length inps))
                     / ENCODER_COUNTER_SIZE)).
Proof.
  induction inps as [|inp rest IH]; intros st Hok.
  - exists st, []. split; [reflexivity|]. split; [exact Hok|].
    destruct st as [[p s] t]. destruct Hok as (_ & Hi & _). cbn [fst snd length].
    rewrite Z.add_0_r, Z.div_small by exact Hi. reflexivity.
  - destruct (encoder_iteration_ok inp st Hok)
      as (st1 & w1 & Hit & Hok1 & Hp1 & Hi1 & Hw1 & _).
    destruct (IH st1 Hok1) as (st2 & w2 & Hits & Hok2 & Hw2).
    exists st2, (w1 ++ w2). simpl. rewrite Hit, Hits.
    split; [reflexivity|]. split; [exact Hok2|].
    rewrite ready_writes_app, Hw1, Hw2, Hp1, Hi1.
    destruct st as [[p s] t]. destruct Hok as (Hq & Hi & _). cbn [fst snd] in *.
    unfold completing, ENCODER_COUNTER_SIZE in *.
    destruct (Z.eqb_spec (GripperEncoder.index p + 1) 120) as [Heq|Hne].
    + assert (Hd : (GripperEncoder.index p + Z.of_nat (S (length rest))) / 120
                   = 1 + (0 + Z.of_nat (length rest)) / 120).
      { rewrite <- Z.div_add_l by lia. f_equal. lia. }
      rewrite Hd, Z2Nat.inj_add by (try apply Z.div_pos; lia).
      reflexivity.
    + replace (GripperEncoder.index p + Z.of_nat (S (length rest)))
        with (GripperEncoder.index p + 1 + Z.of_nat (length rest)) by lia.
      reflexivity.
Qed.

(** What one pass stores: sample [index] of slot [packet], nothing in the
    other slot, and the ready flag last, if at all. *)
Lemma encoder_iteration_writes (inp : GripperEncoder.Input)
    (p : GripperEncoder.Pru) (s : Shared) (t : IEP) (e : EncoderInfo) :
  encoder_ok (p, s, t) ->
  let q := GripperEncoder.packet p in
  let i := GripperEncoder.index p in
  array_get (encoder_packets s) q = Some e ->
  exists p' s' t' front e1,
    GripperEncoder.iteration inp (p, s, t) =
      Some ((p', s', t'),
            front ++ (if completing p then [W_ready Encoder (q + 1)] else [])) /\
    ready_writes Encoder front = [] /\
    array_get (encoder_packets s') q = Some e1 /\
    array_get (encoder_packets s') (1 - q) = array_get (encoder_packets s) (1 - q) /\
    enc_header e1 = enc_header e /\
    (forall f, f <> F_header ->
       exists v, written Encoder q f front = [(i, v)] /\
                 member f e1 = <[Z.to_nat i := v]> (member f e)) /\
    (forall f, written Encoder (1 - q) f front = []) /\
    encoder_ready s' = (if completing p then q + 1 else encoder_ready s).
Proof.
  intros Hok q i Hge.
  destruct (encoder_iteration_shape inp p s t Hok) as (e0 & Hge0 & Hse & Hit).
  fold q in Hge0. rewrite Hge in Hge0. inversion Hge0; subst e0; clear Hge0.
  cbv zeta in Hit. destruct Hok as (Hq & Hi & (He & Hl & Hx) & Hsz).
  pose proof (check_overflow_frame s (iep_run (GripperEncoder.d_check inp) t)) as Hco.
  cbv zeta in Hco.
  destruct (GripperEncoder.check_overflow s (iep_run (GripperEncoder.d_check inp) t))
    as [[s1 t2] w1]. simpl fst in *. simpl snd in *.
  destruct Hco as (Hp1 & Hl1 & Hx1 & Hon1 & Hr1 & Hw1 & Hwr1).
  rewrite advance_spec in Hit by assumption.
  fold q i in Hit.
  set (vc := tmr_cnt (iep_run (GripperEncoder.d_clock inp) t2)) in Hit.
  set (vo := ulong (clock_overflow s1 + _)) in Hit.
  set (vs := Z.land (GripperEncoder.r31 inp) GripperEncoder.pru_mask) in Hit.
  set (front := w1 ++ [W_slot Encoder q F_clock i vc;
                       W_slot Encoder q F_clock_overflow i vo;
                       W_slot Encoder q F_state i vs]).
  assert (Hfront : ready_writes Encoder front = []).
  { unfold front. rewrite ready_writes_app, Hw1. reflexivity. }
  assert (Hsame : array_get (<[Z.to_nat q := sample_into e i vc vo vs]> (encoder_packets s)) q
                  = Some (sample_into e i vc vo vs)).
  { eapply array_get_insert_same. exact Hge. }
  assert (Hother : array_get (<[Z.to_nat q := sample_into e i vc vo vs]> (encoder_packets s))
                     (1 - q) = array_get (encoder_packets s) (1 - q)).
  { unfold array_get. destruct (0 <=? 1 - q); [|reflexivity].
    apply list_lookup_insert_ne. lia. }
  assert (Hwq : forall f, f <> F_header ->
            exists v, written Encoder q f front = [(i, v)] /\
                      member f (sample_into e i vc vo vs) = <[Z.to_nat i := v]> (member f e)).
  { intros f Hf. unfold front. rewrite written_app, Hwr1. simpl.
    destruct f; try contradiction; simpl;
      repeat (case_decide; try (exfalso; intuition congruence)); eauto. }
  assert (Hwo : forall f, written Encoder (1 - q) f front = []).
  { intros f. unfold front. rewrite written_app, Hwr1. simpl.
    repeat (case_decide; try (exfalso; intuition lia)). reflexivity. }
  destruct (completing p) eqn:Hcomp; cbn [fst snd] in Hit.
  - eexists _, _, _, front, _. split.
    { rewrite Hit. f_equal. f_equal. unfold front. rewrite <- app_assoc. reflexivity. }
    cbn. repeat (match goal with |- _ /\ _ => split end); eauto.
  - eexists _, _, _, front, _. split.
    { rewrite Hit. f_equal. f_equal. unfold front. rewrite !app_nil_r. reflexivity. }
    cbn. repeat (match goal with |- _ /\ _ => split end); eauto.
    apply (Hr1 Encoder).
Qed.

Lemma member_length (f : field) (e : EncoderInfo) :
  f <> F_header -> EncoderInfo_sized e -> length (member f e) = 120%nat.
Proof. intros Hf (Hc & Ho & Hs). destruct f; try contradiction; assumption. Qed.

Lemma take_S_insert {A} (l : list A) (i : nat) (v : A) :
  (i < length l)%nat -> take (S i) (<[i := v]> l) = take i l ++ [v].
Proof.
  intros Hi. rewrite (take_S_r _ _ v) by (apply list_lookup_insert_eq; exact Hi).
  rewrite take_insert_ge by lia. reflexivity.
Qed.

Lemma insert_last {A} (l : list A) (i : nat) (v : A) :
  length l = S i -> <[i := v]> l = take i l ++ [v].
Proof.
  intros Hl. rewrite <- (take_S_insert l i v) by lia.
  rewrite take_ge; [reflexivity|]. rewrite length_insert. lia.
Qed.

Lemma encoder_slot_sized (p : GripperEncoder.Pru) (s : Shared) (t : IEP)
    (q : Z) (e : EncoderInfo) :
  encoder_ok (p, s, t) -> array_get (encoder_packets s) q = Some e ->
  EncoderInfo_sized e.
Proof.
  intros (_ & _ & _ & Hsz) Hge. apply array_get_Some in Hge as [_ Hl].
  eapply Forall_lookup_1; eassumption.
Qed.

(** Filling a packet: the passes from [index] up to 119 store samples
    [index], ..., 119 of slot [packet] in order, store nothing in the other
    slot, and the store to the ready flag is the last one. *)
Lemma encoder_fill (n : nat) :
  forall inps p s t e,
    length inps = S n ->
    encoder_ok (p, s, t) ->
    GripperEncoder.index p + Z.of_nat (S n) = ENCODER_COUNTER_SIZE ->
    array_get (encoder_packets s) (GripperEncoder.packet p) = Some e ->
    exists p' s' t' body e',
      GripperEncoder.iterations inps (p, s, t) =
        Some ((p', s', t'), body ++ [W_ready Encoder (GripperEncoder.packet p + 1)]) /\
      encoder_ok (p', s', t') /\
      ready_writes Encoder body = [] /\
      GripperEncoder.packet p' = 1 - GripperEncoder.packet p /\
      GripperEncoder.index p' = 0 /\
      encoder_ready s' = GripperEncoder.packet p + 1 /\
      array_get (encoder_packets s') (GripperEncoder.packet p) = Some e' /\
      array_get (encoder_packets s') (1 - GripperEncoder.packet p) =
        array_get (encoder_packets s) (1 - GripperEncoder.packet p) /\
      enc_header e' = enc_header e /\
      (forall f, f <> F_header ->
         map fst (written Encoder (GripperEncoder.packet p) f body) =
           seqZ (GripperEncoder.index p) (Z.of_nat (S n)) /\
         member f e' =
           take (Z.to_nat (GripperEncoder.index p)) (member f e) ++
           map snd (written Encoder (GripperEncoder.packet p) f body)) /\
      (forall f, written Encoder (1 - GripperEncoder.packet p) f body = []).
Proof.
  unfold ENCODER_COUNTER_SIZE.
  induction n as [|n IH]; intros inps p s t e Hlen Hok Hidx Hge.
  - destruct inps as [|inp [|]]; try discriminate Hlen.
    pose proof (encoder_slot_sized _ _ _ _ _ Hok Hge) as Hse.
    destruct (encoder_iteration_writes inp p s t e Hok Hge)
      as (p' & s' & t' & front & e1 & Hit & Hfr & Hg1 & Hg2 & Hhd & Hwq & Hwo & Hrd).
    destruct (encoder_iteration_ok inp (p, s, t) Hok)
      as (st1 & w1 & Hit' & Hok1 & Hp1 & Hi1 & _).
    rewrite Hit in Hit'. inversion Hit'; subst st1 w1; clear Hit'.
    cbn [fst snd] in *.
    assert (Hc : completing p = true).
    { unfold completing, ENCODER_COUNTER_SIZE. apply Z.eqb_eq. lia. }
    rewrite Hc in *.
    exists p', s', t', front, e1.
    cbn [GripperEncoder.iterations]. rewrite Hit. cbn [GripperEncoder.iterations].
    rewrite app_nil_r.
    repeat (match goal with |- _ /\ _ => split end); auto.
    intros f Hf. destruct (Hwq f Hf) as (v & Hw & Hm). rewrite Hw, Hm. simpl.
    split.
    + rewrite seqZ_cons by lia. rewrite seqZ_nil by lia. reflexivity.
    + apply insert_last. rewrite member_length by assumption. lia.
  - destruct inps as [|inp rest]; try discriminate Hlen.
    assert (Hlen' : length rest = S n) by (simpl in Hlen; lia).
    pose proof (encoder_slot_sized _ _ _ _ _ Hok Hge) as Hse.
    destruct (encoder_iteration_writes inp p s t e Hok Hge)
      as (p1 & s1 & t1 & front & e1 & Hit & Hfr & Hg1 & Hg2 & Hhd & Hwq & Hwo & Hrd).
    destruct (encoder_iteration_ok inp (p, s, t) Hok)
      as (st1 & w1 & Hit' & Hok1 & Hp1 & Hi1 & _).
    rewrite Hit in Hit'. inversion Hit'; subst st1 w1; clear Hit'.
    cbn [fst snd] in *.
    assert (Hc : completing p = false).
    { unfold completing, ENCODER_COUNTER_SIZE. apply Z.eqb_neq. lia. }
    rewrite Hc in *. rewrite <- Hp1 in Hg1.
    destruct (IH rest p1 s1 t1 e1 Hlen' Hok1 ltac:(lia) Hg1)
      as (p' & s' & t' & body & e' & Hits & Hok' & Hrb & Hp' & Hi' & Hrd' & Hg' & Hgo'
          & Hhd' & Hw' & Hwo').
    rewrite Hp1 in *.
    exists p', s', t', (front ++ body), e'.
    cbn [GripperEncoder.iterations]. rewrite Hit, Hits.
    split; [rewrite app_nil_r, app_assoc; reflexivity|].
    repeat (match goal with |- _ /\ _ => split end); auto; try congruence.
    + rewrite ready_writes_app, Hfr, Hrb. reflexivity.
    + intros f Hf. destruct (Hwq f Hf) as (v & Hw & Hm).
      destruct (Hw' f Hf) as (Hs' & Hm'). rewrite written_app, Hw. simpl.
      rewrite Hs', Hm', Hm, Hi1. split.
      * rewrite (seqZ_cons _ (Z.of_nat (S (S n)))) by lia. f_equal. f_equal; lia.
      * replace (Z.to_nat (GripperEncoder.index p + 1))
          with (S (Z.to_nat (GripperEncoder.index p))) by (destruct Hok; lia).
        rewrite take_S_insert, <- app_assoc; [reflexivity|].
        rewrite member_length by assumption. destruct Hok. lia.
    + intros f. rewrite written_app, Hwo, Hwo'. reflexivity.
Qed.

(** ** The limit-switch producer *)

(** One pass of the polling loop, in closed form. *)
Lemma limit_iteration_shape (inp : LimitSwitches.Input)
    (p : LimitSwitches.Pru) (s : Shared) (t : IEP) :
  limit_ok (p, s, t) ->
  let q := LimitSwitches.packet p in
  let t1 := iep_run (LimitSwitches.d_clock inp) t in
  let t2 := iep_run (LimitSwitches.d_overflow inp) t1 in
  let vc := tmr_cnt t1 in
  let vo := ulong (clock_overflow s + Z.land (tmr_sts t2) 1) in
  let vs := LimitSwitches.active (LimitSwitches.r31_state inp) in
  exists l,
    array_get (limit_packets s) q = Some l /\
    LimitSwitches.iteration inp (p, s, t) =
    if LimitSwitches.active (LimitSwitches.r31_test inp) =? 0
    then Some ((p, s, t), [])
    else Some ((LimitSwitches.mkPru (1 - q),
                set_limit_ready (q + 1)
                  (set_limit_packets
                     (<[Z.to_nat q := mkLimitInfo (lim_header l) vc vo vs]>
                        (limit_packets s)) s),
                iep_run LimitSwitches.DELAY_CYCLES t2),
               [W_slot Limit q F_clock 0 vc;
                W_slot Limit q F_clock_overflow 0 vo;
                W_slot Limit q F_state 0 vs;
                W_ready Limit (q + 1)]).
Proof.
  intros (Hq & (_ & Hl & _)). cbv zeta.
  destruct p as [q]. cbn [LimitSwitches.packet] in *.
  destruct s as [o co er ep lr lp rr rp]. cbn [limit_packets] in *.
  destruct lp as [|l0 [|l1 [|]]]; try discriminate Hl.
  unfold LimitSwitches.iteration.
  assert (q = 0 \/ q = 1) as [-> | ->] by lia;
    [exists l0|exists l1]; (split; [reflexivity|]);
    destruct (LimitSwitches.active (LimitSwitches.r31_test inp) =? 0);
    reflexivity.
Qed.

Lemma limit_iteration_ok (inp : LimitSwitches.Input) (st : LimitSwitches.state) :
  limit_ok st ->
  exists st' w,
    LimitSwitches.iteration inp st = Some (st', w) /\
    limit_ok st' /\
    let p := fst (fst st) in
    let p' := fst (fst st') in
    let closed := negb (LimitSwitches.active (LimitSwitches.r31_test inp) =? 0) in
    LimitSwitches.packet p' =
      (if closed then 1 - LimitSwitches.packet p else LimitSwitches.packet p) /\
    ready_writes Limit w = (if closed then [LimitSwitches.packet p + 1] else []) /\
    counter_writes w = [] /\
    clock_overflow (snd (fst st')) = clock_overflow (snd (fst st)) /\
    env_step (if closed then L_publish Limit else L_quiet)
             (snd (fst st)) (snd (fst st')).
Proof.
  destruct st as [[p s] t]. intros Hok.
  destruct (limit_iteration_shape inp p s t Hok) as (l & Hgl & Hit).
  cbv zeta in Hit. destruct Hok as (Hq & (He & Hl & Hx)).
  destruct (LimitSwitches.active (LimitSwitches.r31_test inp) =? 0) eqn:Hact;
    eexists _, _; (split; [exact Hit|]); cbv zeta; cbn [fst snd negb].
  - split; [exact (conj Hq (conj He (conj Hl Hx)))|].
    repeat (match goal with |- _ /\ _ => split end); try reflexivity.
    apply Env_quiet; [reflexivity|]. repeat split.
  - split.
    { unfold limit_ok, two_slots.
      cbn [LimitSwitches.packet limit_packets encoder_packets error_packets
           set_limit_ready set_limit_packets].
      rewrite length_insert. split; [lia|]. repeat split; assumption. }
    cbn [LimitSwitches.packet].
    repeat (match goal with |- _ /\ _ => split end); try reflexivity.
    apply Env_publish.
    + cbn [ready limit_ready set_limit_ready]. lia.
    + intros [] Hc; try reflexivity. contradiction.
    + unfold same_layout.
      cbn [limit_packets encoder_packets error_packets set_limit_ready set_limit_packets].
      rewrite length_insert. repeat split.
Qed.

(** The ready flag of the limit switches is written once per pass that
    sees a switch closed, with 1, 2, 1, 2, ... *)
Lemma limit_ready_alternates (inps : list LimitSwitches.Input) :
  forall st,
    limit_ok st ->
    exists st' w,
      LimitSwitches.iterations inps st = Some (st', w) /\
      limit_ok st' /\
      ready_writes Limit w =
        alternating (LimitSwitches.packet (fst (fst st))) (active_passes inps) /\
      counter_writes w = [] /\
      clock_overflow (snd (fst st')) = clock_overflow (snd (fst st)).
Proof.
  induction inps as [|inp rest IH]; intros st Hok.
  - exists st, []. repeat split; auto.
  - destruct (limit_iteration_ok inp st Hok)
      as (st1 & w1 & Hit & Hok1 & Hp1 & Hw1 & Hc1 & Hco1 & _).
    destruct (IH st1 Hok1) as (st2 & w2 & Hits & Hok2 & Hw2 & Hc2 & Hco2).
    exists st2, (w1 ++ w2). cbn [LimitSwitches.iterations]. rewrite Hit, Hits.
    split; [reflexivity|]. split; [exact Hok2|].
    assert (Hcw : forall a b, counter_writes (a ++ b) = counter_writes a ++ counter_writes b).
    { intros a b. induction a as [|x a IHa]; simpl; [reflexivity|].
      destruct x; simpl; rewrite ?IHa; reflexivity. }
    rewrite ready_writes_app, Hcw, Hw1, Hw2, Hc1, Hc2, Hp1, Hco2, Hco1.
    repeat split. cbn [active_passes].
    destruct (LimitSwitches.active (LimitSwitches.r31_test inp) =? 0); reflexivity.
Qed.

(** ** Start of the producers *)

Lemma two_slots_index {A} (a : list A) (j : Z) (x : A) :
  length a = 2%nat -> array_get a j = Some x -> j = 0 \/ j = 1.
Proof.
  intros Hl Hg. apply array_get_Some in Hg as [Hj Hx].
  apply lookup_lt_Some in Hx. lia.
Qed.

Lemma encoder_start_ok (s : Shared) (t : IEP) :
  two_slots s -> Forall EncoderInfo_sized (encoder_packets s) ->
  exists s',
    GripperEncoder.start s t =
      Some ((GripperEncoder.mkPru 0 0, s', iep_write_sts 1 t),
            [W_ready Encoder 0; W_counter 0;
             W_slot Encoder 0 F_header 0 ENCODER_HEADER;
             W_slot Encoder 1 F_header 0 ENCODER_HEADER]) /\
    encoder_ok (GripperEncoder.mkPru 0 0, s', iep_write_sts 1 t) /\
    encoder_headers s' /\
    encoder_ready s' = 0 /\ clock_overflow s' = 0.
Proof.
  intros (He & Hl & Hx) Hsz. destruct s as [o co er ep lr lp rr rp]. simpl in *.
  destruct ep as [|e0 [|e1 [|]]]; try discriminate He.
  apply Forall_cons in Hsz as [H0 Hsz]. apply Forall_cons in Hsz as [H1 _].
  eexists. split; [reflexivity|]. split; [|split; [|split; reflexivity]].
  - unfold encoder_ok, two_slots. simpl. unfold ENCODER_COUNTER_SIZE.
    repeat (match goal with |- _ /\ _ => split end); try lia; try assumption.
    apply List.Forall_cons; [exact H0|].
    apply List.Forall_cons; [exact H1|apply List.Forall_nil].
  - intros j e Hg. simpl in Hg.
    assert (Hj : j = 0 \/ j = 1) by (eapply two_slots_index; [|exact Hg]; reflexivity).
    destruct Hj as [-> | ->]; inversion Hg; reflexivity.
Qed.

Lemma limit_start_ok (s : Shared) (t : IEP) :
  two_slots s ->
  exists s',
    LimitSwitches.start s t =
      Some ((LimitSwitches.mkPru 0, s', iep_write_sts 1 t),
            [W_ready Limit 0;
             W_slot Limit 0 F_header 0 LIMIT_HEADER;
             W_slot Limit 1 F_header 0 LIMIT_HEADER]) /\
    limit_ok (LimitSwitches.mkPru 0, s', iep_write_sts 1 t) /\
    limit_headers s' /\
    limit_ready s' = 0 /\ clock_overflow s' = clock_overflow s.
Proof.
  intros (He & Hl & Hx). destruct s as [o co er ep lr lp rr rp]. simpl in *.
  destruct lp as [|l0 [|l1 [|]]]; try discriminate Hl.
  eexists. split; [reflexivity|]. split; [|split; [|split; reflexivity]].
  - unfold limit_ok, two_slots. simpl. repeat split; try lia; assumption.
  - intros j l Hg. simpl in Hg.
    assert (Hj : j = 0 \/ j = 1) by (eapply two_slots_index; [|exact Hg]; reflexivity).
    destruct Hj as [-> | ->]; inversion Hg; reflexivity.
Qed.

Lemma encoder_headers_kept (inp : GripperEncoder.Input)
    (st st' : GripperEncoder.state) (w : list pwrite) :
  encoder_ok st -> encoder_headers (snd (fst st)) ->
  GripperEncoder.iteration inp st = Some (st', w) ->
  encoder_headers (snd (fst st')).
Proof.
  destruct st as [[p s] t]. intros Hok Hh Hit. cbn [fst snd] in *.
  assert (Hex : exists e, array_get (encoder_packets s) (GripperEncoder.packet p) = Some e).
  { destruct Hok as (Hq & _ & (He & _) & _). apply array_get_in_range. rewrite He. lia. }
  destruct Hex as [e Hge].
  destruct (encoder_iteration_writes inp p s t e Hok Hge)
    as (p' & s' & t' & front & e1 & Hit' & _ & Hg1 & Hg2 & Hhd & _).
  rewrite Hit in Hit'. inversion Hit'; subst. cbn [fst snd].
  destruct (encoder_iteration_ok inp (p, s, t) Hok) as (st1 & w1 & Hit1 & Hok1 & _).
  rewrite Hit in Hit1. inversion Hit1; subst.
  destruct Hok1 as (_ & _ & (He1 & _) & _). destruct Hok as (Hq & _).
  intros j x Hg.
  assert (Hj : j = GripperEncoder.packet p \/ j = 1 - GripperEncoder.packet p).
  { destruct (two_slots_index _ j x He1 Hg); lia. }
  destruct Hj as [-> | ->].
  - rewrite Hg in Hg1. inversion Hg1; subst. rewrite Hhd. eapply Hh. exact Hge.
  - rewrite Hg2 in Hg. eapply Hh. exact Hg.
Qed.

Lemma encoder_iterations_headers (inps : list GripperEncoder.Input) :
  forall st st' w,
    encoder_ok st -> encoder_headers (snd (fst st)) ->
    GripperEncoder.iterations inps st = Some (st', w) ->
    encoder_headers (snd (fst st')).
Proof.
  induction inps as [|inp rest IH]; intros st st' w Hok Hh; cbn [GripperEncoder.iterations].
  - intros H. inversion H; subst. exact Hh.
  - destruct (encoder_iteration_ok inp st Hok) as (st1 & w1 & Hit & Hok1 & _).
    rewrite Hit.
    destruct (GripperEncoder.iterations rest st1) as [[st2 w2]|] eqn:Hits.
    + intros Heq. inversion Heq; subst.
      eapply IH; [exact Hok1| |exact Hits].
      apply (encoder_headers_kept inp st st1 w1); assumption.
    + intros Heq. inversion Heq.
Qed.

(** C5: a producer sets the ready flag of its channel only to slot + 1,
    after it has stored every member of that slot, and the slots it
    completes are 0, 1, 0, 1, ...: from its start the encoder producer
    writes 0, then 1, 2, 1, 2, ... to its flag, once per 120 passes, and the
    limit producer 0, then 1, 2, 1, 2, ..., once per pass that sees a switch
    closed; the flags hold only 0, 1 and 2.  The 120 passes that fill an
    encoder packet store samples 0 to 119 of the three arrays of that slot
    in order, nothing in the other slot, and the ready flag last; the
    header of both slots is the one stored at the start.  A pass of the
    limit producer stores clock, overflow count and state of its slot, then
    the flag. *)
Theorem producers_publish_alternately
    (s : Shared) (t : IEP)
    (enc_inps : list GripperEncoder.Input) (lim_inps : list LimitSwitches.Input) :
  two_slots s ->
  Forall EncoderInfo_sized (encoder_packets s) ->
  (exists st0 w0 st w,
     GripperEncoder.start s t = Some (st0, w0) /\
     GripperEncoder.iterations enc_inps st0 = Some (st, w) /\
     ready_writes Encoder (w0 ++ w) =
       0 :: alternating 0 (Z.to_nat (Z.of_nat (length enc_inps) / ENCODER_COUNTER_SIZE)) /\
     Forall (fun v => 0 <= v <= 2) (ready_writes Encoder (w0 ++ w)) /\
     encoder_headers (snd (fst st)) /\
     encoder_ok st) /\
  (exists st0 w0 st w,
     LimitSwitches.start s t = Some (st0, w0) /\
     LimitSwitches.iterations lim_inps st0 = Some (st, w) /\
     ready_writes Limit (w0 ++ w) = 0 :: alternating 0 (active_passes lim_inps) /\
     Forall (fun v => 0 <= v <= 2) (ready_writes Limit (w0 ++ w)) /\
     limit_ok st) /\
  (forall inps p s1 t1 e,
     length inps = 120%nat ->
     encoder_ok (p, s1, t1) ->
     GripperEncoder.index p = 0 ->
     array_get (encoder_packets s1) (GripperEncoder.packet p) = Some e ->
     exists p' s' t' body e',
       GripperEncoder.iterations inps (p, s1, t1) =
         Some ((p', s', t'), body ++ [W_ready Encoder (GripperEncoder.packet p + 1)]) /\
       ready_writes Encoder body = [] /\
       GripperEncoder.packet p' = 1 - GripperEncoder.packet p /\
       GripperEncoder.index p' = 0 /\
       encoder_ready s' = GripperEncoder.packet p + 1 /\
       array_get (encoder_packets s') (GripperEncoder.packet p) = Some e' /\
       enc_header e' = enc_header e /\
       (forall f, f <> F_header ->
          map fst (written Encoder (GripperEncoder.packet p) f body) = seqZ 0 120 /\
          member f e' = map snd (written Encoder (GripperEncoder.packet p) f body)) /\
       (forall f, written Encoder (1 - GripperEncoder.packet p) f body = [])) /\
  (forall inp p s1 t1,
     limit_ok (p, s1, t1) ->
     LimitSwitches.active (LimitSwitches.r31_test inp) <> 0 ->
     exists l vc vo vs s' t',
       array_get (limit_packets s1) (LimitSwitches.packet p) = Some l /\
       LimitSwitches.iteration inp (p, s1, t1) =
         Some ((LimitSwitches.mkPru (1 - LimitSwitches.packet p), s', t'),
               [W_slot Limit (LimitSwitches.packet p) F_clock 0 vc;
                W_slot Limit (LimitSwitches.packet p) F_clock_overflow 0 vo;
                W_slot Limit (LimitSwitches.packet p) F_state 0 vs;
                W_ready Limit (LimitSwitches.packet p + 1)]) /\
       array_get (limit_packets s') (LimitSwitches.packet p) =
         Some (mkLimitInfo (lim_header l) vc vo vs) /\
       limit_ready s' = LimitSwitches.packet p + 1).
Proof.
  intros Hts Hsz. split; [|split; [|split]].
  - destruct (encoder_start_ok s t Hts Hsz) as (s0 & Hst & Hok0 & Hh0 & _).
    destruct (encoder_ready_alternates enc_inps _ Hok0)
      as (st & w & Hits & Hok & Hw).
    cbn [fst snd GripperEncoder.packet GripperEncoder.index] in Hw.
    rewrite Z.add_0_l in Hw.
    eexists _, _, st, w. split; [exact Hst|]. split; [exact Hits|].
    rewrite ready_writes_app, Hw. split; [reflexivity|]. split; [|split].
    + simpl. constructor; [lia|].
      eapply Forall_impl; [apply alternating_range; lia|]. simpl. intros. lia.
    + eapply encoder_iterations_headers; [exact Hok0|exact Hh0|exact Hits].
    + exact Hok.
  - destruct (limit_start_ok s t Hts) as (s0 & Hst & Hok0 & _).
    destruct (limit_ready_alternates lim_inps _ Hok0)
      as (st & w & Hits & Hok & Hw & _).
    cbn [fst snd LimitSwitches.packet] in Hw.
    eexists _, _, st, w. split; [exact Hst|]. split; [exact Hits|].
    rewrite ready_writes_app, Hw. split; [reflexivity|]. split; [|exact Hok].
    simpl. constructor; [lia|].
    eapply Forall_impl; [apply alternating_range; lia|]. simpl. intros. lia.
  - intros inps p s1 t1 e Hlen Hok Hi Hge.
    destruct (encoder_fill 119 inps p s1 t1 e Hlen Hok) as
      (p' & s' & t' & body & e' & Hits & _ & Hrb & Hp' & Hi' & Hrd & Hg' & _ & Hhd & Hw & Hwo);
      [rewrite Hi; reflexivity|exact Hge|].
    exists p', s', t', body, e'.
    repeat (match goal with |- _ /\ _ => split end); auto.
    intros f Hf. destruct (Hw f Hf) as [Hs Hm]. rewrite Hi in *.
    split; [exact Hs|]. rewrite Hm. reflexivity.
  - intros inp p s1 t1 Hok Hact.
    destruct (limit_iteration_shape inp p s1 t1 Hok) as (l & Hgl & Hit).
    cbv zeta in Hit.
    destruct (Z.eqb_spec (LimitSwitches.active (LimitSwitches.r31_test inp)) 0);
      [contradiction|].
    eexists l, _, _, _, _, _. split; [exact Hgl|]. split; [exact Hit|].
    split; [|reflexivity].
    cbn [limit_packets set_limit_ready set_limit_packets].
    eapply array_get_insert_same. exact Hgl.
Qed.

Lemma idle_shared_sized : Forall EncoderInfo_sized (encoder_packets idle_shared).
Proof.
  apply List.Forall_cons; [repeat split|].
  apply List.Forall_cons; [repeat split|apply List.Forall_nil].
Qed.

Lemma idle_shared_two_slots : two_slots idle_shared.
Proof. repeat split. Qed.

Lemma producers_publish_alternately_witness :
  (exists st0 w0 st w,
     GripperEncoder.start idle_shared iep_reset = Some (st0, w0) /\
     GripperEncoder.iterations [] st0 = Some (st, w) /\
     ready_writes Encoder (w0 ++ w) =
       0 :: alternating 0
              (Z.to_nat (Z.of_nat (length (@nil GripperEncoder.Input))
                         / ENCODER_COUNTER_SIZE)) /\
     Forall (fun v => 0 <= v <= 2) (ready_writes Encoder (w0 ++ w)) /\
     encoder_headers (snd (fst st)) /\
     encoder_ok st) /\
  (exists st0 w0 st w,
     LimitSwitches.start idle_shared iep_reset = Some (st0, w0) /\
     LimitSwitches.iterations [switch_closed; switch_closed] st0 = Some (st, w) /\
     ready_writes Limit (w0 ++ w) =
       0 :: alternating 0 (active_passes [switch_closed; switch_closed]) /\
     Forall (fun v => 0 <= v <= 2) (ready_writes Limit (w0 ++ w)) /\
     limit_ok st) /\
  (forall inps p s1 t1 e,
     length inps = 120%nat ->
     encoder_ok (p, s1, t1) ->
     GripperEncoder.index p = 0 ->
     array_get (encoder_packets s1) (GripperEncoder.packet p) = Some e ->
     exists p' s' t' body e',
       GripperEncoder.iterations inps (p, s1, t1) =
         Some ((p', s', t'), body ++ [W_ready Encoder (GripperEncoder.packet p + 1)]) /\
       ready_writes Encoder body = [] /\
       GripperEncoder.packet p' = 1 - GripperEncoder.packet p /\
       GripperEncoder.index p' = 0 /\
       encoder_ready s' = GripperEncoder.packet p + 1 /\
       array_get (encoder_packets s') (GripperEncoder.packet p) = Some e' /\
       enc_header e' = enc_header e /\
       (forall f, f <> F_header ->
          map fst (written Encoder (GripperEncoder.packet p) f body) = seqZ 0 120 /\
          member f e' = map snd (written Encoder (GripperEncoder.packet p) f body)) /\
       (forall f, written Encoder (1 - GripperEncoder.packet p) f body = [])) /\
  (forall inp p s1 t1,
     limit_ok (p, s1, t1) ->
     LimitSwitches.active (LimitSwitches.r31_test inp) <> 0 ->
     exists l vc vo vs s' t',
       array_get (limit_packets s1) (LimitSwitches.packet p) = Some l /\
       LimitSwitches.iteration inp (p, s1, t1) =
         Some ((LimitSwitches.mkPru (1 - LimitSwitches.packet p), s', t'),
               [W_slot Limit (LimitSwitches.packet p) F_clock 0 vc;
                W_slot Limit (LimitSwitches.packet p) F_clock_overflow 0 vo;
                W_slot Limit (LimitSwitches.packet p) F_state 0 vs;
                W_ready Limit (LimitSwitches.packet p + 1)]) /\
       array_get (limit_packets s') (LimitSwitches.packet p) =
         Some (mkLimitInfo (lim_header l) vc vo vs) /\
       limit_ready s' = LimitSwitches.packet p + 1).
Proof.
  apply (producers_publish_alternately idle_shared iep_reset []
           [switch_closed; switch_closed]).
  - apply idle_shared_two_slots.
  - apply idle_shared_sized.
Defined.

Example limit_publishes_slot_0_then_1 :
  exists st0 w0 st w,
    LimitSwitches.start idle_shared iep_reset = Some (st0, w0) /\
    LimitSwitches.iterations [switch_closed; switch_closed] st0 = Some (st, w) /\
    ready_writes Limit (w0 ++ w) = [0; 1; 2].
Proof. eexists _, _, _, _. split; [reflexivity|]. split; reflexivity. Qed.

(** ** The overflow count of a sample *)

Lemma iep_run_nowrap (d : Z) (t : IEP) :
  0 <= tmr_cnt t + d < ULONG_MAX1 ->
  iep_run d t = mkIEP (tmr_cnt t + d) (tmr_sts t).
Proof.
  intros H. unfold iep_run. rewrite ulong_small by exact H.
  destruct (Z.leb_spec ULONG_MAX1 (tmr_cnt t + d)); [lia|reflexivity].
Qed.

Lemma iep_run_wrap (d : Z) (t : IEP) :
  ULONG_MAX1 <= tmr_cnt t + d < 2 * ULONG_MAX1 ->
  iep_run d t = mkIEP (tmr_cnt t + d - ULONG_MAX1) (Z.lor (tmr_sts t) 1).
Proof.
  intros H. unfold iep_run. rewrite ulong_wrap by exact H.
  destruct (Z.leb_spec ULONG_MAX1 (tmr_cnt t + d)); [reflexivity|lia].
Qed.

Lemma flag_bit (a : Z) : Z.land a 1 = 0 \/ Z.land a 1 = 1.
Proof.
  assert (H : Z.land a 1 = a mod 2) by (apply (Z.land_ones a 1); lia).
  rewrite H. pose proof (Z.mod_pos_bound a 2). lia.
Qed.

Lemma flag_set (a : Z) : Z.land (Z.lor a 1) 1 = 1.
Proof.
  rewrite Z.land_lor_distr_l. destruct (flag_bit a) as [-> | ->]; reflexivity.
Qed.

Lemma flag_cleared (a : Z) : Z.land (Z.land a (Z.lnot 1)) 1 = 0.
Proof.
  rewrite <- Z.land_assoc. replace (Z.land (Z.lnot 1) 1) with 0 by reflexivity.
  apply Z.land_0_r.
Qed.

Lemma ulong_idem (z : Z) : ulong (ulong z) = ulong z.
Proof. apply ulong_small. apply ulong_range. Qed.

(** Counter and timer through one pass of the encoder loop. *)
Lemma encoder_pass (inp : GripperEncoder.Input)
    (p : GripperEncoder.Pru) (s : Shared) (t : IEP) :
  encoder_ok (p, s, t) ->
  let q := GripperEncoder.packet p in
  let i := GripperEncoder.index p in
  let t1 := iep_run (GripperEncoder.d_check inp) t in
  let seen := negb (Z.land (tmr_sts t1) 1 =? 0) in
  let c1 := if seen then ulong (clock_overflow s + 1) else clock_overflow s in
  let t2 := if seen then iep_write_sts 1 t1 else t1 in
  let t3 := iep_run (GripperEncoder.d_clock inp) t2 in
  let t4 := iep_run (GripperEncoder.d_overflow inp) t3 in
  exists p' s' w,
    GripperEncoder.iteration inp (p, s, t) =
      Some ((p', s', iep_run GripperEncoder.DELAY_CYCLES t4), w) /\
    encoder_ok (p', s', iep_run GripperEncoder.DELAY_CYCLES t4) /\
    clock_overflow s' = c1 /\
    counter_writes w = (if seen then [c1] else []) /\
    written Encoder q F_clock w = [(i, tmr_cnt t3)] /\
    written Encoder q F_clock_overflow w =
      [(i, ulong (c1 + Z.land (tmr_sts t4) 1))] /\
    (completing p = false ->
     GripperEncoder.packet p' = q /\ GripperEncoder.index p' = i + 1).
Proof.
  intros Hok. cbv zeta.
  destruct (encoder_iteration_shape inp p s t Hok) as (e & Hge & Hse & Hit).
  cbv zeta in Hit.
  destruct (encoder_iteration_ok inp (p, s, t) Hok)
    as (st1 & w1 & Hit1 & Hok1 & Hp1 & Hi1 & _).
  rewrite Hit in Hit1. inversion Hit1 as [[Hst Hw]]. clear Hit1.
  rewrite <- Hst in Hok1, Hp1, Hi1. cbn [fst snd] in Hp1, Hi1.
  destruct Hok as (Hq & Hi & _).
  rewrite advance_spec in * by assumption.
  unfold GripperEncoder.check_overflow in *.
  set (t1 := iep_run (GripperEncoder.d_check inp) t) in *.
  assert (Hcw : forall a b, counter_writes (a ++ b) = counter_writes a ++ counter_writes b).
  { intros a b. induction a as [|x a IHa]; simpl; [reflexivity|].
    destruct x; simpl; rewrite ?IHa; reflexivity. }
  destruct (negb (Z.land (tmr_sts t1) 1 =? 0)); cbn [fst snd] in *;
    destruct (completing p); cbn [fst snd] in *;
    eexists _, _, _; (split; [exact Hit|]); (split; [exact Hok1|]);
    (split; [reflexivity|]);
    (split; [rewrite ?Hcw; reflexivity|]);
    (split; [rewrite ?written_app; cbn [written];
             repeat (case_decide; try (exfalso; intuition congruence)); reflexivity|]);
    (split; [rewrite ?written_app; cbn [written];
             repeat (case_decide; try (exfalso; intuition congruence)); reflexivity|]);
    intros Hc; try discriminate Hc; split; reflexivity.
Qed.

Ltac word_lia := unfold ULONG_MAX1, GripperEncoder.DELAY_CYCLES in *; lia.

(** Run the timer through the next stretch of cycles, with or without a
    wrap as the hypotheses decide, and read the overflow flag. *)
Ltac run_timer :=
  repeat first
    [ rewrite (iep_run_nowrap _ (mkIEP _ _)) in * by (cbn [tmr_cnt]; word_lia)
    | rewrite (iep_run_wrap _ (mkIEP _ _)) in * by (cbn [tmr_cnt]; word_lia)
    | progress (unfold iep_write_sts in *)
    | progress (cbn [tmr_cnt tmr_sts] in * )
    | rewrite flag_set in *
    | rewrite flag_cleared in *
    | match goal with H : Z.land (tmr_sts ?t) 1 = 0 |- _ => rewrite H in * end
    | progress (change (negb (0 =? 0)) with false in * )
    | progress (change (negb (1 =? 0)) with true in * )
    | progress (cbv iota in * ) ].

Lemma written_clock_overflow_app (q : Z) (f : field) (a b : list pwrite) :
  written Encoder q f (a ++ b ++ []) = written Encoder q f a ++ written Encoder q f b.
Proof. rewrite app_nil_r. apply written_app. Qed.

(** The timer wraps once between the clock reading of sample N and that of
    sample N+1 of one packet: the overflow count stored with sample N+1 is
    one more than the counter held before. *)
Lemma encoder_wrap_between_ticks (inp1 inp2 : GripperEncoder.Input)
    (p : GripperEncoder.Pru) (s : Shared) (t : IEP) :
  encoder_ok (p, s, t) ->
  GripperEncoder.index p + 1 < ENCODER_COUNTER_SIZE ->
  0 <= tmr_cnt t -> Z.land (tmr_sts t) 1 = 0 ->
  0 <= GripperEncoder.d_check inp1 -> 0 <= GripperEncoder.d_clock inp1 ->
  0 <= GripperEncoder.d_overflow inp1 ->
  0 <= GripperEncoder.d_check inp2 -> 0 <= GripperEncoder.d_clock inp2 ->
  0 <= GripperEncoder.d_overflow inp2 ->
  let q := GripperEncoder.packet p in
  let i := GripperEncoder.index p in
  let tick := tmr_cnt t + GripperEncoder.d_check inp1 + GripperEncoder.d_clock inp1 in
  let tick' := tick + GripperEncoder.d_overflow inp1 + GripperEncoder.DELAY_CYCLES
               + GripperEncoder.d_check inp2 + GripperEncoder.d_clock inp2
               - ULONG_MAX1 in
  tick < ULONG_MAX1 ->
  0 <= tick' ->
  tick' + GripperEncoder.d_overflow inp2 < ULONG_MAX1 ->
  exists st' w o1,
    GripperEncoder.iterations [inp1; inp2] (p, s, t) = Some (st', w) /\
    written Encoder q F_clock w = [(i, tick); (i + 1, tick')] /\
    written Encoder q F_clock_overflow w =
      [(i, o1); (i + 1, ulong (clock_overflow s + 1))] /\
    (o1 = ulong (clock_overflow s) \/ o1 = ulong (clock_overflow s + 1)).
Proof.
  intros Hok Hidx Hcnt Hflag Ha1 Hb1 Hc1 Ha2 Hb2 Hc2 q i tick tick' Htick Hwrap Honce.
  destruct (encoder_pass inp1 p s t Hok)
    as (p1 & s1 & w1 & Hit1 & Hok1 & Hco1 & _ & Hwc1 & Hwo1 & Hadv1).
  assert (Hcomp : completing p = false).
  { unfold completing. apply Z.eqb_neq. lia. }
  destruct (Hadv1 Hcomp) as [Hq1 Hi1]. clear Hadv1.
  cbv zeta in *. subst q i tick tick'.
  rewrite (iep_run_nowrap (GripperEncoder.d_check inp1) t) in * by word_lia.
  cbn [tmr_sts tmr_cnt] in *. rewrite Hflag in *.
  change (negb (0 =? 0)) with false in *. cbv iota in *.
  assert (Hcase :
    ULONG_MAX1 <= tmr_cnt t + GripperEncoder.d_check inp1 + GripperEncoder.d_clock inp1
                  + GripperEncoder.d_overflow inp1 \/
    (tmr_cnt t + GripperEncoder.d_check inp1 + GripperEncoder.d_clock inp1
       + GripperEncoder.d_overflow inp1 < ULONG_MAX1 /\
     ULONG_MAX1 <= tmr_cnt t + GripperEncoder.d_check inp1 + GripperEncoder.d_clock inp1
                   + GripperEncoder.d_overflow inp1 + GripperEncoder.DELAY_CYCLES) \/
    (tmr_cnt t + GripperEncoder.d_check inp1 + GripperEncoder.d_clock inp1
       + GripperEncoder.d_overflow inp1 + GripperEncoder.DELAY_CYCLES < ULONG_MAX1 /\
     ULONG_MAX1 <= tmr_cnt t + GripperEncoder.d_check inp1 + GripperEncoder.d_clock inp1
                   + GripperEncoder.d_overflow inp1 + GripperEncoder.DELAY_CYCLES
                   + GripperEncoder.d_check inp2) \/
    tmr_cnt t + GripperEncoder.d_check inp1 + GripperEncoder.d_clock inp1
      + GripperEncoder.d_overflow inp1 + GripperEncoder.DELAY_CYCLES
      + GripperEncoder.d_check inp2 < ULONG_MAX1) by word_lia.
  destruct Hcase as [Hcase|[Hcase|[Hcase|Hcase]]];
    run_timer;
    (destruct (encoder_pass inp2 p1 s1 _ Hok1)
       as (p2 & s2 & w2 & Hit2 & _ & _ & _ & Hwc2 & Hwo2 & _));
    cbv zeta in *; run_timer;
    (eexists _, (w1 ++ w2 ++ []), _);
    (split; [cbn [GripperEncoder.iterations]; rewrite Hit1, Hit2; reflexivity|]);
    rewrite !written_clock_overflow_app, Hwc1, Hwo1, <- Hq1, Hwc2, Hwo2, Hi1, Hco1;
    cbn [app]; rewrite ?Z.add_0_r, ?ulong_idem;
    (split; [do 3 f_equal; word_lia|]); (split; [reflexivity|]); auto.
Qed.

Lemma check_overflow_seen (s : Shared) (t : IEP) :
  Z.land (tmr_sts t) 1 = 1 ->
  GripperEncoder.check_overflow s t =
    (set_clock_overflow (ulong (clock_overflow s + 1)) s, iep_write_sts 1 t,
     [W_counter (ulong (clock_overflow s + 1))]) /\
  Z.land (tmr_sts (iep_write_sts 1 t)) 1 = 0.
Proof.
  intros H. unfold GripperEncoder.check_overflow. rewrite H. split; [reflexivity|].
  apply flag_cleared.
Qed.

Lemma check_overflow_unseen (s : Shared) (t : IEP) :
  Z.land (tmr_sts t) 1 = 0 -> GripperEncoder.check_overflow s t = (s, t, []).
Proof. intros H. unfold GripperEncoder.check_overflow. rewrite H. reflexivity. Qed.

(** The limit producer folds the flag into the overflow count it stores,
    and never writes the counter. *)
Lemma limit_pass (inp : LimitSwitches.Input)
    (p : LimitSwitches.Pru) (s : Shared) (t : IEP) :
  limit_ok (p, s, t) ->
  LimitSwitches.active (LimitSwitches.r31_test inp) <> 0 ->
  let t1 := iep_run (LimitSwitches.d_clock inp) t in
  let t2 := iep_run (LimitSwitches.d_overflow inp) t1 in
  exists p' s' w,
    LimitSwitches.iteration inp (p, s, t) =
      Some ((p', s', iep_run LimitSwitches.DELAY_CYCLES t2), w) /\
    written Limit (LimitSwitches.packet p) F_clock w = [(0, tmr_cnt t1)] /\
    written Limit (LimitSwitches.packet p) F_clock_overflow w =
      [(0, ulong (clock_overflow s + Z.land (tmr_sts t2) 1))] /\
    counter_writes w = [] /\
    clock_overflow s' = clock_overflow s /\
    tmr_sts (iep_run LimitSwitches.DELAY_CYCLES t2) =
      tmr_sts (iep_run LimitSwitches.DELAY_CYCLES
                 (iep_run (LimitSwitches.d_overflow inp)
                    (iep_run (LimitSwitches.d_clock inp) t))).
Proof.
  intros Hok Hact. cbv zeta.
  destruct (limit_iteration_shape inp p s t Hok) as (l & Hgl & Hit).
  cbv zeta in Hit.
  destruct (Z.eqb_spec (LimitSwitches.active (LimitSwitches.r31_test inp)) 0);
    [contradiction|].
  eexists _, _, _. split; [exact Hit|]. cbn [written counter_writes].
  repeat (case_decide; try (exfalso; intuition congruence)).
  repeat split.
Qed.

(** C4, the statement that holds: the encoder producer adds 1 to the
    overflow counter, and clears the flag, whenever it finds the overflow
    flag of the timer up at the start of a pass; the limit producer never
    writes the counter.  Both store with every sample the counter plus the
    flag as read at that moment.  So when the timer wraps once between the
    clock readings of samples N and N+1 of one encoder packet, the overflow
    count stored with sample N+1 is one more than the counter was. *)
Theorem overflow_count_folded (inp1 inp2 : GripperEncoder.Input)
    (p : GripperEncoder.Pru) (s : Shared) (t : IEP) :
  encoder_ok (p, s, t) ->
  GripperEncoder.index p + 1 < ENCODER_COUNTER_SIZE ->
  0 <= tmr_cnt t -> Z.land (tmr_sts t) 1 = 0 ->
  0 <= GripperEncoder.d_check inp1 -> 0 <= GripperEncoder.d_clock inp1 ->
  0 <= GripperEncoder.d_overflow inp1 ->
  0 <= GripperEncoder.d_check inp2 -> 0 <= GripperEncoder.d_clock inp2 ->
  0 <= GripperEncoder.d_overflow inp2 ->
  let q := GripperEncoder.packet p in
  let i := GripperEncoder.index p in
  let tick := tmr_cnt t + GripperEncoder.d_check inp1 + GripperEncoder.d_clock inp1 in
  let tick' := tick + GripperEncoder.d_overflow inp1 + GripperEncoder.DELAY_CYCLES
               + GripperEncoder.d_check inp2 + GripperEncoder.d_clock inp2
               - ULONG_MAX1 in
  tick < ULONG_MAX1 ->
  0 <= tick' ->
  tick' + GripperEncoder.d_overflow inp2 < ULONG_MAX1 ->
  (exists st' w o1,
     GripperEncoder.iterations [inp1; inp2] (p, s, t) = Some (st', w) /\
     written Encoder q F_clock w = [(i, tick); (i + 1, tick')] /\
     written Encoder q F_clock_overflow w =
       [(i, o1); (i + 1, ulong (clock_overflow s + 1))] /\
     (o1 = ulong (clock_overflow s) \/ o1 = ulong (clock_overflow s + 1))) /\
  (forall s0 t0,
     Z.land (tmr_sts t0) 1 = 1 ->
     GripperEncoder.check_overflow s0 t0 =
       (set_clock_overflow (ulong (clock_overflow s0 + 1)) s0, iep_write_sts 1 t0,
        [W_counter (ulong (clock_overflow s0 + 1))]) /\
     Z.land (tmr_sts (iep_write_sts 1 t0)) 1 = 0) /\
  (forall s0 t0,
     Z.land (tmr_sts t0) 1 = 0 -> GripperEncoder.check_overflow s0 t0 = (s0, t0, [])) /\
  (forall inp p0 s0 t0,
     encoder_ok (p0, s0, t0) ->
     let t1 := iep_run (GripperEncoder.d_check inp) t0 in
     let seen := negb (Z.land (tmr_sts t1) 1 =? 0) in
     let c1 := if seen then ulong (clock_overflow s0 + 1) else clock_overflow s0 in
     let t2 := if seen then iep_write_sts 1 t1 else t1 in
     let t3 := iep_run (GripperEncoder.d_clock inp) t2 in
     let t4 := iep_run (GripperEncoder.d_overflow inp) t3 in
     exists p' s' w,
       GripperEncoder.iteration inp (p0, s0, t0) =
         Some ((p', s', iep_run GripperEncoder.DELAY_CYCLES t4), w) /\
       clock_overflow s' = c1 /\
       counter_writes w = (if seen then [c1] else []) /\
       written Encoder (GripperEncoder.packet p0) F_clock_overflow w =
         [(GripperEncoder.index p0, ulong (c1 + Z.land (tmr_sts t4) 1))]) /\
  (forall inp p0 s0 t0,
     limit_ok (p0, s0, t0) ->
     LimitSwitches.active (LimitSwitches.r31_test inp) <> 0 ->
     let t1 := iep_run (LimitSwitches.d_clock inp) t0 in
     let t2 := iep_run (LimitSwitches.d_overflow inp) t1 in
     exists p' s' w,
       LimitSwitches.iteration inp (p0, s0, t0) =
         Some ((p', s', iep_run LimitSwitches.DELAY_CYCLES t2), w) /\
       written Limit (LimitSwitches.packet p0) F_clock_overflow w =
         [(0, ulong (clock_overflow s0 + Z.land (tmr_sts t2) 1))] /\
       counter_writes w = [] /\
       clock_overflow s' = clock_overflow s0).
Proof.
  intros Hok Hidx Hcnt Hflag Ha1 Hb1 Hc1 Ha2 Hb2 Hc2 q i tick tick' Htick Hwrap Honce.
  split; [|split; [|split; [|split]]].
  - apply encoder_wrap_between_ticks; assumption.
  - apply check_overflow_seen.
  - apply check_overflow_unseen.
  - intros inp p0 s0 t0 Hok0. cbv zeta.
    destruct (encoder_pass inp p0 s0 t0 Hok0)
      as (p' & s' & w & Hit & _ & Hco & Hcw & _ & Hwo & _).
    exists p', s', w. auto.
  - intros inp p0 s0 t0 Hok0 Hact. cbv zeta.
    destruct (limit_pass inp p0 s0 t0 Hok0 Hact)
      as (p' & s' & w & Hit & _ & Hwo & Hcw & Hco & _).
    exists p', s', w. auto.
Qed.

Lemma encoder_ok_idle (t : IEP) : encoder_ok (GripperEncoder.mkPru 0 0, idle_shared, t).
Proof.
  unfold encoder_ok. simpl. unfold ENCODER_COUNTER_SIZE.
  repeat (match goal with |- _ /\ _ => split end); try lia.
  - apply idle_shared_two_slots.
  - apply idle_shared_sized.
Qed.

Lemma overflow_count_folded_witness :
  (exists st' w o1,
     GripperEncoder.iterations [quick_pass; quick_pass]
       (GripperEncoder.mkPru 0 0, idle_shared, iep_near_wrap) = Some (st', w) /\
     written Encoder 0 F_clock w = [(0, ULONG_MAX1 - 8); (0 + 1, 24995)] /\
     written Encoder 0 F_clock_overflow w =
       [(0, o1); (0 + 1, ulong (clock_overflow idle_shared + 1))] /\
     (o1 = ulong (clock_overflow idle_shared) \/
      o1 = ulong (clock_overflow idle_shared + 1))) /\
  (forall s0 t0,
     Z.land (tmr_sts t0) 1 = 1 ->
     GripperEncoder.check_overflow s0 t0 =
       (set_clock_overflow (ulong (clock_overflow s0 + 1)) s0, iep_write_sts 1 t0,
        [W_counter (ulong (clock_overflow s0 + 1))]) /\
     Z.land (tmr_sts (iep_write_sts 1 t0)) 1 = 0) /\
  (forall s0 t0,
     Z.land (tmr_sts t0) 1 = 0 -> GripperEncoder.check_overflow s0 t0 = (s0, t0, [])) /\
  (forall inp p0 s0 t0,
     encoder_ok (p0, s0, t0) ->
     let t1 := iep_run (GripperEncoder.d_check inp) t0 in
     let seen := negb (Z.land (tmr_sts t1) 1 =? 0) in
     let c1 := if seen then ulong (clock_overflow s0 + 1) else clock_overflow s0 in
     let t2 := if seen then iep_write_sts 1 t1 else t1 in
     let t3 := iep_run (GripperEncoder.d_clock inp) t2 in
     let t4 := iep_run (GripperEncoder.d_overflow inp) t3 in
     exists p' s' w,
       GripperEncoder.iteration inp (p0, s0, t0) =
         Some ((p', s', iep_run GripperEncoder.DELAY_CYCLES t4), w) /\
       clock_overflow s' = c1 /\
       counter_writes w = (if seen then [c1] else []) /\
       written Encoder (GripperEncoder.packet p0) F_clock_overflow w =
         [(GripperEncoder.index p0, ulong (c1 + Z.land (tmr_sts t4) 1))]) /\
  (forall inp p0 s0 t0,
     limit_ok (p0, s0, t0) ->
     LimitSwitches.active (LimitSwitches.r31_test inp) <> 0 ->
     let t1 := iep_run (LimitSwitches.d_clock inp) t0 in
     let t2 := iep_run (LimitSwitches.d_overflow inp) t1 in
     exists p' s' w,
       LimitSwitches.iteration inp (p0, s0, t0) =
         Some ((p', s', iep_run LimitSwitches.DELAY_CYCLES t2), w) /\
       written Limit (LimitSwitches.packet p0) F_clock_overflow w =
         [(0, ulong (clock_overflow s0 + Z.land (tmr_sts t2) 1))] /\
       counter_writes w = [] /\
       clock_overflow s' = clock_overflow s0).
Proof.
  apply (overflow_count_folded quick_pass quick_pass
           (GripperEncoder.mkPru 0 0) idle_shared iep_near_wrap).
  - apply encoder_ok_idle.
  - simpl. unfold ENCODER_COUNTER_SIZE. lia.
  - simpl. unfold ULONG_MAX1. lia.
  - reflexivity.
  - simpl. lia.
  - simpl. lia.
  - simpl. lia.
  - simpl. lia.
  - simpl. lia.
  - simpl. lia.
  - simpl. unfold ULONG_MAX1. lia.
  - simpl. unfold ULONG_MAX1, GripperEncoder.DELAY_CYCLES. lia.
  - simpl. unfold ULONG_MAX1, GripperEncoder.DELAY_CYCLES. lia.
Defined.

(** C4 as worded fails for the limit producer: it reads the overflow flag
    as 1, stores counter + 1 with its sample, and leaves the counter at 0. *)
Lemma limit_producer_leaves_counter :
  (exists st' w,
     LimitSwitches.iteration switch_closed
       (LimitSwitches.mkPru 0, idle_shared, iep_wrapped) = Some (st', w) /\
     written Limit 0 F_clock_overflow w = [(0, 1)] /\
     counter_writes w = [] /\
     clock_overflow (snd (fst st')) = 0) /\
  ~ limit_counts_wrap switch_closed (LimitSwitches.mkPru 0, idle_shared, iep_wrapped).
Proof.
  split.
  - eexists _, _. split; [reflexivity|]. repeat split.
  - intros H. specialize (H _ _ eq_refl). simpl in H.
    assert (H1 : 0 = ulong (0 + 1)) by (apply H; [discriminate|reflexivity]).
    discriminate H1.
Qed.

Example encoder_counts_wrap :
  exists st' w,
    GripperEncoder.iteration quick_pass
      (GripperEncoder.mkPru 0 0, idle_shared, iep_wrapped) = Some (st', w) /\
    counter_writes w = [1] /\
    written Encoder 0 F_clock_overflow w = [(0, 1)] /\
    clock_overflow (snd (fst st')) = 1 /\
    Z.land (tmr_sts (snd st')) 1 = 0.
Proof. eexists _, _. split; [reflexivity|]. repeat split. Qed.

(** ** The two descriptions of an iteration agree *)

Lemma host_steps_add (CPS : Z) (n m : nat) (clk : Z) :
  forall cf,
    host_steps CPS (n + m) clk cf =
    match host_steps CPS n clk cf with
    | Some (cf1, e1) =>
        match host_steps CPS m clk cf1 with
        | Some (cf2, e2) => Some (cf2, e1 ++ e2)
        | None => None
        end
    | None => None
    end.
Proof.
  induction n as [|n IH]; intros cf; cbn [Nat.add host_steps].
  - destruct (host_steps CPS m clk cf) as [[cf2 e2]|]; reflexivity.
  - destruct (host_step CPS clk cf) as [[cf1 e1]|]; [|reflexivity].
    rewrite IH. destruct (host_steps CPS n clk cf1) as [[cf2 e2]|]; [|reflexivity].
    destruct (host_steps CPS m clk cf2) as [[cf3 e3]|]; [|reflexivity].
    rewrite app_assoc. reflexivity.
Qed.

Lemma host_steps_S (CPS : Z) (n : nat) (clk : Z) (cf : config) :
  host_steps CPS (S n) clk cf =
  match host_step CPS clk cf with
  | Some (cf1, e1) =>
      match host_steps CPS n clk cf1 with
      | Some (cf2, e2) => Some (cf2, e1 ++ e2)
      | None => None
      end
  | None => None
  end.
Proof. reflexivity. Qed.

(** Run statement by statement with nobody else touching the shared RAM,
    an iteration is the loop body. *)
Lemma host_steps_loop_body (CPS clk : Z) (h : Host) (s : Shared) :
  loop_head h s ->
  exists h' s' out,
    loop_body CPS clk h s = Some (h', s', out) /\
    host_steps CPS (steps_of_iteration CPS clk h s) clk (P_time, h, s) =
      Some ((P_while, h', s'), out).
Proof.
  intros Hh. head_cases h s Hh;
    destruct (overdue CPS clk et) eqn:Ho;
    (eexists _, _, _; split; [run_body Ho|]);
    unfold steps_of_iteration; cbv zeta; rewrite host_steps_add;
    match goal with
    | |- context [host_steps ?C ?n ?k (?p0, ?h0, ?s0)] =>
        let r := eval cbv -[overdue batch_bytes TimeoutInfo_bytes EncoderInfo_bytes
                            LimitInfo_bytes ErrorInfo_bytes]
                 in (host_steps C n k (p0, h0, s0)) in
        change (host_steps C n k (p0, h0, s0)) with r
    end;
    cbv iota beta; unfold stale; cbn -[overdue host_steps]; rewrite ?Ho;
    rewrite host_steps_S; cbn [host_step]; unfold timeout_due;
    cbn [current_time encoder_time]; rewrite ?overdue_same, ?Ho;
    cbv -[batch_bytes TimeoutInfo_bytes EncoderInfo_bytes LimitInfo_bytes
          ErrorInfo_bytes];
    reflexivity.
Qed.

(** The flag of the encoder is read twice, by the test of line 196 and by
    the subtraction of line 197.  Flags that only ever hold 0, 1 or 2 do
    not keep the host inside the slots: with 1 at the first read and 0 at
    the second the offset is 2^32 - 1, and the copy of line 198 reads
    outside the pair of slots. *)
Lemma lowered_flag_leaves_the_slots :
  range_run 1000000 (P_while, host_at_loop_entry 0, idle_shared)
            (P_copy Encoder, host_off_the_end, idle_shared) /\
  (forall c, 0 <= ready c (publish_encoder_0 idle_shared) <= 2) /\
  (forall c, 0 <= ready c idle_shared <= 2) /\
  offset host_off_the_end = 4294967295 /\
  (forall clk,
     host_step 1000000 clk (P_copy Encoder, host_off_the_end, idle_shared) = None) /\
  ~ in_bounds_given_range 1000000.
Proof.
  assert (Hr1 : forall c, 0 <= ready c (publish_encoder_0 idle_shared) <= 2)
    by (intros []; simpl; lia).
  assert (Hr0 : forall c, 0 <= ready c idle_shared <= 2) by (intros []; simpl; lia).
  assert (Hrun : range_run 1000000 (P_while, host_at_loop_entry 0, idle_shared)
                   (P_copy Encoder, host_off_the_end, idle_shared)).
  { apply (Range_host _ _ 0 (P_offset Encoder) (host_at_loop_entry 0) idle_shared _ []);
      [|reflexivity].
    apply (Range_env _ _ _ _ (publish_encoder_0 idle_shared));
      [|split; [repeat split|exact Hr0]].
    apply (Range_host _ _ 0 (P_test Encoder) (host_at_loop_entry 0)
             (publish_encoder_0 idle_shared) _ []); [|reflexivity].
    apply (Range_host _ _ 0 P_time (host_at_loop_entry 0)
             (publish_encoder_0 idle_shared) _ []); [|reflexivity].
    apply (Range_host _ _ 0 P_while (host_at_loop_entry 0)
             (publish_encoder_0 idle_shared) _ []); [|reflexivity].
    apply (Range_env _ _ _ _ idle_shared); [apply Range_nil|split; [repeat split|exact Hr1]]. }
  split; [exact Hrun|]. split; [exact Hr1|]. split; [exact Hr0|].
  split; [reflexivity|]. split; [intros clk; reflexivity|].
  intros Hclaim.
  destruct (Hclaim _ _ loop_entry_idle_start Hrun 0) as (cf' & e & Hs).
  discriminate Hs.
Qed.

(** C10: the host takes ready - 1 as the slot index with no check of its
    range.  Entered with the flags at 0 and run among producers that set a
    ready flag only to 1 or 2 and never lower one, so that a raised flag
    goes back to 0 by the host alone, the host never leaves an array: in
    every configuration it can reach the three flags are 0, 1 or 2, the
    next statement executes, and the index a copy is about to use is 0 or
    1.  The producers of the encoder and of the limit switches are such
    producers.  With a flag above 2 the copy would read outside the pair of
    slots. *)
Theorem host_stays_inside_slots
    (CPS : Z) (cf0 : config) (tr : list label) (cf : config) :
  loop_entry cf0 ->
  sys_run CPS cf0 tr cf ->
  (forall c, 0 <= ready c (snd cf) <= 2) /\
  (forall clk, exists cf' e, host_step CPS clk cf = Some (cf', e)) /\
  (forall c, fst (fst cf) = P_copy c ->
             0 <= offset (snd (fst cf)) <= 1 /\ fill_index c (snd (fst cf)) = 0) /\
  (forall c h s,
     take_offset c h s = Some (set_offset (ulong (ready c s - 1)) h, s, [])) /\
  (forall c h s,
     two_slots s -> 2 < ready c s < ULONG_MAX1 ->
     exists h1,
       take_offset c h s = Some (h1, s, []) /\
       offset h1 = ready c s - 1 /\
       copy_packet c h1 s = None) /\
  (forall inp st,
     encoder_ok st ->
     exists st' w,
       GripperEncoder.iteration inp st = Some (st', w) /\
       encoder_ok st' /\
       env_step (if completing (fst (fst st)) then L_publish Encoder else L_quiet)
                (snd (fst st)) (snd (fst st'))) /\
  (forall inp st,
     limit_ok st ->
     exists st' w,
       LimitSwitches.iteration inp st = Some (st', w) /\
       limit_ok st' /\
       env_step (if negb (LimitSwitches.active (LimitSwitches.r31_test inp) =? 0)
                 then L_publish Limit else L_quiet)
                (snd (fst st)) (snd (fst st'))).
Proof.
  intros H0 Hrun. pose proof (safe_run CPS cf0 tr cf H0 Hrun) as Hsafe.
  split; [|split; [|split; [|split; [|split; [|split]]]]].
  - destruct cf as [[p h] s]. destruct Hsafe as (_ & _ & Hr & _). exact Hr.
  - intros clk. apply safe_progress. exact Hsafe.
  - destruct cf as [[p h] s]. destruct Hsafe as (_ & _ & _ & Hb & Ha).
    cbn [fst snd]. intros c ->. simpl in Ha. split; [exact Ha|].
    destruct (Hb c) as [Hz|[_ Hrk]]; [exact Hz|]. destruct c; simpl in Hrk; lia.
  - reflexivity.
  - intros c h s. apply copy_outside_slots.
  - intros inp st Hok.
    destruct (encoder_iteration_ok inp st Hok) as (st' & w & Hit & Hok' & _ & _ & _ & He).
    exists st', w. auto.
  - intros inp st Hok.
    destruct (limit_iteration_ok inp st Hok) as (st' & w & Hit & Hok' & _ & _ & _ & _ & He).
    exists st', w. auto.
Qed.

Lemma host_stays_inside_slots_witness :
  (forall c, 0 <= ready c (publish_encoder_0 idle_shared) <= 2) /\
  (forall clk, exists cf' e,
     host_step 1000000 clk
       (P_copy Encoder, host_at_copy, publish_encoder_0 idle_shared) = Some (cf', e)) /\
  (0 <= offset host_at_copy <= 1 /\ fill_index Encoder host_at_copy = 0) /\
  (forall c h s,
     take_offset c h s = Some (set_offset (ulong (ready c s - 1)) h, s, [])) /\
  (exists h1,
     take_offset Encoder (host_at_loop_entry 0) (set_encoder_ready 3 idle_shared)
       = Some (h1, set_encoder_ready 3 idle_shared, []) /\
     offset h1 = 3 - 1 /\
     copy_packet Encoder h1 (set_encoder_ready 3 idle_shared) = None) /\
  (exists st' w,
     GripperEncoder.iteration quick_pass (GripperEncoder.mkPru 0 119, idle_shared, iep_reset)
       = Some (st', w) /\
     encoder_ok st' /\
     env_step (L_publish Encoder) idle_shared (snd (fst st'))) /\
  (exists st' w,
     LimitSwitches.iteration switch_closed (LimitSwitches.mkPru 0, idle_shared, iep_reset)
       = Some (st', w) /\
     limit_ok st' /\
     env_step (L_publish Limit) idle_shared (snd (fst st'))).
Proof.
  destruct (host_stays_inside_slots 1000000
              (P_while, host_at_loop_entry 0, idle_shared) trace_to_copy
              (P_copy Encoder, host_at_copy, publish_encoder_0 idle_shared)
              loop_entry_idle_start run_to_copy)
    as (Hr & Hstep & Hcopy & Hoff & Hout & Henc & Hlim).
  split; [exact Hr|]. split; [exact Hstep|].
  split; [apply (Hcopy Encoder); reflexivity|]. split; [exact Hoff|].
  split; [|split].
  - apply (Hout Encoder (host_at_loop_entry 0) (set_encoder_ready 3 idle_shared)).
    + repeat split.
    + simpl. unfold ULONG_MAX1. lia.
  - destruct (Henc quick_pass (GripperEncoder.mkPru 0 119, idle_shared, iep_reset))
      as (st' & w & Hit & Hok & Henv).
    + unfold encoder_ok, ENCODER_COUNTER_SIZE. simpl.
      split; [lia|]. split; [lia|]. split; [repeat split|].
      repeat (apply List.Forall_cons; [repeat split|]). apply List.Forall_nil.
    + exists st', w. auto.
  - destruct (Hlim switch_closed (LimitSwitches.mkPru 0, idle_shared, iep_reset))
      as (st' & w & Hit & Hok & Henv).
    + unfold limit_ok. simpl. split; [lia|repeat split].
    + exists st', w. auto.
Defined.

Example copy_with_flag_3_faults :
  host_steps 1000000 3 0
    (P_test Encoder, host_at_loop_entry 0, set_encoder_ready 3 idle_shared) = None.
Proof. reflexivity. Qed.

Example iteration_statement_by_statement :
  exists h',
    host_steps 1000000 16 50 (P_time, host_at_loop_entry 0, sample_shared) =
    Some ((P_while, h', set_encoder_ready 0 sample_shared),
          [Sendto (S_batch Encoder) (EncoderInfo_bytes (sample_packet 9))]).
Proof. eexists. vm_compute. reflexivity. Qed.

(** ** The start-up of the host *)

Lemma startup_wrong_count (argv : list string) (a0 : string) (k : Calls)
    (producers : Shared -> Shared) (s : Shared) :
  array_get argv 0 = Some a0 -> length argv <> 5%nat ->
  startup argv k producers s =
    Some ([A_event System_pinconfig; A_event (Print_usage a0)], inl (E_return 1)).
Proof.
  intros H0 Hn. unfold startup, argv_at. rewrite H0.
  assert (Hc : check_arguments (Z.of_nat (length argv)) a0
               = ([System_pinconfig; Print_usage a0], Some 1)).
  { unfold check_arguments. destruct (Z.eqb_spec (Z.of_nat (length argv)) 5); [lia|reflexivity]. }
  unfold mbind, part_bind, and_then, go_on. rewrite Hc. reflexivity.
Qed.

Ltac startup_cases :=
  repeat match goal with
         | |- context [if ?b then _ else _] => destruct b eqn:?
         end.

Lemma startup_five (a0 a1 a2 a3 a4 : string) (k : Calls)
    (producers : Shared -> Shared) (s s1 : Shared) :
  init_shared s = Some s1 ->
  exists acts r,
    startup [a0; a1; a2; a3; a4] k producers s = Some (acts, r) /\
    (calls_succeed k ->
     acts = startup_actions a1 a2 a3 a4 k /\
     r = inr (host_at_loop_entry (clock_at_entry k), producers s1)) /\
    (prussdrv_open k = -1 -> r = inl (E_return 1)) /\
    (prussdrv_open k <> -1 ->
     prussdrv_load_datafile k 0 < 0 \/ prussdrv_exec_program k 0 < 0 \/
     prussdrv_load_datafile k 1 < 0 \/ prussdrv_exec_program k 1 < 0 ->
     r = inl (E_exit (-1))) /\
    (prussdrv_open k <> -1 ->
     0 <= prussdrv_load_datafile k 0 -> 0 <= prussdrv_exec_program k 0 ->
     0 <= prussdrv_load_datafile k 1 -> 0 <= prussdrv_exec_program k 1 ->
     socket k < 0 -> r = inl E_exit_failure).
Proof.
  intros Hi. unfold startup, load_datafile, exec_program.
  rewrite Hi.
  change (Z.of_nat (length [a0; a1; a2; a3; a4])) with 5.
  destruct (prussdrv_open k =? -1) eqn:Ho;
  destruct (prussdrv_load_datafile k 0 <? 0) eqn:Hl0;
  destruct (prussdrv_exec_program k 0 <? 0) eqn:He0;
  destruct (prussdrv_load_datafile k 1 <? 0) eqn:Hl1;
  destruct (prussdrv_exec_program k 1 <? 0) eqn:He1;
  destruct (socket k <? 0) eqn:Hs;
  (eexists _, _; split; [reflexivity|]);
  unfold calls_succeed; repeat split; intros; try reflexivity; exfalso; lia.
Qed.

Lemma two_slots_init (s : Shared) : two_slots s -> exists s1, init_shared s = Some s1.
Proof.
  intros (He & Hl & Hr). destruct s as [o co er ep lr lp rr rp]. simpl in *.
  destruct ep as [|ea [|eb [|]]]; try discriminate.
  destruct lp as [|la [|lb [|]]]; try discriminate.
  destruct rp as [|ra [|rb [|]]]; try discriminate.
  eexists. reflexivity.
Qed.

Lemma length_five {A} (l : list A) :
  length l = 5%nat -> exists a0 a1 a2 a3 a4, l = [a0; a1; a2; a3; a4].
Proof.
  destruct l as [|a0 [|a1 [|a2 [|a3 [|a4 [|]]]]]]; try discriminate. eauto 6.
Qed.

Ltac settle :=
  repeat split; intros;
  repeat match goal with
         | H : exists _, _ |- _ => destruct H
         | H : _ /\ _ |- _ => destruct H
         | H : _ \/ _ |- _ => destruct H
         | H : inl _ = inr _ |- _ => discriminate H
         | H : inr _ = inl _ |- _ => discriminate H
         | H : inl _ = inl _ |- _ => inversion H; clear H
         | H : inr _ = inr _ |- _ => inversion H; clear H; subst
         end;
  try discriminate; try congruence; try lia; try tauto; eauto.

(** Start-up enters the acquisition loop exactly when five arguments were
    given and every call it tests succeeded, with the host variables of the
    loop entry and with the shared RAM as the host's initialisation and,
    after it, the producers it has started have left it; otherwise the
    program ends there: with [return 1] for a wrong argument count or a
    failed [prussdrv_open], with [exit(-1)] for a data file or an image
    that could not be loaded, with [exit(EXIT_FAILURE)] for a socket that
    could not be made. *)
Theorem startup_reaches_loop_iff (argv : list string) (k : Calls)
    (producers : Shared -> Shared) (s : Shared) :
  two_slots s -> argv <> [] ->
  exists acts r,
    startup argv k producers s = Some (acts, r) /\
    ((exists x, r = inr x) <-> length argv = 5%nat /\ calls_succeed k) /\
    (forall h s2, r = inr (h, s2) ->
       h = host_at_loop_entry (clock_at_entry k) /\
       exists s1, init_shared s = Some s1 /\ s2 = producers s1) /\
    (r = inl (E_return 1) <-> length argv <> 5%nat \/ prussdrv_open k = -1) /\
    (r = inl (E_exit (-1)) <->
       length argv = 5%nat /\ prussdrv_open k <> -1 /\
       (prussdrv_load_datafile k 0 < 0 \/ prussdrv_exec_program k 0 < 0 \/
        prussdrv_load_datafile k 1 < 0 \/ prussdrv_exec_program k 1 < 0)) /\
    (r = inl E_exit_failure <->
       length argv = 5%nat /\ prussdrv_open k <> -1 /\
       0 <= prussdrv_load_datafile k 0 /\ 0 <= prussdrv_exec_program k 0 /\
       0 <= prussdrv_load_datafile k 1 /\ 0 <= prussdrv_exec_program k 1 /\
       socket k < 0).
Proof.
  intros Hs Hne. destruct (decide (length argv = 5%nat)) as [H5|H5].
  - destruct (length_five argv H5) as (a0 & a1 & a2 & a3 & a4 & ->).
    destruct (two_slots_init s Hs) as (s1 & Hi).
    destruct (startup_five a0 a1 a2 a3 a4 k producers s s1 Hi)
      as (acts & r & Hst & Hok & Hopen & Hload & Hsock).
    exists acts, r. split; [exact Hst|].
    unfold calls_succeed in *.
    destruct (Z.eq_dec (prussdrv_open k) (-1)) as [Eo|Eo].
    { rewrite (Hopen Eo). settle. }
    destruct (Z_lt_le_dec (prussdrv_load_datafile k 0) 0) as [E1|E1].
    { rewrite (Hload Eo) by tauto. settle. }
    destruct (Z_lt_le_dec (prussdrv_exec_program k 0) 0) as [E2|E2].
    { rewrite (Hload Eo) by tauto. settle. }
    destruct (Z_lt_le_dec (prussdrv_load_datafile k 1) 0) as [E3|E3].
    { rewrite (Hload Eo) by tauto. settle. }
    destruct (Z_lt_le_dec (prussdrv_exec_program k 1) 0) as [E4|E4].
    { rewrite (Hload Eo) by tauto. settle. }
    destruct (Z_lt_le_dec (socket k) 0) as [E5|E5].
    { rewrite (Hsock Eo E1 E2 E3 E4 E5). settle. }
    destruct Hok as [_ ->]; [tauto|]. settle.
  - destruct argv as [|a0 rest]; [contradiction|].
    eexists _, _. split; [apply (startup_wrong_count _ a0); [reflexivity|exact H5]|].
    settle.
Qed.

Lemma startup_reaches_loop_iff_witness :
  exists acts r,
    startup sample_argv calls_fine producers_started leftover_shared = Some (acts, r) /\
    ((exists x, r = inr x) <-> length sample_argv = 5%nat /\ calls_succeed calls_fine) /\
    (forall h s2, r = inr (h, s2) ->
       h = host_at_loop_entry (clock_at_entry calls_fine) /\
       exists s1, init_shared leftover_shared = Some s1 /\ s2 = producers_started s1) /\
    (r = inl (E_return 1) <->
       length sample_argv <> 5%nat \/ prussdrv_open calls_fine = -1) /\
    (r = inl (E_exit (-1)) <->
       length sample_argv = 5%nat /\ prussdrv_open calls_fine <> -1 /\
       (prussdrv_load_datafile calls_fine 0 < 0 \/ prussdrv_exec_program calls_fine 0 < 0 \/
        prussdrv_load_datafile calls_fine 1 < 0 \/ prussdrv_exec_program calls_fine 1 < 0)) /\
    (r = inl E_exit_failure <->
       length sample_argv = 5%nat /\ prussdrv_open calls_fine <> -1 /\
       0 <= prussdrv_load_datafile calls_fine 0 /\ 0 <= prussdrv_exec_program calls_fine 0 /\
       0 <= prussdrv_load_datafile calls_fine 1 /\ 0 <= prussdrv_exec_program calls_fine 1 /\
       socket calls_fine < 0).
Proof.
  apply (startup_reaches_loop_iff sample_argv calls_fine producers_started leftover_shared).
  - repeat split.
  - discriminate.
Defined.

(** A failure to load the second producer is reported under the names of
    the first: when the data file argv[4] of PRU1 cannot be loaded the
    message names argv[2], and when the image argv[3] cannot be started it
    names argv[1].  No message ever names argv[3] or argv[4]. *)
Theorem second_producer_failure_names_first
    (a0 a1 a2 a3 a4 : string) (k : Calls) (producers : Shared -> Shared) (s : Shared) :
  two_slots s ->
  prussdrv_open k <> -1 ->
  0 <= prussdrv_load_datafile k 0 -> 0 <= prussdrv_exec_program k 0 ->
  (prussdrv_load_datafile k 1 < 0 ->
   exists acts,
     startup [a0; a1; a2; a3; a4] k producers s = Some (acts, inl (E_exit (-1))) /\
     [A_load_datafile 1 a4; A_error_loading a2] `suffix_of` acts) /\
  (0 <= prussdrv_load_datafile k 1 -> prussdrv_exec_program k 1 < 0 ->
   exists acts,
     startup [a0; a1; a2; a3; a4] k producers s = Some (acts, inl (E_exit (-1))) /\
     [A_exec_program 1 a3; A_error_loading a1] `suffix_of` acts) /\
  (forall acts r f,
     startup [a0; a1; a2; a3; a4] k producers s = Some (acts, r) ->
     In (A_error_loading f) acts -> f = a1 \/ f = a2).
Proof.
  intros Hs Ho Hl0 He0. destruct (two_slots_init s Hs) as (s1 & Hi).
  unfold startup, load_datafile, exec_program. rewrite Hi.
  change (Z.of_nat (length [a0; a1; a2; a3; a4])) with 5.
  destruct (prussdrv_open k =? -1) eqn:Eo; [lia|].
  destruct (prussdrv_load_datafile k 0 <? 0) eqn:El0; [lia|].
  destruct (prussdrv_exec_program k 0 <? 0) eqn:Ee0; [lia|].
  destruct (prussdrv_load_datafile k 1 <? 0) eqn:El1;
  destruct (prussdrv_exec_program k 1 <? 0) eqn:Ee1;
  destruct (socket k <? 0) eqn:Es;
  (split; [intros; try (exfalso; lia)|split; [intros; try (exfalso; lia)|]]);
  try (eexists; split; [reflexivity|];
       repeat first [reflexivity | apply suffix_cons_r]);
  intros acts r f Hst Hin; inversion Hst; subst; clear Hst; simpl in Hin;
  repeat (destruct Hin as [Hin|Hin]; [try discriminate Hin; inversion Hin; auto|]);
  contradiction.
Qed.

Lemma second_producer_failure_names_first_witness :
  (prussdrv_load_datafile calls_limit_data_missing 1 < 0 ->
   exists acts,
     startup sample_argv calls_limit_data_missing producers_started leftover_shared
       = Some (acts, inl (E_exit (-1))) /\
     [A_load_datafile 1 "Limit.dat"; A_error_loading "Encoder.dat"] `suffix_of` acts) /\
  (0 <= prussdrv_load_datafile calls_limit_data_missing 1 ->
   prussdrv_exec_program calls_limit_data_missing 1 < 0 ->
   exists acts,
     startup sample_argv calls_limit_data_missing producers_started leftover_shared
       = Some (acts, inl (E_exit (-1))) /\
     [A_exec_program 1 "Limit.bin"; A_error_loading "Encoder.bin"] `suffix_of` acts) /\
  (forall acts r f,
     startup sample_argv calls_limit_data_missing producers_started leftover_shared = Some (acts, r) ->
     In (A_error_loading f) acts -> f = "Encoder.bin" \/ f = "Encoder.dat").
Proof.
  apply (second_producer_failure_names_first
           "loader" "Encoder.bin" "Encoder.dat" "Limit.bin" "Limit.dat"
           calls_limit_data_missing producers_started leftover_shared).
  - repeat split.
  - discriminate.
  - simpl. lia.
  - simpl. lia.
Defined.

(** ** The end of [main] *)

Lemma emits_seq (a b : stmt) :
  emits_loop_events a -> emits_loop_events b -> emits_loop_events (a ;;; b).
Proof.
  intros Ha Hb h s h' s' e. unfold seq.
  destruct (a h s) as [[[h1 s1] e1]|] eqn:E1; [|discriminate].
  destruct (b h1 s1) as [[[h2 s2] e2]|] eqn:E2; [|discriminate].
  intros H. inversion H; subst. apply Forall_app. split; eauto.
Qed.

Lemma emits_when (cond : Host -> Shared -> bool) (a : stmt) :
  emits_loop_events a -> emits_loop_events (when cond a).
Proof.
  intros Ha h s h' s' e. unfold when, skip. destruct (cond h s); [apply Ha|].
  intros H. inversion H. constructor.
Qed.

Ltac emits_basic :=
  intros h s h' s' e H;
  repeat match type of H with
         | context [match ?c with Encoder => _ | Limit => _ | Error => _ end] => destruct c
         end;
  unfold read_clock, take_offset, copy_packet, print_limit_state, bump_index,
    clear_ready, stamp_encoder_time, announce, sendto_batch, reset_index,
    announce_timeout, set_timeout_type, sendto_timeout in H;
  repeat match type of H with
         | context [mbind _ ?x] => destruct x; simpl in H
         end;
  simpl in H; try discriminate H; inversion H; subst;
  repeat constructor.

Lemma emits_loop_body (CPS clk : Z) : emits_loop_events (loop_body CPS clk).
Proof.
  unfold loop_body, drain, dispatch, staleness.
  repeat first
    [ apply emits_seq | apply emits_when
    | match goal with |- emits_loop_events (match ?c with _ => _ end) => destruct c end
    | emits_basic ].
Qed.

Lemma acquisition_loop_events (CPS : Z) (sched : list ((Shared -> Shared) * Z)) :
  forall h s h' s' out,
    ended_with (acquisition_loop CPS sched h s) h' s' out -> Forall loop_event out.
Proof.
  induction sched as [|[env clk] rest IH]; intros h s h' s' out; simpl.
  - intros [H|H]; inversion H. constructor.
  - destruct (on (env s) =? 1).
    { intros [H|H]; inversion H. constructor. }
    destruct (loop_body CPS clk h (env s)) as [[[h1 s1] e1]|] eqn:Hb.
    + pose proof (emits_loop_body CPS clk _ _ _ _ _ Hb) as He.
      specialize (IH h1 s1).
      destruct (acquisition_loop CPS rest h1 s1) as [h2 s2 o2|h2 s2 o2|]; simpl;
        intros [H|H]; inversion H; subst;
        apply Forall_app; split; try exact He; eapply IH; try (left; reflexivity);
        right; reflexivity.
    + intros [H|H]; discriminate H.
Qed.

Lemma loop_events_untouched (a : list action) (out : list event) :
  prus_untouched a -> Forall loop_event out -> prus_untouched (a ++ map A_event out).
Proof.
  intros [Hd Hx] Hout. split; [intros pru|]; rewrite in_app_iff, in_map_iff;
    (intros [H|(e & He & Hin)]; [firstorder|]);
    rewrite List.Forall_forall in Hout; apply Hout in Hin;
    inversion He; subst; exact Hin.
Qed.

Lemma startup_untouched (argv : list string) (k : Calls)
    (producers : Shared -> Shared) (s : Shared)
    (a : list action) (r : ending + Host * Shared) :
  startup argv k producers s = Some (a, r) -> prus_untouched a /\ r <> inl (E_return 0).
Proof.
  destruct (decide (length argv = 5%nat)) as [H5|H5].
  - destruct (length_five argv H5) as (a0 & a1 & a2 & a3 & a4 & ->).
    unfold startup, load_datafile, exec_program.
    change (Z.of_nat (length [a0; a1; a2; a3; a4])) with 5.
    destruct (init_shared s) as [s1|];
    destruct (prussdrv_open k =? -1);
    destruct (prussdrv_load_datafile k 0 <? 0);
    destruct (prussdrv_exec_program k 0 <? 0);
    destruct (prussdrv_load_datafile k 1 <? 0);
    destruct (prussdrv_exec_program k 1 <? 0);
    destruct (socket k <? 0);
    intros H; try discriminate H; inversion H; subst; clear H;
    (split; [|discriminate]); (split; [intros pru|]); simpl;
    intuition discriminate.
  - destruct argv as [|a0 rest]; [discriminate|].
    rewrite (startup_wrong_count _ a0) by (auto || reflexivity).
    intros H; inversion H; subst; clear H.
    (split; [|discriminate]); (split; [intros pru|]); simpl; intuition discriminate.
Qed.

(** [main] stops the PRUs and closes the driver in one case only: the loop
    was left on [*on == 1] and the test of line 248 reads 1 again; it then
    waits for the event, prints, disables PRU1, PRU0 and exits the driver,
    in that order, and returns 0.  When the flag has changed in between it
    returns 0 with the PRUs as they were, and every ending of the start-up
    leaves them as they were, a producer already started included. *)
Theorem main_tears_down_iff
    (CPS : Z) (argv : list string) (k : Calls)
    (producers : Shared -> Shared) (s : Shared)
    (sched : list ((Shared -> Shared) * Z)) (last : Shared -> Shared)
    (acts : list action) (e : ending) :
  main CPS argv k producers s sched last = Ended acts e ->
  (e <> E_return 0 ->
   startup argv k producers s = Some (acts, inl e) /\ prus_untouched acts) /\
  (e = E_return 0 ->
   exists a h s1 h' s' out,
     startup argv k producers s = Some (a, inr (h, s1)) /\
     acquisition_loop CPS sched h s1 = Exited h' s' out /\
     on s' = 1 /\
     (on (last s') = 1 ->
      acts = (a ++ map A_event out) ++
             map A_event [Pru_wait_event; Print_all_done;
                          Pru_disable 1; Pru_disable 0; Pruss_exit]) /\
     (on (last s') <> 1 -> acts = a ++ map A_event out /\ prus_untouched acts)).
Proof.
  unfold main. destruct (startup argv k producers s) as [[a [e0|[h s1]]]|] eqn:Hst;
    [| |discriminate].
  - intros H. inversion H; subst. destruct (startup_untouched _ _ _ _ _ _ Hst) as [Hu Hr].
    split; [intros _; auto|]. intros ->. contradiction Hr. reflexivity.
  - destruct (acquisition_loop CPS sched h s1) as [h' s' out|h' s' out|] eqn:Hl;
      try discriminate.
    intros H. inversion H; subst. split; [intros Hn; contradiction Hn; reflexivity|].
    intros _. exists a, h, s1, h', s', out. split; [reflexivity|].
    split; [exact Hl|]. split; [eapply exited_on; exact Hl|].
    unfold teardown. split.
    + intros ->. simpl. rewrite <- app_assoc. reflexivity.
    + intros Hn. destruct (Z.eqb_spec (on (last s')) 1); [contradiction|].
      simpl. rewrite app_nil_r. split; [reflexivity|].
      apply loop_events_untouched; [apply (startup_untouched _ _ _ _ _ _ Hst)|].
      eapply acquisition_loop_events. left. exact Hl.
Qed.

(** ** The layout of the shared RAM *)

Ltac layout :=
  cbv [inside host_pointer extent OFFSET ADDRESS
       ON_OFFSET OVERFLOW_OFFSET ENCODER_READY_OFFSET ENCODER_OFFSET
       LIMIT_READY_OFFSET LIMIT_OFFSET ERROR_READY_OFFSET ERROR_OFFSET
       ON_ADDRESS OVERFLOW_ADDRESS ENCODER_READY_ADDRESS ENCODER_ADDRESS
       LIMIT_READY_ADDRESS LIMIT_ADDRESS
       sizeof_EncoderInfo sizeof_LimitInfo sizeof_ErrorInfo
       SIZEOF_INT32 SIZEOF_ULONG READOUT_BYTES ENCODER_COUNTER_SIZE] in *;
  repeat match goal with
         | |- context [Z.quot ?a ?b] =>
             let v := eval vm_compute in (Z.quot a b) in change (Z.quot a b) with v
         | H : context [Z.quot ?a ?b] |- _ =>
             let v := eval vm_compute in (Z.quot a b) in change (Z.quot a b) with v in H
         end.

Lemma host_pointer_offset (p : Z) (o : object) : host_pointer p o = p + OFFSET o.
Proof. destruct o; layout; lia. Qed.

(** The eight objects of the shared RAM lie apart: no byte belongs to two
    of them, so a store through one of the host's pointers leaves what the
    other seven point to alone.  Each pointer is the mapped base plus its
    offset in bytes, and the six addresses the producers use are those
    offsets from the address of the run flag. *)
Theorem shared_objects_apart (p : Z) :
  (forall o, host_pointer p o = p + OFFSET o) /\
  (forall o a, ADDRESS o = Some a -> a - ON_ADDRESS = host_pointer p o - host_pointer p O_on) /\
  (forall o1 o2 a, inside p o1 a -> inside p o2 a -> o1 = o2).
Proof.
  split; [apply host_pointer_offset|]. split.
  - intros o a H. destruct o; layout; inversion H; lia.
  - intros o1 o2 a H1 H2.
    destruct o1, o2; try reflexivity; exfalso; layout; lia.
Qed.

Lemma memset_in (a v n : Z) (m : memory) (x : Z) :
  a <= x < a + n -> memset a v n m x = v.
Proof.
  intros H. unfold memset.
  destruct (Z.leb_spec a x), (Z.ltb_spec x (a + n)); try lia. reflexivity.
Qed.

Lemma memset_out (a v n : Z) (m : memory) (x : Z) :
  ~ (a <= x < a + n) -> memset a v n m x = m x.
Proof.
  intros H. unfold memset.
  destruct (Z.leb_spec a x), (Z.ltb_spec x (a + n)); try lia; reflexivity.
Qed.

Lemma store_zero_in (a : Z) (m : memory) (x : Z) :
  a <= x < a + 4 -> store_ulong a 0 m x = 0.
Proof.
  intros H. unfold store_ulong, SIZEOF_ULONG.
  destruct (Z.leb_spec a x), (Z.ltb_spec x (a + 4)); try lia.
  cbn [andb]. rewrite Z.shiftr_0_l. reflexivity.
Qed.

Lemma store_out (a v : Z) (m : memory) (x : Z) :
  ~ (a <= x < a + 4) -> store_ulong a v m x = m x.
Proof.
  intros H. unfold store_ulong, SIZEOF_ULONG.
  destruct (Z.leb_spec a x), (Z.ltb_spec x (a + 4)); try lia; reflexivity.
Qed.

(** Peel the stores of [init_memory] off, the last one first. *)
Ltac peel :=
  repeat first
    [ rewrite store_zero_in by lia; reflexivity
    | rewrite store_out by lia
    | rewrite memset_in by lia; reflexivity
    | rewrite memset_out by lia
    | match goal with
      | |- memset ?a0 _ _ _ ?x0 = _ =>
          destruct (Z_le_gt_dec a0 x0);
          [rewrite memset_in by lia; reflexivity | rewrite memset_out by lia]
      end ];
  try reflexivity.

Lemma init_memory_byte (p : Z) (m : memory) (a : Z) :
  (cleared p a -> init_memory p m a = 0) /\
  (~ cleared p a -> init_memory p m a = m a).
Proof.
  unfold cleared, init_memory. layout. cbv zeta.
  split; [intros H; decompose [or] H; clear H|intros H]; peel.
Qed.

Lemma load_ulong_zero (a : Z) (m : memory) :
  (forall x, a <= x < a + 4 -> m x = 0) -> load_ulong a m = 0.
Proof.
  intros H. unfold load_ulong. rewrite !H by lia. reflexivity.
Qed.

Lemma load_ulong_same (a : Z) (m m' : memory) :
  (forall x, a <= x < a + 4 -> m' x = m x) -> load_ulong a m' = load_ulong a m.
Proof.
  intros H. unfold load_ulong. rewrite !H by lia. reflexivity.
Qed.

Lemma load_ulongs_zero (a n : Z) (m : memory) :
  (forall x, a <= x < a + 4 * n -> m x = 0) ->
  load_ulongs a n m = replicate (Z.to_nat n) 0.
Proof.
  intros H. unfold load_ulongs. apply list_eq. intros i.
  rewrite list_lookup_fmap.
  destruct (decide (Z.of_nat i < n)) as [Hi|Hi].
  - rewrite lookup_seqZ_lt by lia. simpl.
    rewrite (proj2 (lookup_replicate _ _ _ _)) by (split; [reflexivity|lia]).
    f_equal. apply load_ulong_zero. intros x Hx. apply H. unfold SIZEOF_ULONG in *. lia.
  - rewrite lookup_seqZ_ge by lia. simpl. symmetry.
    apply lookup_replicate_None. lia.
Qed.

Lemma array_set_pair_0 {A} (x y z : A) : array_set [x; y] 0 z = Some [z; y].
Proof. reflexivity. Qed.

Lemma array_set_pair_1 {A} (x y z : A) : array_set [x; y] 1 z = Some [x; z].
Proof. reflexivity. Qed.

Ltac cleared_word p m :=
  apply load_ulong_zero; intros x Hx;
  apply (proj1 (init_memory_byte p m x)); unfold cleared; layout; lia.

Ltac kept_word p m :=
  apply load_ulong_same; intros x Hx;
  apply (proj2 (init_memory_byte p m x)); unfold cleared; layout; lia.

Ltac cleared_words p m :=
  apply load_ulongs_zero; intros x Hx;
  apply (proj1 (init_memory_byte p m x)); unfold cleared; layout; lia.

(** The initialisation of lines 135-144, done on the bytes of the RAM
    through the host's pointers, is the initialisation on the eight
    objects: the memsets cover the two encoder slots, the two limit slots
    and the first error slot exactly, the four stores the three ready flags
    and the run flag, and every other byte, the overflow counter and the
    second error slot among them, keeps its value. *)
Theorem init_memory_is_init_shared (p : Z) (m : memory) :
  init_shared (shared_of p m) = Some (shared_of p (init_memory p m)) /\
  (forall a, cleared p a -> init_memory p m a = 0) /\
  (forall a, ~ cleared p a -> init_memory p m a = m a) /\
  (forall a, inside p O_clock_overflow a -> ~ cleared p a) /\
  (forall a, host_pointer p O_error_packets + sizeof_ErrorInfo <= a
             < host_pointer p O_error_packets + 2 * sizeof_ErrorInfo -> ~ cleared p a).
Proof.
  split; [|split; [|split; [|split]]].
  - unfold init_shared, shared_of.
    cbn [encoder_packets limit_packets error_packets clock_overflow].
    rewrite !array_set_pair_0. cbn [mbind option_bind].
    rewrite !array_set_pair_1. cbn [mbind option_bind].
    f_equal. f_equal; symmetry.
    + cleared_word p m.
    + kept_word p m.
    + cleared_word p m.
    + unfold zero_EncoderInfo, load_EncoderInfo.
      f_equal; [f_equal; [cleared_word p m|cleared_words p m..]|].
      f_equal. f_equal; [cleared_word p m|cleared_words p m..].
    + cleared_word p m.
    + unfold zero_LimitInfo, load_LimitInfo.
      f_equal; [f_equal; cleared_word p m|].
      f_equal. f_equal; cleared_word p m.
    + cleared_word p m.
    + unfold zero_ErrorInfo, load_ErrorInfo.
      f_equal; [f_equal; cleared_word p m|].
      f_equal. f_equal; kept_word p m.
  - intros a. apply init_memory_byte.
  - intros a. apply init_memory_byte.
  - intros a. unfold cleared. layout. lia.
  - intros a. unfold cleared. layout. lia.
Qed.

(** ** What an iteration sends *)


Lemma timeout_datagrams_run (CPS : Z) (sched : list ((Shared -> Shared) * Z)) :
  forall h s h' s' out,
    loop_head h s -> envs_ok sched ->
    map tmo_header (timeout_packet h) = [0x1234] ->
    ended_with (acquisition_loop CPS sched h s) h' s' out ->
    Forall (fun b => b = timeout_datagram) (sent S_timeout out) /\
    map tmo_header (timeout_packet h') = [0x1234].
Proof.
  induction sched as [|[env clk] rest IH]; intros h s h' s' out Hh Hok Hhd He; simpl in *.
  - destruct He as [He|He]; inversion He; subst. split; [constructor|exact Hhd].
  - inversion Hok as [|x l Henv Hrest]; subst. simpl in Henv.
    pose proof (env_ok_head env h s Henv Hh) as Hh0.
    destruct (on (env s) =? 1).
    { destruct He as [He|He]; inversion He; subst. split; [constructor|exact Hhd]. }
    destruct (loop_body_spec CPS clk h (env s) Hh0)
      as (h1 & s1 & e & Hb & Hh1 & _ & _ & _ & _ & _ & _ & Hst & Hk).
    rewrite Hb in He. apply ended_with_emit in He as (out' & -> & He).
    rewrite Hhd in Hk.
    destruct (IH h1 s1 h' s' out' Hh1 Hrest Hk He) as [IHs IHh].
    split; [|exact IHh]. rewrite sent_app, Hst. apply Forall_app. split; [|exact IHs].
    destruct (stale CPS clk h (env s)); [|constructor].
    unfold timeout_bytes. destruct (timeout_packet h) as [|t [|]]; try discriminate Hhd.
    inversion Hhd as [Ht]. constructor; [|constructor].
    unfold TimeoutInfo_bytes, TimeoutInfo_words. simpl. rewrite Ht. reflexivity.
Qed.

(** Every timeout datagram the loop ever sends is the same eight bytes,
    34 12 00 00 01 00 00 00: the header written before the loop and the
    type written before the first of them is sent. *)
Theorem timeout_datagrams_identical
    (CPS clk : Z) (sched : list ((Shared -> Shared) * Z)) (s : Shared)
    (h' : Host) (s' : Shared) (out : list event) :
  loop_head (host_at_loop_entry clk) s -> envs_ok sched ->
  ended_with (acquisition_loop CPS sched (host_at_loop_entry clk) s) h' s' out ->
  Forall (fun b => b = timeout_datagram) (sent S_timeout out).
Proof.
  intros Hh Hok He.
  apply (timeout_datagrams_run CPS sched _ _ _ _ _ Hh Hok eq_refl He).
Qed.

(** A packet published while the host is between the copy and the
    acknowledgment of the one before is lost: the host clears the flag
    that announces it without having copied it, and leaves the drain block
    with the earlier packet in its batch. *)
Theorem publication_during_drain_is_lost
    (CPS : Z) (c : channel) (h : Host) (s s' : Shared) :
  host_sized h -> two_slots s -> fill_index c h = 0 -> 1 <= ready c s <= 2 ->
  env_step (L_publish c) s s' ->
  exists h' p' tr,
    sys_run CPS (P_test c, h, s) tr (p', h', clear_flag c s') /\
    count_copies c tr = 1%nat /\
    count_publishes c tr = 1%nat /\
    batch_packet c h' 0 = slot_packet c s (ready c s - 1) /\
    ready c (clear_flag c s') = 0 /\
    in_drain c p' = false.
Proof.
  intros Hh Hs Hf Hr Henv.
  destruct h as [ets lts rts tp off ei li ri ct et].
  destruct s as [o co er ep lr lp rr rp].
  destruct Hh as (? & ? & ? & ?). destruct Hs as (? & ? & ?).
  simpl in *. shape_lists.
  destruct c; simpl in *; subst;
    match type of Hr with
    | 1 <= ?r <= 2 => assert (r = 1 \/ r = 2) as [-> | ->] by lia
    end;
    eexists _, _, _;
    (split;
     [match goal with
      | |- sys_run _ (P_test Limit, _, _) _ _ => do 5 host_runs
      | |- _ => do 4 host_runs
      end;
      (eapply sys_run_cons; [apply Sys_env; exact Henv|]);
      host_runs; apply Run_nil|]);
    repeat split.
Qed.

(** ** The producers, statement by statement *)

Lemma encoder_run_to_clock (r : Z) (p : GripperEncoder.Pru) (s : Shared) (t : IEP) :
  GripperEncoder.run_to 3 GripperEncoder.At_clock r (GripperEncoder.At_check, (p, s, t)) =
  Some ((GripperEncoder.At_clock,
         (p, fst (fst (GripperEncoder.check_overflow s t)),
          snd (fst (GripperEncoder.check_overflow s t)))),
        snd (GripperEncoder.check_overflow s t)).
Proof.
  unfold GripperEncoder.check_overflow.
  cbn [GripperEncoder.run_to GripperEncoder.step fst].
  destruct (negb (Z.land (tmr_sts t) 1 =? 0)); reflexivity.
Qed.

Lemma encoder_run_to_while (r : Z) (p : GripperEncoder.Pru) (s : Shared) (t : IEP) :
  GripperEncoder.run_to 8 GripperEncoder.At_while r (GripperEncoder.At_state, (p, s, t)) =
  s4 ← GripperEncoder.set_state (GripperEncoder.packet p) (GripperEncoder.index p)
         (Z.land r GripperEncoder.pru_mask) s;
  Some ((GripperEncoder.At_while,
         (fst (fst (GripperEncoder.advance p s4)), snd (fst (GripperEncoder.advance p s4)),
          iep_run GripperEncoder.DELAY_CYCLES t)),
        W_slot Encoder (GripperEncoder.packet p) F_state (GripperEncoder.index p)
               (Z.land r GripperEncoder.pru_mask)
        :: snd (GripperEncoder.advance p s4)).
Proof.
  unfold GripperEncoder.advance.
  cbn [GripperEncoder.run_to GripperEncoder.step fst].
  destruct (GripperEncoder.set_state _ _ _ s) as [s4|]; [|reflexivity].
  cbn [GripperEncoder.jump mbind option_bind GripperEncoder.run_to GripperEncoder.step fst
       GripperEncoder.index GripperEncoder.packet].
  destruct (ulong (GripperEncoder.index p + 1) =? ENCODER_COUNTER_SIZE); reflexivity.
Qed.

(** The statements of one pass of the encoder loop, run in order with the
    timer advancing between them, do what [iteration] does. *)
Lemma encoder_statements_make_the_pass
    (inp : GripperEncoder.Input) (p : GripperEncoder.Pru) (s : Shared) (t : IEP) :
  on s = 0 ->
  GripperEncoder.pass inp (GripperEncoder.At_while, (p, s, t)) =
  (fun r => ((GripperEncoder.At_while, fst r), snd r)) <$> GripperEncoder.iteration inp (p, s, t).
Proof.
  intros Hon. unfold GripperEncoder.pass, GripperEncoder.iteration.
  cbn [GripperEncoder.step]. rewrite Hon. change (0 =? 0) with true. cbv iota.
  cbn [mbind option_bind GripperEncoder.tick].
  rewrite encoder_run_to_clock.
  destruct (GripperEncoder.check_overflow s (iep_run (GripperEncoder.d_check inp) t))
    as [[s1 t2] w1].
  cbn [mbind option_bind GripperEncoder.tick GripperEncoder.step fst snd].
  destruct (GripperEncoder.set_clock _ _ _ s1) as [s2|]; [|reflexivity].
  cbn [GripperEncoder.jump mbind option_bind GripperEncoder.tick GripperEncoder.step fst snd].
  destruct (GripperEncoder.set_clock_overflow_at _ _ _ s2) as [s3|]; [|reflexivity].
  cbn [GripperEncoder.jump mbind option_bind].
  rewrite encoder_run_to_while.
  destruct (GripperEncoder.set_state _ _ _ s3) as [s4|]; [|reflexivity].
  cbn [mbind option_bind].
  destruct (GripperEncoder.advance p s4) as [[p' s5] w2].
  reflexivity.
Qed.

Lemma limit_statements_make_the_pass
    (inp : LimitSwitches.Input) (p : LimitSwitches.Pru) (s : Shared) (t : IEP) :
  on s = 0 ->
  LimitSwitches.pass inp (LimitSwitches.At_while, (p, s, t)) =
  (fun r => ((LimitSwitches.At_while, fst r), snd r)) <$> LimitSwitches.iteration inp (p, s, t).
Proof.
  intros Hon. unfold LimitSwitches.pass, LimitSwitches.iteration.
  cbn [LimitSwitches.step]. rewrite Hon. change (0 =? 0) with true. cbv iota.
  cbn [mbind option_bind LimitSwitches.step].
  destruct (negb (LimitSwitches.active (LimitSwitches.r31_test inp) =? 0)); [|reflexivity].
  cbn [fst decide decide_rel LimitSwitches.line_eq_dec].
  cbn [mbind option_bind LimitSwitches.tick LimitSwitches.step].
  destruct (LimitSwitches.set_clock _ _ s) as [s1|]; [|reflexivity].
  cbn [LimitSwitches.jump mbind option_bind LimitSwitches.tick LimitSwitches.step].
  destruct (LimitSwitches.set_clock_overflow_at _ _ s1) as [s2|]; [|reflexivity].
  cbn [LimitSwitches.jump mbind option_bind LimitSwitches.tick LimitSwitches.step].
  destruct (LimitSwitches.set_state _ _ s2) as [s3|]; reflexivity.
Qed.

(** The statements of a pass of either producer loop, run in order with
    the timer advancing between them where the pass has it advance, do
    what the pass does as a whole. *)
Theorem producer_statements_make_the_passes (s : Shared) :
  on s = 0 ->
  (forall inp p t,
     GripperEncoder.pass inp (GripperEncoder.At_while, (p, s, t)) =
     (fun r => ((GripperEncoder.At_while, fst r), snd r))
       <$> GripperEncoder.iteration inp (p, s, t)) /\
  (forall inp p t,
     LimitSwitches.pass inp (LimitSwitches.At_while, (p, s, t)) =
     (fun r => ((LimitSwitches.At_while, fst r), snd r))
       <$> LimitSwitches.iteration inp (p, s, t)).
Proof.
  intros Hon. split; intros inp p t.
  - apply encoder_statements_make_the_pass. exact Hon.
  - apply limit_statements_make_the_pass. exact Hon.
Qed.

(** ** The run flag *)

Lemma loop_goes_on (CPS v : Z) (sched : list ((Shared -> Shared) * Z)) :
  v <> 1 ->
  Forall (fun x => forall s0, on (fst x s0) = v) sched ->
  forall h s, loop_head h s -> envs_ok sched ->
  exists h' s' out, acquisition_loop CPS sched h s = Running h' s' out.
Proof.
  intros Hv. induction sched as [|[env clk] rest IH]; intros Hon h s Hh Hok; simpl.
  - eauto.
  - inversion Hon as [|x l Hon1 Hon2]; subst. simpl in Hon1.
    inversion Hok as [|x l Henv Hrest]; subst. simpl in Henv.
    rewrite Hon1. destruct (Z.eqb_spec v 1); [contradiction|].
    pose proof (env_ok_head env h s Henv Hh) as Hh0.
    destruct (loop_body_spec CPS clk h (env s) Hh0) as (h1 & s1 & e & Hb & Hh1 & _).
    rewrite Hb. destruct (IH Hon2 h1 s1 Hh1 Hrest) as (h' & s' & out & ->).
    simpl. eauto.
Qed.

(** The host leaves its loop on [*on == 1], the producers leave theirs on
    [*on != 0].  With any other value in the run flag, 2 say, both
    producers go to their halt at the next loop test while the host loops
    on for as long as the flag keeps that value. *)
Theorem run_flag_above_1_halts_the_producers_only
    (CPS v : Z) (sched : list ((Shared -> Shared) * Z)) (h : Host) (s : Shared) :
  v <> 0 -> v <> 1 ->
  loop_head h s -> envs_ok sched ->
  Forall (fun x => forall s0, on (fst x s0) = v) sched ->
  (exists h' s' out, acquisition_loop CPS sched h s = Running h' s' out) /\
  (forall r p s0 t,
     on s0 = v ->
     GripperEncoder.run_to 2 GripperEncoder.At_halt r (GripperEncoder.At_while, (p, s0, t))
     = Some ((GripperEncoder.At_halt, (p, s0, t)), [])) /\
  (forall r p s0 t,
     on s0 = v ->
     LimitSwitches.step r (LimitSwitches.At_while, (p, s0, t))
       = Some ((LimitSwitches.At_r31, (p, s0, t)), []) /\
     LimitSwitches.step r (LimitSwitches.At_r31, (p, s0, t))
       = Some ((LimitSwitches.At_halt, (p, s0, t)), [])).
Proof.
  intros H0 H1 Hh Hok Hon. split; [apply (loop_goes_on CPS v); assumption|].
  split; intros r p s0 t Hv.
  - cbn [GripperEncoder.run_to GripperEncoder.step fst]. rewrite Hv.
    destruct (Z.eqb_spec v 0); [contradiction|]. reflexivity.
  - cbn [LimitSwitches.step]. rewrite Hv.
    destruct (Z.eqb_spec v 0); [contradiction|]. split; reflexivity.
Qed.

(** ** The state words *)

Lemma land_3F00 (x : Z) : Z.land x 0x3F00 = 256 * ((x / 256) mod 64).
Proof.
  change 0x3F00 with (Z.shiftl (Z.ones 6) 8).
  transitivity (Z.shiftl (Z.land (Z.shiftr x 8) (Z.ones 6)) 8).
  - apply Z.bits_inj'. intros n Hn.
    rewrite Z.land_spec.
    destruct (Z_lt_le_dec n 8).
    + rewrite !Z.shiftl_spec_low by lia. apply andb_false_r.
    + rewrite !Z.shiftl_spec by lia. rewrite Z.land_spec, Z.shiftr_spec by lia.
      replace (n - 8 + 8) with n by lia. reflexivity.
  - rewrite Z.land_ones, Z.shiftr_div_pow2, Z.shiftl_mul_pow2 by lia.
    change (2 ^ 8) with 256. change (2 ^ 6) with 64. lia.
Qed.

(** The encoder stores the six low bits of the input register, a word
    between 0 and 63.  The limit producer reads the register twice, once
    for the test and once for the word it stores: the word has bits 8 to
    13 only, it is not 0 when the register held the same value at both
    reads, and it is 0, in a packet published all the same, when the
    switches have opened in between. *)
Theorem state_words_are_masked :
  (forall inp p s t,
     encoder_ok (p, s, t) ->
     exists st' w v,
       GripperEncoder.iteration inp (p, s, t) = Some (st', w) /\
       written Encoder (GripperEncoder.packet p) F_state w = [(GripperEncoder.index p, v)] /\
       v = (GripperEncoder.r31 inp) mod 64 /\ 0 <= v <= 63) /\
  (forall inp p s t,
     limit_ok (p, s, t) ->
     LimitSwitches.active (LimitSwitches.r31_test inp) <> 0 ->
     exists st' w v,
       LimitSwitches.iteration inp (p, s, t) = Some (st', w) /\
       written Limit (LimitSwitches.packet p) F_state w = [(0, v)] /\
       limit_ready (snd (fst st')) = LimitSwitches.packet p + 1 /\
       v = LimitSwitches.active (LimitSwitches.r31_state inp) /\
       0 <= v <= 0x3F00 /\ v mod 256 = 0 /\
       (LimitSwitches.r31_state inp = LimitSwitches.r31_test inp -> v <> 0)).
Proof.
  split.
  - intros inp p s t Hok.
    destruct (encoder_iteration_shape inp p s t Hok) as (e & _ & _ & Hit).
    cbv zeta in Hit. eexists _, _, _. split; [exact Hit|].
    assert (Hv : Z.land (GripperEncoder.r31 inp) GripperEncoder.pru_mask
                 = GripperEncoder.r31 inp mod 64).
    { change GripperEncoder.pru_mask with (Z.ones 6). rewrite Z.land_ones by lia. reflexivity. }
    split; [|split; [exact Hv|rewrite Hv;
                               pose proof (Z.mod_pos_bound (GripperEncoder.r31 inp) 64); lia]].
    destruct Hok as (Hq & Hi & _). rewrite advance_spec by assumption.
    rewrite !written_app. unfold GripperEncoder.check_overflow.
    destruct (negb _); destruct (completing p); cbn [fst snd written];
      repeat (case_decide; try (exfalso; intuition congruence)); reflexivity.
  - intros inp p s t Hok Hact.
    destruct (limit_iteration_shape inp p s t Hok) as (l & _ & Hit).
    cbv zeta in Hit.
    destruct (Z.eqb_spec (LimitSwitches.active (LimitSwitches.r31_test inp)) 0);
      [contradiction|].
    eexists _, _, _. split; [exact Hit|].
    split; [cbn [written]; repeat (case_decide; try (exfalso; intuition congruence));
            reflexivity|].
    split; [reflexivity|]. split; [reflexivity|].
    unfold LimitSwitches.active in *. change LimitSwitches.pru_mask with 0x3F00 in *.
    rewrite land_3F00 in *.
    pose proof (Z.mod_pos_bound (Z.lnot (LimitSwitches.r31_state inp) / 256) 64).
    split; [lia|]. split.
    + rewrite Z.mul_comm, Z.mod_mul by lia. reflexivity.
    + intros ->. exact Hact.
Qed.

(** ** The slot the host reads *)

Lemma encoder_other_slot_kept (inps : list GripperEncoder.Input) :
  forall p s t,
    encoder_ok (p, s, t) ->
    GripperEncoder.index p + Z.of_nat (length inps) <= ENCODER_COUNTER_SIZE ->
    exists st' w,
      GripperEncoder.iterations inps (p, s, t) = Some (st', w) /\
      encoder_ok st' /\
      array_get (encoder_packets (snd (fst st'))) (1 - GripperEncoder.packet p)
        = array_get (encoder_packets s) (1 - GripperEncoder.packet p) /\
      (forall f, written Encoder (1 - GripperEncoder.packet p) f w = []).
Proof.
  induction inps as [|inp rest IH]; intros p s t Hok Hlen.
  - eexists _, _. split; [reflexivity|]. split; [exact Hok|]. split; reflexivity.
  - destruct (encoder_iteration_shape inp p s t Hok) as (e & He & _).
    destruct (encoder_iteration_writes inp p s t e Hok He)
      as (p1 & s1 & t1 & front & e1 & Hit & _ & _ & Hkeep & _ & _ & Hnone & _).
    destruct (encoder_iteration_ok inp (p, s, t) Hok)
      as (st1 & w1 & Hit1 & Hok1 & Hp1 & Hi1 & _).
    rewrite Hit in Hit1. inversion Hit1 as [[Hst Hw]]. subst st1. clear Hit1.
    cbn [fst snd] in Hp1, Hi1.
    cbn [GripperEncoder.iterations]. rewrite Hit.
    assert (Hfw : forall f,
              written Encoder (1 - GripperEncoder.packet p) f
                (front ++ (if completing p
                           then [W_ready Encoder (GripperEncoder.packet p + 1)] else []))
              = []).
    { intros f. rewrite written_app, Hnone. destruct (completing p); reflexivity. }
    destruct rest as [|inp2 rest].
    + cbn [GripperEncoder.iterations]. eexists _, _. split; [reflexivity|].
      split; [exact Hok1|]. split; [exact Hkeep|].
      intros f. rewrite app_nil_r. apply Hfw.
    + assert (Hc : completing p = false).
      { unfold completing. cbn [length] in Hlen.
        destruct (Z.eqb_spec (GripperEncoder.index p + 1) ENCODER_COUNTER_SIZE); [lia|reflexivity]. }
      rewrite Hc in Hp1, Hi1.
      destruct (IH p1 s1 t1 Hok1) as (st' & w & Hits & Hok' & Hk' & Hw').
      { rewrite Hi1. cbn [length] in *. lia. }
      rewrite Hits. eexists _, _. split; [reflexivity|]. split; [exact Hok'|].
      rewrite Hp1 in Hk', Hw'. split; [rewrite Hk'; exact Hkeep|].
      intros f. rewrite written_app, Hfw, Hw'. reflexivity.
Qed.

(** While the encoder fills one slot it leaves the other alone: from the
    start of a packet, the slot it does not write - the one it has
    published last - keeps its contents through the next 120 passes; the
    host has that long to copy it.  The pass after those stores its clock
    reading into sample 0 of that slot. *)
Theorem published_slot_rests_120_passes
    (inps : list GripperEncoder.Input)
    (p : GripperEncoder.Pru) (s : Shared) (t : IEP) :
  encoder_ok (p, s, t) ->
  GripperEncoder.index p = 0 ->
  (length inps <= 120)%nat ->
  exists st' w,
    GripperEncoder.iterations inps (p, s, t) = Some (st', w) /\
    array_get (encoder_packets (snd (fst st'))) (1 - GripperEncoder.packet p)
      = array_get (encoder_packets s) (1 - GripperEncoder.packet p) /\
    (forall f, written Encoder (1 - GripperEncoder.packet p) f w = []) /\
    (length inps = 120%nat ->
     forall inp, exists st'' w' v,
       GripperEncoder.iteration inp st' = Some (st'', w') /\
       written Encoder (1 - GripperEncoder.packet p) F_clock w' = [(0, v)]).
Proof.
  intros Hok Hi Hlen.
  destruct (encoder_other_slot_kept inps p s t Hok) as (st' & w & Hits & Hok' & Hk & Hw).
  { rewrite Hi. unfold ENCODER_COUNTER_SIZE. lia. }
  exists st', w. split; [exact Hits|]. split; [exact Hk|]. split; [exact Hw|].
  intros H120 inp.
  destruct (encoder_iteration_shape (GripperEncoder.mkInput 0 0 0 0) p s t Hok)
    as (e & He & _).
  destruct (encoder_fill 119 inps p s t e H120 Hok) as
    (p' & s' & t' & body & e' & Hfill & _ & _ & Hp' & Hi' & _); [rewrite Hi; reflexivity|exact He|].
  rewrite Hfill in Hits. inversion Hits as [[Hst Hw']]. subst st'.
  destruct (encoder_pass inp p' s' t' Hok') as (p2 & s2 & w2 & Hit & _ & _ & _ & Hwc & _).
  cbv zeta in Hit, Hwc. rewrite Hp', Hi' in Hwc.
  eexists _, _, _. split; [exact Hit|exact Hwc].
Qed.

(** ** The time stamps of the encoder *)

Lemma iep_run_cases (d : Z) (t : IEP) :
  0 <= tmr_cnt t < ULONG_MAX1 -> 0 <= d -> tmr_cnt t + d < 2 * ULONG_MAX1 ->
  (tmr_cnt t + d < ULONG_MAX1 /\
   tmr_cnt (iep_run d t) = tmr_cnt t + d /\ flag (iep_run d t) = flag t) \/
  (ULONG_MAX1 <= tmr_cnt t + d /\
   tmr_cnt (iep_run d t) = tmr_cnt t + d - ULONG_MAX1 /\ flag (iep_run d t) = 1).
Proof.
  intros Hc Hd Hb. destruct (Z_lt_le_dec (tmr_cnt t + d) ULONG_MAX1).
  - left. rewrite iep_run_nowrap by lia. auto.
  - right. rewrite iep_run_wrap by lia. unfold flag. cbn [tmr_cnt tmr_sts].
    rewrite flag_set. auto.
Qed.

Lemma iep_write_sts_flag (t : IEP) :
  tmr_cnt (iep_write_sts 1 t) = tmr_cnt t /\ flag (iep_write_sts 1 t) = 0.
Proof. unfold flag, iep_write_sts. cbn [tmr_cnt tmr_sts]. rewrite flag_cleared. auto. Qed.

Lemma mod_of_stamp (k r : Z) :
  0 <= r < ULONG_MAX1 -> (k * ULONG_MAX1 + r) mod ULONG_MAX1 = r.
Proof.
  intros H. rewrite Z.add_comm, Z.mod_add by (unfold ULONG_MAX1; lia).
  apply Z.mod_small. exact H.
Qed.

Lemma timer_after_check (c1 d2 d3 D : Z) (t2 : IEP) :
  0 <= tmr_cnt t2 < ULONG_MAX1 -> flag t2 = 0 ->
  0 <= c1 -> c1 + 1 < ULONG_MAX1 ->
  0 <= d2 -> 0 <= d3 -> 0 <= D -> d2 + d3 + D <= 2 ^ 31 ->
  let t3 := iep_run d2 t2 in
  let t4 := iep_run d3 t3 in
  let t5 := iep_run D t4 in
  let B := stamp c1 (tmr_cnt t2) in
  0 <= tmr_cnt t3 < ULONG_MAX1 /\
  (B + d2) mod ULONG_MAX1 = tmr_cnt t3 /\
  stamp (ulong (c1 + flag t4)) (tmr_cnt t3) =
    B + d2 + (if ULONG_MAX1 <=? tmr_cnt t3 + d3 then ULONG_MAX1 else 0) /\
  0 <= tmr_cnt t5 < ULONG_MAX1 /\
  (flag t5 = 1 -> tmr_cnt t5 < 2 ^ 31) /\
  stamp (c1 + flag t5) (tmr_cnt t5) = B + d2 + d3 + D.
Proof.
  intros Hc Hf Hc1 Hc1' H2 H3 HD Hsum. cbv zeta.
  assert (HM : ULONG_MAX1 = 2 * 2 ^ 31) by reflexivity.
  assert (HP : 0 < 2 ^ 31) by lia.
  set (H := 2 ^ 31) in *. clearbody H.
  destruct (iep_run_cases d2 t2) as [(Hb & Hc3 & Hf3)|(Hb & Hc3 & Hf3)]; try lia;
    set (t3 := iep_run d2 t2) in *; clearbody t3;
    (destruct (iep_run_cases d3 t3) as [(Hd & Hc4 & Hf4)|(Hd & Hc4 & Hf4)]; try lia);
    set (t4 := iep_run d3 t3) in *; clearbody t4;
    (destruct (iep_run_cases D t4) as [(He & Hc5 & Hf5)|(He & Hc5 & Hf5)]; try lia);
    set (t5 := iep_run D t4) in *; clearbody t5;
    rewrite ?Hf5, ?Hf4, ?Hf3, ?Hf in *;
    rewrite (ulong_small (c1 + _)) by lia;
    (destruct (Z.leb_spec ULONG_MAX1 (tmr_cnt t3 + d3)); try lia);
    (split; [lia|]);
    (split;
     [unfold stamp; rewrite Hc3;
      first [ replace (c1 * ULONG_MAX1 + tmr_cnt t2 + d2)
                with (c1 * ULONG_MAX1 + (tmr_cnt t2 + d2)) by ring;
              apply mod_of_stamp; lia
            | replace (c1 * ULONG_MAX1 + tmr_cnt t2 + d2)
                with ((c1 + 1) * ULONG_MAX1 + (tmr_cnt t2 + d2 - ULONG_MAX1)) by ring;
              apply mod_of_stamp; lia ]|]);
    unfold stamp; repeat split; try lia; intros; lia.
Qed.

Lemma timer_pass (o d1 d2 d3 D : Z) (t : IEP) :
  0 <= tmr_cnt t < ULONG_MAX1 -> 0 <= o -> o + 2 < ULONG_MAX1 ->
  (flag t = 1 -> tmr_cnt t < 2 ^ 31) ->
  0 <= d1 -> 0 <= d2 -> 0 <= d3 -> 0 <= D -> d1 + d2 + d3 + D <= 2 ^ 31 ->
  let t1 := iep_run d1 t in
  let seen := negb (Z.land (tmr_sts t1) 1 =? 0) in
  let c1 := if seen then ulong (o + 1) else o in
  let t2 := if seen then iep_write_sts 1 t1 else t1 in
  let t3 := iep_run d2 t2 in
  let t4 := iep_run d3 t3 in
  let t5 := iep_run D t4 in
  let T0 := stamp (o + flag t) (tmr_cnt t) in
  0 <= tmr_cnt t3 < ULONG_MAX1 /\
  (T0 + d1 + d2) mod ULONG_MAX1 = tmr_cnt t3 /\
  stamp (ulong (c1 + Z.land (tmr_sts t4) 1)) (tmr_cnt t3) =
    T0 + d1 + d2 + (if ULONG_MAX1 <=? tmr_cnt t3 + d3 then ULONG_MAX1 else 0) /\
  0 <= tmr_cnt t5 < ULONG_MAX1 /\
  (flag t5 = 1 -> tmr_cnt t5 < 2 ^ 31) /\
  stamp (c1 + flag t5) (tmr_cnt t5) = T0 + d1 + d2 + d3 + D /\
  o <= c1 <= o + 1.
Proof.
  intros Hc Ho Ho2 Hf H1 H2 H3 HD Hsum. cbv zeta.
  assert (HM : ULONG_MAX1 = 2 * 2 ^ 31) by reflexivity.
  assert (HP : 0 < 2 ^ 31) by lia.
  pose proof (flag_bit (tmr_sts t)) as Hft. fold (flag t) in Hft.
  pose proof (flag_bit (tmr_sts (iep_run d1 t))) as Hft1.
  fold (flag (iep_run d1 t)) in Hft1 |- *.
  assert (Hbase :
    let t1 := iep_run d1 t in
    let seen := negb (flag t1 =? 0) in
    let c1 := if seen then ulong (o + 1) else o in
    let t2 := if seen then iep_write_sts 1 t1 else t1 in
    0 <= tmr_cnt t2 < ULONG_MAX1 /\ flag t2 = 0 /\ o <= c1 <= o + 1 /\
    stamp c1 (tmr_cnt t2) = stamp (o + flag t) (tmr_cnt t) + d1).
  { cbv zeta.
    destruct (iep_run_cases d1 t Hc H1) as [(Ha & Hc1 & Hf1)|(Ha & Hc1 & Hf1)]; [lia| |];
      set (t1 := iep_run d1 t) in *; clearbody t1;
      destruct (Z.eqb_spec (flag t1) 0) as [E|E]; cbn [negb];
      rewrite ?(ulong_small (o + 1)) by lia;
      try (destruct (iep_write_sts_flag t1) as [-> ->]);
      unfold stamp; repeat split; try lia. }
  cbv zeta in Hbase.
  set (t1 := iep_run d1 t) in *. clearbody t1.
  set (c1 := if negb (flag t1 =? 0) then ulong (o + 1) else o) in *. clearbody c1.
  set (t2 := if negb (flag t1 =? 0) then iep_write_sts 1 t1 else t1) in *. clearbody t2.
  destruct Hbase as (Hc2 & Hf2 & Hc1 & Hb).
  destruct (timer_after_check c1 d2 d3 D t2 Hc2 Hf2) as (A1 & A2 & A3 & A4 & A5 & A6);
    try lia.
  fold (flag (iep_run d3 (iep_run d2 t2))).
  rewrite Hb in A2, A3, A6.
  repeat split; try lia; try exact A2; try exact A3; try exact A5.
Qed.

Lemma clock_words_app (a b : list pwrite) :
  clock_words (a ++ b) = clock_words a ++ clock_words b.
Proof.
  induction a as [|x a IH]; [reflexivity|].
  destruct x as [| |c q f i v]; simpl; try exact IH.
  destruct c, f; simpl; rewrite ?IH; reflexivity.
Qed.

Lemma overflow_words_app (a b : list pwrite) :
  overflow_words (a ++ b) = overflow_words a ++ overflow_words b.
Proof.
  induction a as [|x a IH]; [reflexivity|].
  destruct x as [| |c q f i v]; simpl; try exact IH.
  destruct c, f; simpl; rewrite ?IH; reflexivity.
Qed.

Lemma encoder_pass_stamp (inp : GripperEncoder.Input)
    (p : GripperEncoder.Pru) (s : Shared) (t : IEP) :
  encoder_ok (p, s, t) -> timer_counted s t -> short_pass inp ->
  clock_overflow s + 2 < ULONG_MAX1 ->
  exists st' w,
    GripperEncoder.iteration inp (p, s, t) = Some (st', w) /\
    encoder_ok st' /\
    timer_counted (snd (fst st')) (snd st') /\
    iep_time (snd (fst st')) (snd st') = iep_time s t + pass_cycles inp /\
    clock_overflow s <= clock_overflow (snd (fst st')) <= clock_overflow s + 1 /\
    clock_words w = [(iep_time s t + GripperEncoder.d_check inp + GripperEncoder.d_clock inp)
                     mod ULONG_MAX1] /\
    length (overflow_words w) = 1%nat /\
    stamps w = [recorded (iep_time s t + GripperEncoder.d_check inp
                          + GripperEncoder.d_clock inp,
                          GripperEncoder.d_overflow inp)].
Proof.
  intros Hok (Ht & Ho & Hfl) (H1 & H2 & H3 & Hsum) Hbound.
  unfold pass_cycles in *.
  destruct (timer_pass (clock_overflow s) _ _ _ GripperEncoder.DELAY_CYCLES t
              Ht Ho Hbound Hfl H1 H2 H3 ltac:(unfold GripperEncoder.DELAY_CYCLES; lia) Hsum)
    as (B1 & B2 & B3 & B4 & B5 & B6 & B7).
  cbv zeta in B1, B2, B3, B4, B5, B6, B7.
  destruct (encoder_iteration_shape inp p s t Hok) as (e & _ & _ & Hshape).
  cbv zeta in Hshape.
  destruct (encoder_iteration_ok inp (p, s, t) Hok) as (st1 & w1 & Hit1 & Hok1 & _).
  match type of Hshape with
  | _ = Some (?X, _) => assert (Hst : st1 = X) by congruence
  end.
  rewrite Hst in Hok1. clear Hst Hit1 st1 w1.
  set (t1 := iep_run (GripperEncoder.d_check inp) t) in *.
  assert (Hr : GripperEncoder.check_overflow s t1 =
               (set_clock_overflow
                  (if negb (Z.land (tmr_sts t1) 1 =? 0)
                   then ulong (clock_overflow s + 1) else clock_overflow s) s,
                if negb (Z.land (tmr_sts t1) 1 =? 0) then iep_write_sts 1 t1 else t1,
                if negb (Z.land (tmr_sts t1) 1 =? 0)
                then [W_counter (ulong (clock_overflow s + 1))] else [])).
  { unfold GripperEncoder.check_overflow. destruct (negb _); [reflexivity|].
    destruct s; reflexivity. }
  rewrite Hr in Hshape, Hok1. cbn [fst snd] in Hshape, Hok1.
  set (c1 := if negb (Z.land (tmr_sts t1) 1 =? 0)
             then ulong (clock_overflow s + 1) else clock_overflow s) in *.
  set (t2 := if negb (Z.land (tmr_sts t1) 1 =? 0) then iep_write_sts 1 t1 else t1) in *.
  set (t3 := iep_run (GripperEncoder.d_clock inp) t2) in *.
  set (t4 := iep_run (GripperEncoder.d_overflow inp) t3) in *.
  set (t5 := iep_run GripperEncoder.DELAY_CYCLES t4) in *.
  destruct Hok as (Hq & Hi & _).
  rewrite advance_spec in Hshape, Hok1 by assumption.
  eexists _, _. split; [exact Hshape|].
  split; [exact Hok1|].
  assert (Hco : forall x y : GripperEncoder.Pru * Shared * list pwrite,
            clock_overflow (snd (fst x)) = c1 -> clock_overflow (snd (fst y)) = c1 ->
            clock_overflow (snd (fst (if completing p then x else y))) = c1)
    by (intros; destruct (completing p); assumption).
  cbn [fst snd].
  unfold timer_counted, iep_time, iep_ok. fold (flag t) (flag t5).
  rewrite Hco by reflexivity.
  split; [split; [exact B4|split; [lia|exact B5]]|].
  split; [rewrite B6; ring|]. split; [exact B7|].
  unfold stamps, recorded. cbn [fst snd].
  rewrite !clock_words_app, !overflow_words_app.
  assert (Hcw : forall l : list pwrite,
            l = (if negb (Z.land (tmr_sts t1) 1 =? 0)
                 then [W_counter (ulong (clock_overflow s + 1))] else []) ->
            clock_words l = [] /\ overflow_words l = [])
    by (intros l ->; destruct (negb _); split; reflexivity).
  destruct (Hcw _ eq_refl) as [-> ->].
  destruct (completing p); cbn [fst snd clock_words overflow_words app zip_with length];
    change (clock_overflow (set_clock_overflow c1 s)) with c1;
    rewrite B2, B3; repeat split; reflexivity.
Qed.

Lemma stamps_app (a b : list pwrite) :
  length (overflow_words a) = length (clock_words a) ->
  stamps (a ++ b) = stamps a ++ stamps b.
Proof.
  intros H. unfold stamps. rewrite clock_words_app, overflow_words_app.
  apply zip_with_app. exact H.
Qed.

Lemma encoder_stamps_run
    (inps : list GripperEncoder.Input)
    (p : GripperEncoder.Pru) (s : Shared) (t : IEP) :
  encoder_ok (p, s, t) -> timer_counted s t ->
  Forall short_pass inps ->
  clock_overflow s + Z.of_nat (length inps) + 1 < ULONG_MAX1 ->
  exists st' w,
    GripperEncoder.iterations inps (p, s, t) = Some (st', w) /\
    stamps w = map recorded (readings (iep_time s t) inps) /\
    iep_time (snd (fst st')) (snd st') = iep_time s t + run_cycles inps /\
    timer_counted (snd (fst st')) (snd st').
Proof.
  revert p s t. induction inps as [|inp rest IH]; intros p s t Hok Htc Hshort Hb.
  - eexists _, _. split; [reflexivity|]. cbn [fst snd run_cycles].
    split; [reflexivity|]. split; [lia|exact Htc].
  - inversion Hshort as [|x l Hin Hrest]; subst.
    cbn [length] in Hb.
    destruct (encoder_pass_stamp inp p s t Hok Htc Hin) as
      (st1 & w1 & Hit & Hok1 & Htc1 & Htime & Hco & Hcw & How & Hst); [lia|].
    destruct st1 as [[p1 s1] t1]. cbn [fst snd] in *.
    destruct (IH p1 s1 t1 Hok1 Htc1 Hrest) as (st' & w & Hits & Hsts & Htime' & Htc'); [lia|].
    cbn [GripperEncoder.iterations]. rewrite Hit, Hits.
    eexists _, _. split; [reflexivity|].
    split; [|split; [|exact Htc']].
    + rewrite stamps_app by (rewrite How, Hcw; reflexivity).
      rewrite Hst, Hsts, Htime. reflexivity.
    + rewrite Htime', Htime. cbn [run_cycles]. ring.
Qed.

(** The pair (clock_overflow, clock) the encoder stores with a sample
    counts the timer cycles: for passes of at most 2^31 cycles, and as long
    as the overflow counter itself does not wrap, the pair of every sample
    stands for the number of cycles gone by when its clock word was read
    (line 87), counted from the time the counter, the flag and the timer
    stood for at the start; or for exactly 2^32 cycles more, when the timer
    wraps between that read and the read of the overflow flag (line 88). *)
Theorem encoder_stamps_count_cycles
    (inps : list GripperEncoder.Input)
    (p : GripperEncoder.Pru) (s : Shared) (t : IEP) :
  encoder_ok (p, s, t) -> timer_counted s t ->
  Forall short_pass inps ->
  clock_overflow s + Z.of_nat (length inps) + 1 < ULONG_MAX1 ->
  exists st' w,
    GripperEncoder.iterations inps (p, s, t) = Some (st', w) /\
    stamps w = map recorded (readings (iep_time s t) inps) /\
    iep_time (snd (fst st')) (snd st') = iep_time s t + run_cycles inps /\
    timer_counted (snd (fst st')) (snd st').
Proof. apply encoder_stamps_run. Qed.

Lemma encoder_stamps_count_cycles_witness :
  exists st' w,
    GripperEncoder.iterations [quick_pass; slow_read; quick_pass]
      (GripperEncoder.mkPru 0 0, idle_shared, iep_near_wrap) = Some (st', w) /\
    stamps w = map recorded (readings (iep_time idle_shared iep_near_wrap)
                               [quick_pass; slow_read; quick_pass]) /\
    iep_time (snd (fst st')) (snd st')
      = iep_time idle_shared iep_near_wrap + run_cycles [quick_pass; slow_read; quick_pass] /\
    timer_counted (snd (fst st')) (snd st').
Proof.
  apply (encoder_stamps_count_cycles [quick_pass; slow_read; quick_pass]
           (GripperEncoder.mkPru 0 0) idle_shared iep_near_wrap).
  - apply encoder_ok_idle.
  - unfold timer_counted, iep_ok. simpl. unfold ULONG_MAX1. repeat split; try lia.
    intros H. discriminate H.
  - repeat (apply List.Forall_cons;
            [unfold short_pass, pass_cycles, GripperEncoder.DELAY_CYCLES; simpl; lia|]).
    apply List.Forall_nil.
  - simpl. unfold ULONG_MAX1. lia.
Defined.

(** The timer wraps between the read of the clock and the read of the
    overflow flag: the sample is stamped 2^32 cycles late. *)
Example stamp_one_wrap_ahead :
  exists st' w,
    GripperEncoder.iterations [slow_read]
      (GripperEncoder.mkPru 0 0, idle_shared, iep_at_the_brink) = Some (st', w) /\
    clock_words w = [ULONG_MAX1 - 1] /\ overflow_words w = [1] /\
    stamps w = [(ULONG_MAX1 - 1) + ULONG_MAX1] /\
    readings (iep_time idle_shared iep_at_the_brink) [slow_read] = [(ULONG_MAX1 - 1, 5)].
Proof. vm_compute. eexists _, _. repeat split. Qed.

(** Both producers clear the overflow flag of the timer they share when
    they start (GripperEncoder.c line 73, LimitSwitches.c line 63), and the
    limit producer is started after the encoder.  When its start finds a
    wrap that the encoder has not counted yet, the wrap is lost: the pair
    of every sample the encoder stores from then on stands for 2^32 cycles
    less than have gone by. *)
Theorem limit_start_loses_a_wrap
    (r31 : Z) (inps : list GripperEncoder.Input)
    (p : GripperEncoder.Pru) (pl : LimitSwitches.Pru) (s : Shared) (t : IEP) :
  encoder_ok (p, s, t) -> timer_counted s t -> flag t = 1 ->
  Forall short_pass inps ->
  clock_overflow s + Z.of_nat (length inps) + 1 < ULONG_MAX1 ->
  exists t',
    LimitSwitches.step r31 (LimitSwitches.At_sts_1, (pl, s, t))
      = Some ((LimitSwitches.At_cfg, (pl, s, t')), []) /\
    iep_time s t' = iep_time s t - ULONG_MAX1 /\
    exists st' w,
      GripperEncoder.iterations inps (p, s, t') = Some (st', w) /\
      stamps w = map recorded (readings (iep_time s t - ULONG_MAX1) inps).
Proof.
  intros Hok (Ht & Ho & Hfl) Hf Hshort Hb.
  exists (iep_write_sts 1 t). split; [reflexivity|].
  destruct (iep_write_sts_flag t) as [Hc Hf'].
  assert (Htime : iep_time s (iep_write_sts 1 t) = iep_time s t - ULONG_MAX1).
  { unfold iep_time. fold (flag t) (flag (iep_write_sts 1 t)).
    rewrite Hc, Hf', Hf. unfold stamp. ring. }
  split; [exact Htime|].
  destruct (encoder_stamps_run inps p s (iep_write_sts 1 t)) as (st' & w & Hits & Hst & _).
  - exact Hok.
  - unfold timer_counted, iep_ok. fold (flag (iep_write_sts 1 t)).
    rewrite Hc, Hf'. split; [exact Ht|]. split; [exact Ho|]. intros H. discriminate H.
  - exact Hshort.
  - exact Hb.
  - rewrite Htime in Hst. eauto.
Qed.

Lemma limit_start_loses_a_wrap_witness :
  exists t',
    LimitSwitches.step 0 (LimitSwitches.At_sts_1, (LimitSwitches.mkPru 0, idle_shared, iep_wrapped))
      = Some ((LimitSwitches.At_cfg, (LimitSwitches.mkPru 0, idle_shared, t')), []) /\
    iep_time idle_shared t' = iep_time idle_shared iep_wrapped - ULONG_MAX1 /\
    exists st' w,
      GripperEncoder.iterations [quick_pass; quick_pass]
        (GripperEncoder.mkPru 0 0, idle_shared, t') = Some (st', w) /\
      stamps w = map recorded (readings (iep_time idle_shared iep_wrapped - ULONG_MAX1)
                                 [quick_pass; quick_pass]).
Proof.
  apply (limit_start_loses_a_wrap 0 [quick_pass; quick_pass]
           (GripperEncoder.mkPru 0 0) (LimitSwitches.mkPru 0) idle_shared iep_wrapped).
  - apply encoder_ok_idle.
  - unfold timer_counted, iep_ok. simpl. unfold ULONG_MAX1. repeat split; try lia.
  - reflexivity.
  - repeat (apply List.Forall_cons;
            [unfold short_pass, pass_cycles, GripperEncoder.DELAY_CYCLES; simpl; lia|]).
    apply List.Forall_nil.
  - simpl. unfold ULONG_MAX1. lia.
Defined.

(** ** The three programs together *)

Lemma pair_headers_encoder (o co er : Z) (a b : EncoderInfo) (lr : Z) lp (rr : Z) rp :
  encoder_headers (mkShared o co er [a; b] lr lp rr rp) <->
  enc_header a = ENCODER_HEADER /\ enc_header b = ENCODER_HEADER.
Proof.
  unfold encoder_headers. cbn [encoder_packets]. split.
  - intros H. split; [apply (H 0)|apply (H 1)]; reflexivity.
  - intros [Ha Hb] j e Hj. apply array_get_Some in Hj as [Hj0 Hj].
    destruct (Z.to_nat j) as [|[|n]]; simpl in Hj; inversion Hj; subst; assumption.
Qed.

Lemma pair_headers_limit (o co er : Z) ep (lr : Z) (a b : LimitInfo) (rr : Z) rp :
  limit_headers (mkShared o co er ep lr [a; b] rr rp) <->
  lim_header a = LIMIT_HEADER /\ lim_header b = LIMIT_HEADER.
Proof.
  unfold limit_headers. cbn [limit_packets]. split.
  - intros H. split; [apply (H 0)|apply (H 1)]; reflexivity.
  - intros [Ha Hb] j e Hj. apply array_get_Some in Hj as [Hj0 Hj].
    destruct (Z.to_nat j) as [|[|n]]; simpl in Hj; inversion Hj; subst; assumption.
Qed.

Lemma encoder_datagram_shape (e : EncoderInfo) :
  enc_header e = ENCODER_HEADER -> EncoderInfo_sized e ->
  datagram_ok (Sendto (S_batch Encoder) (array_bytes EncoderInfo_bytes [e])).
Proof.
  intros Hh Hs. unfold array_bytes. cbn [map concat datagram_ok]. rewrite app_nil_r.
  split; [apply EncoderInfo_bytes_length; exact Hs|].
  unfold EncoderInfo_bytes, EncoderInfo_words, words_bytes. rewrite Hh. reflexivity.
Qed.

Lemma limit_datagram_shape (l : LimitInfo) :
  lim_header l = LIMIT_HEADER ->
  datagram_ok (Sendto (S_batch Limit) (array_bytes LimitInfo_bytes [l])).
Proof.
  intros Hh. unfold array_bytes. cbn [map concat datagram_ok]. rewrite app_nil_r.
  unfold LimitInfo_bytes, LimitInfo_words, words_bytes. rewrite Hh. split; reflexivity.
Qed.

Lemma timeout_datagram_shape (t : TimeoutInfo) :
  tmo_header t = 0x1234 -> tmo_type t = ENCODER_TIMEOUT_FLAG ->
  datagram_ok (Sendto S_timeout (TimeoutInfo_bytes t)).
Proof. destruct t as [hd ty]. simpl. intros -> ->. reflexivity. Qed.

(** Discharge the premise of an invariant clause when it holds here. *)
Ltac feed H :=
  match type of H with
  | ?A \/ ?B -> _ =>
      first
        [ let HA := fresh in
          assert (HA : A) by (clear H; first [reflexivity | lia | congruence]);
          specialize (H (or_introl HA)); clear HA
        | let HB := fresh in
          assert (HB : B) by (clear H; first [reflexivity | tauto | lia | congruence]);
          specialize (H (or_intror HB)); clear HB ]
  | ?A -> _ =>
      let HA := fresh in
      assert (HA : A) by (clear H; first [reflexivity | lia | congruence]);
      specialize (H HA); clear HA
  end.

Ltac settle_inv :=
  repeat match goal with |- _ /\ _ => split end;
  first
    [ assumption | reflexivity | discriminate
    | intros; first [assumption | reflexivity | discriminate | congruence | lia | tauto]
    | intros []; simpl; intros; first [discriminate | congruence | lia]
    | intros; eexists; repeat split; eauto; fail
    | intros; intuition (discriminate || congruence || lia || eauto); fail
    | idtac ].

Lemma world_inv_host (CPS clk : Z) (p : pc) (h : Host) (s : Shared) (t : IEP)
    (e : GripperEncoder.line * GripperEncoder.Pru) (l : LimitSwitches.line * LimitSwitches.Pru)
    (p' : pc) (h' : Host) (s' : Shared) (out : list event) :
  world_inv (mkWorld (p, h) s t e l) ->
  host_step CPS clk (p, h, s) = Some ((p', h', s'), out) ->
  world_inv (mkWorld (p', h') s' t e l) /\ Forall datagram_ok out.
Proof.
  destruct e as [le pe], l as [ll pl]. unfold world_inv. cbn [w_host w_shared w_encoder w_limit].
  intros (Hsafe & Hon & Hnd & Hsz & Hle & Hll & Hr0e & Hr0l & Hphe & Hphl & Hpe & Hpl
          & Hbe & Hbl & Hdis & Her & Hfe & Hde & Hdd & Hth & Htt) Hs.
  pose proof (safe_host _ _ _ _ _ _ _ Hsafe Hs) as Hsafe'.
  revert Hsafe'. generalize (safe_inv (p', h', s')). intros Safe' Hsafe'.
  pose proof (Hdis Encoder) as Hd1. pose proof (Hdis Limit) as Hd2. clear Hdis.
  destruct Hsafe as (Hh & Ht & Hr & Hb & Ha).
  pose proof (Hb Encoder) as Hb1. pose proof (Hb Limit) as Hb2.
  pose proof (Hr Encoder) as Hr1. pose proof (Hr Limit) as Hr2. clear Hb Hr.
  destruct h as [ets lts rts tp off ei li ri ct et].
  destruct s as [o co er ep lr lp rr rp].
  destruct Hh as (? & ? & ? & ?). destruct Ht as (? & ? & ?).
  unfold batch_ok, encoder_batch_ok, limit_batch_ok in *. simpl in *. shape_lists.
  rewrite pair_headers_encoder in *. rewrite pair_headers_limit in *.
  subst o rr ri.
  apply Forall_cons in Hsz as [Hsz3 Hsz]. apply Forall_cons in Hsz as [Hsz4 _].
  destruct p as [| |c0|c0|c0| |c0|c0| |c0|c0|c0|c0| | | | | |];
    try destruct c0; simpl in *; try discriminate;
    split_small ei; split_small li;
    try match type of Ha with
        | ?r <> 0 => assert (r = 1 \/ r = 2) as [-> | ->] by lia
        | 0 <= ?r <= 1 => assert (r = 0 \/ r = 1) as [-> | ->] by lia
        end;
    unfold_statements Hs;
    repeat match type of Hs with
           | context [if ?b then _ else _] => destruct b eqn:?
           end;
    inversion Hs; subst; clear Hs.
  all: change (ulong (0 + 1)) with 1 in *.
  all: unfold set_encoder_ready, set_limit_ready, set_error_ready in *.
  all: simpl in *.
  all: rewrite ?pair_headers_encoder, ?pair_headers_limit.
  all: try feed Hpe; try feed Hpl; try feed Hbe; try feed Hbl; try feed Htt;
       try feed Hd1; try feed Hd2.
  all: split; [split; [exact Hsafe'|]|].
  all: clear Hsafe'.
  all: try (constructor; fail).
  all: settle_inv.
  all: constructor; [|constructor].
  all: first
         [ exact I
         | destruct Hbe as (x & Hx & Hxh & Hxs); inversion Hx; subst;
           apply encoder_datagram_shape; assumption
         | destruct Hbl as (x & Hx & Hxh); inversion Hx; subst;
           apply limit_datagram_shape; assumption
         | inversion Hth; inversion Htt; apply timeout_datagram_shape; assumption ].
Qed.

Lemma array_get_pair_0 {A} (x y : A) : array_get [x; y] 0 = Some x.
Proof. reflexivity. Qed.

Lemma array_get_pair_1 {A} (x y : A) : array_get [x; y] 1 = Some y.
Proof. reflexivity. Qed.

Lemma safe_inv_frame (p : pc) (h : Host) (s s' : Shared) :
  safe_inv (p, h, s) -> two_slots s' ->
  (forall c, ready c s' = ready c s \/ 1 <= ready c s' <= 2) ->
  safe_inv (p, h, s').
Proof.
  intros (Hh & Ht & Hr & Hb & Ha) Ht' Hr'. unfold safe_inv.
  split; [exact Hh|]. split; [exact Ht'|]. split; [|split; [exact Hb|]].
  - intros c. destruct (Hr' c) as [-> | ?]; [apply Hr|lia].
  - destruct p; simpl in *; auto. destruct (Hr' c) as [-> | ?]; [exact Ha|lia].
Qed.

Lemma all_headers_pair (a b : EncoderInfo) :
  (forall j e, array_get [a; b] j = Some e -> enc_header e = ENCODER_HEADER) <->
  enc_header a = ENCODER_HEADER /\ enc_header b = ENCODER_HEADER.
Proof.
  split.
  - intros H. split; [apply (H 0)|apply (H 1)]; reflexivity.
  - intros [Ha Hb] j e Hj. apply array_get_Some in Hj as [Hj0 Hj].
    destruct (Z.to_nat j) as [|[|n]]; simpl in Hj; inversion Hj; subst; assumption.
Qed.

Lemma first_header_pair (a b : EncoderInfo) :
  (forall e, array_get [a; b] 0 = Some e -> enc_header e = ENCODER_HEADER) <->
  enc_header a = ENCODER_HEADER.
Proof.
  split.
  - intros H. apply H. reflexivity.
  - intros Ha e He. inversion He; subst. exact Ha.
Qed.

Lemma all_limit_headers_pair (a b : LimitInfo) :
  (forall j e, array_get [a; b] j = Some e -> lim_header e = LIMIT_HEADER) <->
  lim_header a = LIMIT_HEADER /\ lim_header b = LIMIT_HEADER.
Proof.
  split.
  - intros H. split; [apply (H 0)|apply (H 1)]; reflexivity.
  - intros [Ha Hb] j e Hj. apply array_get_Some in Hj as [Hj0 Hj].
    destruct (Z.to_nat j) as [|[|n]]; simpl in Hj; inversion Hj; subst; assumption.
Qed.

Lemma first_limit_header_pair (a b : LimitInfo) :
  (forall e, array_get [a; b] 0 = Some e -> lim_header e = LIMIT_HEADER) <->
  lim_header a = LIMIT_HEADER.
Proof.
  split.
  - intros H. apply H. reflexivity.
  - intros Ha e He. inversion He; subst. exact Ha.
Qed.

Ltac pair_forms :=
  rewrite ?pair_headers_encoder, ?pair_headers_limit,
    ?all_headers_pair, ?first_header_pair,
    ?all_limit_headers_pair, ?first_limit_header_pair in *.

Ltac settle_world :=
  repeat match goal with |- _ /\ _ => split end;
  first
    [ assumption | reflexivity | discriminate | exact I
    | intros; first [assumption | reflexivity | discriminate | congruence | lia | tauto]
    | repeat (apply List.Forall_cons; [unfold EncoderInfo_sized; cbn [enc_clock
        enc_clock_overflow enc_state]; rewrite ?length_insert; auto|]);
      apply List.Forall_nil
    | unfold encoder_line_ok, limit_line_ok, ENCODER_COUNTER_SIZE in *;
      cbn [GripperEncoder.packet GripperEncoder.index LimitSwitches.packet] in *;
      lia
    | intros; intuition (discriminate || congruence || lia || eauto); fail
    | idtac ].

Lemma world_inv_encoder (r31 : Z) (ph : pc * Host) (s : Shared) (t : IEP)
    (le : GripperEncoder.line) (pe : GripperEncoder.Pru)
    (l : LimitSwitches.line * LimitSwitches.Pru) :
  world_inv (mkWorld ph s t (le, pe) l) ->
  exists le' pe' s' t' w,
    GripperEncoder.step r31 (le, (pe, s, t)) = Some ((le', (pe', s', t')), w) /\
    world_inv (mkWorld ph s' t' (le', pe') l).
Proof.
  destruct ph as [p h], l as [ll pl]. unfold world_inv.
  cbn [w_host w_shared w_encoder w_limit].
  intros (Hsafe & Hon & Hnd & Hsz & Hle & Hll & Hr0e & Hr0l & Hphe & Hphl & Hpe & Hpl
          & Hrest).
  assert (Hsafe' : forall s', two_slots s' ->
            (forall c, ready c s' = ready c s \/ 1 <= ready c s' <= 2) ->
            safe_inv (p, h, s')) by (intros; eapply safe_inv_frame; eauto).
  destruct Hsafe as (_ & Ht & _).
  revert Hrest. generalize (fill_index Encoder h) (fill_index Limit h) (fill_index Error h).
  intros fe fl fx Hrest.
  destruct s as [o co er ep lr lp rr rp]. destruct Ht as (? & ? & ?).
  destruct pe as [q i]. destruct Hle as [Hq Hi].
  simpl in *. shape_lists.
  apply Forall_cons in Hsz as [(Hc3 & Ho3 & Hs3) Hsz].
  apply Forall_cons in Hsz as [(Hc4 & Ho4 & Hs4) _].
  assert (q = 0 \/ q = 1) as [-> | ->] by lia.
  all: destruct le; try contradiction.
  all: cbn [GripperEncoder.step].
  all: unfold GripperEncoder.jump, GripperEncoder.set_header,
         GripperEncoder.set_clock, GripperEncoder.set_clock_overflow_at,
         GripperEncoder.set_state, update_slot.
  all: cbn [encoder_packets GripperEncoder.packet GripperEncoder.index].
  all: rewrite ?array_get_pair_0, ?array_get_pair_1.
  all: cbn [mbind option_bind enc_clock enc_clock_overflow enc_state enc_header].
  all: rewrite ?array_set_in_range by (rewrite ?Hc3, ?Ho3, ?Hs3, ?Hc4, ?Ho4, ?Hs4;
                                       unfold ENCODER_COUNTER_SIZE in *; simpl; lia).
  all: cbn [mbind option_bind].
  all: rewrite ?array_set_pair_0, ?array_set_pair_1.
  all: cbn [mbind option_bind].
  all: repeat match goal with
              | |- context [if ?b then _ else _] => destruct b eqn:?
              end.
  all: eexists _, _, _, _, _; (split; [reflexivity|]).
  all: unfold set_encoder_ready, set_clock_overflow, set_encoder_packets.
  all: change (Z.to_nat 0) with 0%nat in *; change (Z.to_nat 1) with 1%nat in *.
  all: cbn [on clock_overflow encoder_ready encoder_packets limit_ready limit_packets
            error_ready error_packets encoder_stored_headers encoder_line_ok
            GripperEncoder.packet GripperEncoder.index insert list_insert] in *.
  all: rewrite ?(ulong_small (i + 1)) in * by (unfold ENCODER_COUNTER_SIZE, ULONG_MAX1 in *; lia).
  all: change (Z.land (Z.lxor 0 1) 1) with 1; change (Z.land (Z.lxor 1 1) 1) with 0.
  all: destruct Hrest as (Hbe & Hbl & Hdis & Her & Hfe & Hde & Hdd & Hth & Htt).
  all: pair_forms.
  all: try feed Hr0e.
  all: change (ulong (0 + 1)) with 1 in *; change (ulong (1 + 1)) with 2 in *.
  all: split; [apply Hsafe';
               [repeat split; reflexivity
               |intros []; simpl; first [left; reflexivity | left; lia | right; lia]]|].
  all: clear Hsafe'.
  all: settle_world.
Qed.

Lemma world_inv_limit (r31 : Z) (ph : pc * Host) (s : Shared) (t : IEP)
    (e : GripperEncoder.line * GripperEncoder.Pru)
    (ll : LimitSwitches.line) (pl : LimitSwitches.Pru) :
  world_inv (mkWorld ph s t e (ll, pl)) ->
  exists ll' pl' s' t' w,
    LimitSwitches.step r31 (ll, (pl, s, t)) = Some ((ll', (pl', s', t')), w) /\
    world_inv (mkWorld ph s' t' e (ll', pl')).
Proof.
  destruct ph as [p h], e as [le pe]. unfold world_inv.
  cbn [w_host w_shared w_encoder w_limit].
  intros (Hsafe & Hon & Hnd & Hsz & Hle & Hll & Hr0e & Hr0l & Hphe & Hphl & Hpe & Hpl
          & Hrest).
  assert (Hsafe' : forall s', two_slots s' ->
            (forall c, ready c s' = ready c s \/ 1 <= ready c s' <= 2) ->
            safe_inv (p, h, s')) by (intros; eapply safe_inv_frame; eauto).
  destruct Hsafe as (_ & Ht & _).
  revert Hrest. generalize (fill_index Encoder h) (fill_index Limit h) (fill_index Error h).
  intros fe fl fx Hrest.
  destruct s as [o co er ep lr lp rr rp]. destruct Ht as (? & ? & ?).
  destruct pl as [q]. destruct Hll as [Hq Hi].
  simpl in *. shape_lists.
  assert (q = 0 \/ q = 1) as [-> | ->] by lia.
  all: destruct ll; try contradiction.
  all: cbn [LimitSwitches.step].
  all: unfold LimitSwitches.jump, LimitSwitches.set_header,
         LimitSwitches.set_clock, LimitSwitches.set_clock_overflow_at,
         LimitSwitches.set_state, update_slot.
  all: cbn [limit_packets LimitSwitches.packet].
  all: rewrite ?array_get_pair_0, ?array_get_pair_1.
  all: cbn [mbind option_bind lim_clock lim_clock_overflow lim_state lim_header].
  all: rewrite ?array_set_pair_0, ?array_set_pair_1.
  all: cbn [mbind option_bind].
  all: repeat match goal with
              | |- context [if ?b then _ else _] => destruct b eqn:?
              end.
  all: eexists _, _, _, _, _; (split; [reflexivity|]).
  all: unfold set_limit_ready, set_limit_packets.
  all: cbn [on clock_overflow encoder_ready encoder_packets limit_ready limit_packets
            error_ready error_packets limit_stored_headers limit_line_ok
            LimitSwitches.packet] in *.
  all: destruct Hrest as (Hbe & Hbl & Hdis & Her & Hfe & Hde & Hdd & Hth & Htt).
  all: pair_forms.
  all: try feed Hr0l.
  all: change (ulong (0 + 1)) with 1 in *; change (ulong (1 + 1)) with 2 in *.
  all: change (Z.land (Z.lxor 0 1) 1) with 1; change (Z.land (Z.lxor 1 1) 1) with 0.
  all: split; [apply Hsafe';
               [repeat split; reflexivity
               |intros []; simpl; first [left; reflexivity | left; lia | right; lia]]|].
  all: clear Hsafe'.
  all: settle_world.
Qed.

Lemma world_inv_start (clk : Z) (s : Shared) (t : IEP) (w : world) :
  two_slots s -> world_at_start clk s t = Some w -> world_inv w.
Proof.
  intros (He & Hl & Hr). destruct s as [o co er ep lr lp rr rp]. simpl in *.
  destruct ep as [|ea [|eb [|]]]; try discriminate.
  destruct lp as [|la [|lb [|]]]; try discriminate.
  destruct rp as [|ra [|rb [|]]]; try discriminate.
  unfold world_at_start. cbn. intros Hw. inversion Hw; subst; clear Hw.
  unfold world_inv. cbn [w_host w_shared w_encoder w_limit GripperEncoder.loaded
                         LimitSwitches.loaded].
  split.
  { apply loop_entry_safe. unfold loop_entry, host_sized, two_slots. simpl.
    repeat split; intros []; reflexivity. }
  simpl. unfold encoder_line_ok, limit_line_ok, ENCODER_COUNTER_SIZE. simpl.
  repeat match goal with |- _ /\ _ => split end;
    try reflexivity; try discriminate; try lia; try exact I;
    try (intros [H|H]; first [discriminate H | exfalso; lia]);
    try (intros [H|[H|H]]; first [discriminate H | exfalso; lia]);
    try (intros; discriminate).
  repeat (apply List.Forall_cons; [repeat split|]). apply List.Forall_nil.
Qed.

Lemma world_inv_step (CPS : Z) (w w' : world) (out : list event) :
  world_inv w -> world_step CPS w out w' -> world_inv w' /\ Forall datagram_ok out.
Proof.
  intros Hinv Hstep.
  destruct Hstep as [clk p h s t e l p' h' s' out Hs
                    |r31 ph s t le pe l le' pe' s' t' w Hs
                    |r31 ph s t e ll pl ll' pl' s' t' w Hs
                    |d ph s t e l Hd].
  - eapply world_inv_host; eassumption.
  - destruct (world_inv_encoder r31 ph s t le pe l Hinv)
      as (le2 & pe2 & s2 & t2 & w2 & Hs2 & Hinv2).
    rewrite Hs in Hs2. inversion Hs2; subst. split; [exact Hinv2|constructor].
  - destruct (world_inv_limit r31 ph s t e ll pl Hinv)
      as (ll2 & pl2 & s2 & t2 & w2 & Hs2 & Hinv2).
    rewrite Hs in Hs2. inversion Hs2; subst. split; [exact Hinv2|constructor].
  - split; [exact Hinv|constructor].
Qed.

Lemma world_inv_run (CPS : Z) (w0 w : world) (out : list event) :
  world_inv w0 -> world_run CPS w0 out w -> world_inv w /\ Forall datagram_ok out.
Proof.
  intros H0 Hrun. induction Hrun as [w|w out w1 e w2 Hrun IH Hstep].
  - split; [exact H0|constructor].
  - destruct (IH H0) as [Hinv Hout].
    destruct (world_inv_step CPS w1 w2 e Hinv Hstep) as [Hinv2 He].
    split; [exact Hinv2|]. apply Forall_app. split; assumption.
Qed.

(** ** The three programs left to themselves *)

(** None of the three programs ever writes anything but 0 to the run flag:
    left to themselves, from the host's initialisation on, the flag stays
    0, the host never reaches the end of its loop and neither producer
    reaches its halt. *)
Theorem closed_world_never_stops
    (CPS clk : Z) (s : Shared) (t : IEP) (w0 w : world) (out : list event) :
  two_slots s ->
  world_at_start clk s t = Some w0 ->
  world_run CPS w0 out w ->
  on (w_shared w) = 0 /\
  fst (w_host w) <> P_done /\
  fst (w_encoder w) <> GripperEncoder.At_r31 /\
  fst (w_encoder w) <> GripperEncoder.At_halt /\
  fst (w_limit w) <> LimitSwitches.At_r31 /\
  fst (w_limit w) <> LimitSwitches.At_halt.
Proof.
  intros Hs H0 Hrun.
  destruct (world_inv_run CPS w0 w out (world_inv_start clk s t w0 Hs H0) Hrun) as [Hinv _].
  destruct w as [[p h] s1 t1 [le pe] [ll pl]]. unfold world_inv in Hinv.
  cbn [w_host w_shared w_encoder w_limit fst] in *.
  destruct Hinv as (_ & Hon & Hnd & _ & [_ Hle] & [_ Hll] & _).
  split; [exact Hon|]. split; [exact Hnd|].
  repeat split; intros ->; contradiction.
Qed.

(** In the system of the three programs every encoder datagram is 1444
    bytes that begin with the encoder header (D0 BA 00 00), every limit
    datagram 16 bytes that begin with the limit header (0D F0 00 00), every
    timeout datagram the eight bytes 34 12 00 00 01 00 00 00, and no error
    datagram is ever sent: nothing raises the error flag. *)
Theorem closed_world_datagrams
    (CPS clk : Z) (s : Shared) (t : IEP) (w0 w : world) (out : list event) :
  two_slots s ->
  world_at_start clk s t = Some w0 ->
  world_run CPS w0 out w ->
  Forall datagram_ok out /\
  sent (S_batch Error) out = [] /\
  error_ready (w_shared w) = 0.
Proof.
  intros Hs H0 Hrun.
  destruct (world_inv_run CPS w0 w out (world_inv_start clk s t w0 Hs H0) Hrun)
    as [Hinv Hout].
  split; [exact Hout|]. split.
  - clear Hinv Hrun. induction Hout as [|e out He Hout IH]; [reflexivity|].
    destruct e as [| | | | | | |k b| | |]; simpl; try exact IH.
    destruct k as [[]|]; simpl in *;
      rewrite ?decide_False by congruence; try exact IH. contradiction.
  - destruct w as [[p h] s1 t1 [le pe] [ll pl]]. unfold world_inv in Hinv.
    cbn [w_host w_shared w_encoder w_limit] in *. tauto.
Qed.

(** The system of the three programs stays inside its arrays with nothing
    assumed of the producers: in every state it reaches the ready flags
    hold 0, 1 or 2, and the next statement of the host and of either
    producer executes. *)
Theorem closed_world_stays_inside_arrays
    (CPS clk : Z) (s : Shared) (t : IEP) (w0 w : world) (out : list event) :
  two_slots s ->
  world_at_start clk s t = Some w0 ->
  world_run CPS w0 out w ->
  (forall c, 0 <= ready c (w_shared w) <= 2) /\
  (forall clk', exists cf' e,
     host_step CPS clk' (w_host w, w_shared w) = Some (cf', e)) /\
  (forall r31, exists cf' e,
     GripperEncoder.step r31 (fst (w_encoder w), (snd (w_encoder w), w_shared w, w_iep w))
       = Some (cf', e)) /\
  (forall r31, exists cf' e,
     LimitSwitches.step r31 (fst (w_limit w), (snd (w_limit w), w_shared w, w_iep w))
       = Some (cf', e)).
Proof.
  intros Hs H0 Hrun.
  destruct (world_inv_run CPS w0 w out (world_inv_start clk s t w0 Hs H0) Hrun) as [Hinv _].
  destruct w as [[p h] s1 t1 [le pe] [ll pl]].
  cbn [w_host w_shared w_encoder w_limit w_iep fst snd].
  split; [|split; [|split]].
  - unfold world_inv in Hinv. cbn [w_host w_shared w_encoder w_limit] in Hinv.
    destruct Hinv as ((_ & _ & Hr & _) & _). exact Hr.
  - intros clk'. apply safe_progress.
    unfold world_inv in Hinv. cbn [w_host w_shared w_encoder w_limit] in Hinv.
    apply Hinv.
  - intros r31. destruct (world_inv_encoder r31 (p, h) s1 t1 le pe (ll, pl) Hinv)
      as (le' & pe' & s' & t' & w' & Hst & _). eauto.
  - intros r31. destruct (world_inv_limit r31 (p, h) s1 t1 (le, pe) ll pl Hinv)
      as (ll' & pl' & s' & t' & w' & Hst & _). eauto.
Qed.

(** ** The properties on sample runs *)

Lemma world_0_runs : world_run 1000000 world_0 [] world_2.
Proof.
  change (@nil event) with (([] ++ []) ++ @nil event).
  eapply World_snoc; [eapply World_snoc; [apply World_nil|]|].
  - eapply Step_encoder with (r31 := 0). reflexivity.
  - eapply Step_host with (clk := 0). reflexivity.
Defined.

Lemma closed_world_never_stops_witness :
  on (w_shared world_2) = 0 /\
  fst (w_host world_2) <> P_done /\
  fst (w_encoder world_2) <> GripperEncoder.At_r31 /\
  fst (w_encoder world_2) <> GripperEncoder.At_halt /\
  fst (w_limit world_2) <> LimitSwitches.At_r31 /\
  fst (w_limit world_2) <> LimitSwitches.At_halt.
Proof.
  apply (closed_world_never_stops 1000000 0 leftover_shared iep_reset world_0 world_2 []).
  - repeat split.
  - reflexivity.
  - exact world_0_runs.
Defined.

Lemma world_move_step (CPS : Z) (m : move) (w w' : world) (out : list event) :
  world_move CPS m w = Some (w', out) -> world_step CPS w out w'.
Proof.
  destruct w as [[p h] s t [le pe] [ll pl]].
  destruct m as [clk|r31|r31|d]; cbn [world_move w_host w_shared w_iep w_encoder w_limit fst snd].
  - destruct (host_step CPS clk (p, h, s)) as [[[[p' h'] s'] e]|] eqn:Hs; [|discriminate].
    intros H. inversion H; subst. eapply Step_host. exact Hs.
  - destruct (GripperEncoder.step r31 (le, (pe, s, t))) as [[[le' [[pe' s'] t']] e]|] eqn:Hs;
      [|discriminate].
    intros H. inversion H; subst. eapply Step_encoder. exact Hs.
  - destruct (LimitSwitches.step r31 (ll, (pl, s, t))) as [[[ll' [[pl' s'] t']] e]|] eqn:Hs;
      [|discriminate].
    intros H. inversion H; subst. eapply Step_limit. exact Hs.
  - destruct (Z.leb_spec 0 d) as [Hd|Hd]; [|discriminate].
    intros H. inversion H; subst. apply Step_cycles. exact Hd.
Qed.

Lemma world_run_first (CPS : Z) (w w1 w2 : world) (e out : list event) :
  world_step CPS w e w1 -> world_run CPS w1 out w2 -> world_run CPS w (e ++ out) w2.
Proof.
  intros Hs Hr. induction Hr as [w1|w1 out w2 e2 w3 Hr IH Hs2].
  - rewrite app_nil_r. rewrite <- (app_nil_l e). eapply World_snoc; [apply World_nil|exact Hs].
  - rewrite app_assoc. eapply World_snoc; [apply IH; exact Hs|exact Hs2].
Qed.

Lemma world_moves_run (CPS : Z) (ms : list move) :
  forall w w' out, world_moves CPS ms w = Some (w', out) -> world_run CPS w out w'.
Proof.
  induction ms as [|m ms IH]; intros w w' out; simpl.
  - intros H. inversion H; subst. apply World_nil.
  - destruct (world_move CPS m w) as [[w1 e1]|] eqn:Hm; [|discriminate].
    destruct (world_moves CPS ms w1) as [[w2 e2]|] eqn:Hr; [|discriminate].
    intros H. inversion H; subst.
    eapply world_run_first; [eapply world_move_step; exact Hm|apply IH; exact Hr].
Qed.

Lemma world_sent_moves :
  world_moves 1000000 (producers_publish ++ host_goes_round) world_0 = Some world_sent.
Proof. vm_compute. reflexivity. Qed.

Lemma world_indexing_moves :
  world_moves 1000000 (producers_publish ++ all_about_to_index) world_0 = Some world_indexing.
Proof. vm_compute. reflexivity. Qed.

Lemma world_sent_run : world_run 1000000 world_0 (snd world_sent) (fst world_sent).
Proof.
  apply (world_moves_run 1000000 (producers_publish ++ host_goes_round)).
  rewrite world_sent_moves. destruct world_sent. reflexivity.
Qed.

Lemma world_indexing_run : world_run 1000000 world_0 (snd world_indexing) (fst world_indexing).
Proof.
  apply (world_moves_run 1000000 (producers_publish ++ all_about_to_index)).
  rewrite world_indexing_moves. destruct world_indexing. reflexivity.
Qed.

Lemma closed_world_datagrams_witness :
  (exists b, sent (S_batch Encoder) (snd world_sent) = [b] /\ length b = 1444%nat) /\
  (exists b, sent (S_batch Limit) (snd world_sent) = [b] /\ length b = 16%nat) /\
  fst (w_host (fst world_sent)) = P_while /\
  Forall datagram_ok (snd world_sent) /\
  sent (S_batch Error) (snd world_sent) = [] /\
  error_ready (w_shared (fst world_sent)) = 0.
Proof.
  split; [eexists; split; vm_compute; reflexivity|].
  split; [eexists; split; vm_compute; reflexivity|].
  split; [reflexivity|].
  apply (closed_world_datagrams 1000000 0 leftover_shared iep_reset world_0).
  - repeat split.
  - reflexivity.
  - exact world_sent_run.
Defined.

Lemma closed_world_stays_inside_arrays_witness :
  fst (w_host (fst world_indexing)) = P_copy Encoder /\
  fst (w_encoder (fst world_indexing)) = GripperEncoder.At_clock /\
  snd (w_encoder (fst world_indexing)) = GripperEncoder.mkPru 1 0 /\
  fst (w_limit (fst world_indexing)) = LimitSwitches.At_clock /\
  snd (w_limit (fst world_indexing)) = LimitSwitches.mkPru 1 /\
  encoder_ready (w_shared (fst world_indexing)) = 1 /\
  (forall c, 0 <= ready c (w_shared (fst world_indexing)) <= 2) /\
  (forall clk', exists cf' e,
     host_step 1000000 clk' (w_host (fst world_indexing), w_shared (fst world_indexing))
       = Some (cf', e)) /\
  (forall r31, exists cf' e,
     GripperEncoder.step r31
       (fst (w_encoder (fst world_indexing)),
        (snd (w_encoder (fst world_indexing)), w_shared (fst world_indexing),
         w_iep (fst world_indexing)))
       = Some (cf', e)) /\
  (forall r31, exists cf' e,
     LimitSwitches.step r31
       (fst (w_limit (fst world_indexing)),
        (snd (w_limit (fst world_indexing)), w_shared (fst world_indexing),
         w_iep (fst world_indexing)))
       = Some (cf', e)).
Proof.
  do 6 (split; [reflexivity|]).
  apply (closed_world_stays_inside_arrays 1000000 0 leftover_shared iep_reset
           world_0 (fst world_indexing) (snd world_indexing)).
  - repeat split.
  - reflexivity.
  - exact world_indexing_run.
Defined.

Lemma main_tears_down_iff_witness :
  exists acts,
    main 1000000 sample_argv calls_fine producers_started leftover_shared
         [(raise_on, 5)] id
      = Ended acts (E_return 0) /\
    (E_return 0 <> E_return 0 ->
     startup sample_argv calls_fine producers_started leftover_shared
       = Some (acts, inl (E_return 0)) /\
     prus_untouched acts) /\
    (E_return 0 = E_return 0 ->
     exists a h s1 h' s' out,
       startup sample_argv calls_fine producers_started leftover_shared
         = Some (a, inr (h, s1)) /\
       acquisition_loop 1000000 [(raise_on, 5)] h s1 = Exited h' s' out /\
       on s' = 1 /\
       (on (id s') = 1 ->
        acts = (a ++ map A_event out) ++
               map A_event [Pru_wait_event; Print_all_done;
                            Pru_disable 1; Pru_disable 0; Pruss_exit]) /\
       (on (id s') <> 1 -> acts = a ++ map A_event out /\ prus_untouched acts)).
Proof.
  eexists. split; [reflexivity|].
  apply (main_tears_down_iff 1000000 sample_argv calls_fine producers_started
           leftover_shared [(raise_on, 5)] id).
  reflexivity.
Defined.


Lemma env_ok_id : env_ok id.
Proof. intros s Ht Hr. split; assumption. Qed.

Lemma timeout_datagrams_identical_witness :
  exists h' s' out,
    acquisition_loop 1000000 [(id, 11000000); (id, 22000000)]
      (host_at_loop_entry 0) idle_shared = Running h' s' out /\
    length (sent S_timeout out) = 2%nat /\
    Forall (fun b => b = timeout_datagram) (sent S_timeout out).
Proof.
  eexists _, _, _. split; [reflexivity|]. split; [reflexivity|].
  eapply timeout_datagrams_identical
    with (CPS := 1000000) (clk := 0) (sched := [(id, 11000000); (id, 22000000)])
         (s := idle_shared).
  - apply loop_head_idle.
  - repeat (apply List.Forall_cons; [apply env_ok_id|]); apply List.Forall_nil.
  - right. reflexivity.
Defined.

Lemma publication_during_drain_is_lost_witness :
  exists h' p' tr,
    sys_run 1000000 (P_test Encoder, host_at_loop_entry 0, sample_shared) tr
      (p', h', clear_flag Encoder (set_encoder_ready 1 sample_shared)) /\
    count_copies Encoder tr = 1%nat /\
    count_publishes Encoder tr = 1%nat /\
    batch_packet Encoder h' 0
      = slot_packet Encoder sample_shared (ready Encoder sample_shared - 1) /\
    ready Encoder (clear_flag Encoder (set_encoder_ready 1 sample_shared)) = 0 /\
    in_drain Encoder p' = false.
Proof.
  apply (publication_during_drain_is_lost 1000000 Encoder (host_at_loop_entry 0)
           sample_shared (set_encoder_ready 1 sample_shared)).
  - repeat split.
  - repeat split.
  - reflexivity.
  - simpl. lia.
  - apply Env_publish.
    + simpl. lia.
    + intros [] H; try reflexivity. contradiction H. reflexivity.
    + repeat split.
Defined.

Lemma producer_statements_make_the_passes_witness :
  (forall inp p t,
     GripperEncoder.pass inp (GripperEncoder.At_while, (p, idle_shared, t)) =
     (fun r => ((GripperEncoder.At_while, fst r), snd r))
       <$> GripperEncoder.iteration inp (p, idle_shared, t)) /\
  (forall inp p t,
     LimitSwitches.pass inp (LimitSwitches.At_while, (p, idle_shared, t)) =
     (fun r => ((LimitSwitches.At_while, fst r), snd r))
       <$> LimitSwitches.iteration inp (p, idle_shared, t)).
Proof. apply (producer_statements_make_the_passes idle_shared). reflexivity. Defined.

Lemma env_ok_set_on_2 : env_ok set_on_2.
Proof. intros s Ht Hr. split; [exact Ht|]. intros c. specialize (Hr c). destruct c; exact Hr. Qed.

Lemma run_flag_above_1_halts_the_producers_only_witness :
  (exists h' s' out,
     acquisition_loop 1000000 [(set_on_2, 5); (set_on_2, 6)]
       (host_at_loop_entry 0) idle_shared = Running h' s' out) /\
  (forall r p s0 t,
     on s0 = 2 ->
     GripperEncoder.run_to 2 GripperEncoder.At_halt r (GripperEncoder.At_while, (p, s0, t))
     = Some ((GripperEncoder.At_halt, (p, s0, t)), [])) /\
  (forall r p s0 t,
     on s0 = 2 ->
     LimitSwitches.step r (LimitSwitches.At_while, (p, s0, t))
       = Some ((LimitSwitches.At_r31, (p, s0, t)), []) /\
     LimitSwitches.step r (LimitSwitches.At_r31, (p, s0, t))
       = Some ((LimitSwitches.At_halt, (p, s0, t)), [])).
Proof.
  apply (run_flag_above_1_halts_the_producers_only 1000000 2
           [(set_on_2, 5); (set_on_2, 6)] (host_at_loop_entry 0) idle_shared).
  - discriminate.
  - discriminate.
  - apply loop_head_idle.
  - repeat (apply List.Forall_cons; [apply env_ok_set_on_2|]); apply List.Forall_nil.
  - repeat (apply List.Forall_cons; [intros s0; reflexivity|]); apply List.Forall_nil.
Defined.

Lemma published_slot_rests_120_passes_witness :
  exists st' w,
    GripperEncoder.iterations (replicate 120 quick_pass)
      (GripperEncoder.mkPru 0 0, idle_shared, iep_reset) = Some (st', w) /\
    array_get (encoder_packets (snd (fst st'))) (1 - 0)
      = array_get (encoder_packets idle_shared) (1 - 0) /\
    (forall f, written Encoder (1 - 0) f w = []) /\
    (length (replicate 120 quick_pass) = 120%nat ->
     forall inp, exists st'' w' v,
       GripperEncoder.iteration inp st' = Some (st'', w') /\
       written Encoder (1 - 0) F_clock w' = [(0, v)]).
Proof.
  apply (published_slot_rests_120_passes (replicate 120 quick_pass)
           (GripperEncoder.mkPru 0 0) idle_shared iep_reset).
  - apply encoder_ok_idle.
  - reflexivity.
  - rewrite length_replicate. lia.
Defined.

(** The switch on pin 8 is closed at the test and open again when the
    state is read: the packet is published with state 0. *)
Example limit_publishes_state_0 :
  exists st' w,
    LimitSwitches.iteration (LimitSwitches.mkInput 0x3E00 5 5 0x3F00)
      (LimitSwitches.mkPru 0, idle_shared, iep_reset) = Some (st', w) /\
    written Limit 0 F_state w = [(0, 0)] /\
    limit_ready (snd (fst st')) = 1.
Proof. eexists _, _. repeat split. Qed.

Lemma state_words_are_masked_witness :
  (exists st' w v,
     GripperEncoder.iteration quick_pass (GripperEncoder.mkPru 0 0, idle_shared, iep_reset)
       = Some (st', w) /\
     written Encoder 0 F_state w = [(0, v)] /\
     v = (GripperEncoder.r31 quick_pass) mod 64 /\ 0 <= v <= 63) /\
  (exists st' w v,
     LimitSwitches.iteration switch_closed (LimitSwitches.mkPru 0, idle_shared, iep_reset)
       = Some (st', w) /\
     written Limit 0 F_state w = [(0, v)] /\
     limit_ready (snd (fst st')) = 0 + 1 /\
     v = LimitSwitches.active (LimitSwitches.r31_state switch_closed) /\
     0 <= v <= 0x3F00 /\ v mod 256 = 0 /\
     (LimitSwitches.r31_state switch_closed = LimitSwitches.r31_test switch_closed -> v <> 0)).
Proof.
  split.
  - apply (proj1 state_words_are_masked quick_pass
             (GripperEncoder.mkPru 0 0) idle_shared iep_reset).
    apply encoder_ok_idle.
  - apply (proj2 state_words_are_masked switch_closed
             (LimitSwitches.mkPru 0) idle_shared iep_reset).
    + repeat split; simpl; lia.
    + vm_compute. discriminate.
Defined.
